(** * A shallow embedding of the Pac-Man clone's simulation core

    The component verified is [src/App.tsx]: grid stepping, the breadth-first
    path finder, the chase targets, the motion of the player and of the
    ghosts, collision resolution, the timers of one tick and the handling of
    the advisory (hive-mind) response.  It is embedded in the module [App]
    and in the helpers shared with it.

    The sources hold two more copies of the same component:
    - [src/unnamed/part_001] routes every ghost move through
      [isBlockedForGhost], [safeGhostStep] and [tryGhostMoves]; these and its
      [findNextMove] and [moveGhosts] are embedded in the module [Part001],
      so that what [src/App.tsx] does can be compared with them;
    - [src/unnamed/part_000] is the copy without the advisory service; its
      grid and search functions are those of [src/App.tsx] up to the bounds
      test of the first loop of [findNextMove]; it is not embedded.
    [src/unnamed/part_002] holds the type declarations ([Direction],
    [CellType], [GameState], [Position], [Pacman], [Ghost]).

    The module [./constants] is not among the sources: the constants it
    exports are gathered in the class [Constants] and every definition is
    parameterised by them.

    React state: a callback reads the [useState] cells of the render that
    created it and queues updates; a functional update sees the latest
    value.  A callback is therefore embedded as a function of two states,
    the render it reads and the state it updates.

    Runs: every handler, timer and effect of the component is an [Event];
    [step] applies one to the committed state, the render its closure was
    created in, and [run] applies a list of them in order.  The invariants
    of the component are proved for every list of events. *)

From Stdlib Require Import ZArith List Bool Lia String Ascii QArith Arith Sorted.
From Stdlib Require DecimalZ DecimalPos.
From Stdlib Require Import DecimalString.
Import ListNotations.

Local Open Scope Z_scope.

(* ================================================================= *)
(** ** Types ([types.ts]) *)

Inductive Direction := UP | DOWN | LEFT | RIGHT | NONE.

Inductive CellType :=
  WALL | PELLET | EMPTY | POWER_PELLET | GHOST_HOME | GHOST_HOME_DOOR.

Inductive GameState := READY | PLAYING | PAUSED | GAME_OVER | LEVEL_WON.

(** [Position = { x: number; y: number }]; the fields are [pos_x], [pos_y]. *)
Record Position := mkPos { pos_x : Z; pos_y : Z }.

(** [Pacman]; the fields carry the prefix [p_]. *)
Record Pacman := mkPacman {
  p_position : Position;
  p_direction : Direction;
  p_nextDirection : Direction;
  p_isMouthOpen : bool
}.

(** [Ghost['state']] is the string union ['normal' | 'frightened' | 'eaten']. *)
Inductive GhostState := normal | frightened | eaten.

(** [Ghost]; the fields carry the prefix [g_]. *)
Record Ghost := mkGhost {
  g_id : Z;
  g_position : Position;
  g_direction : Direction;
  g_state : GhostState;
  g_color : string;
  g_spawn : Position;
  g_scatterTarget : Position
}.

(** The board is [CellType[][]]: a list of rows. *)
Definition Board := list (list CellType).

(** A JavaScript number that may be [Infinity] (the mode countdown). *)
Inductive JsNum := Fin (q : Q) | Infinity.

(** The values exported by [./constants], which is not among the sources. *)
Class Constants := {
  BOARD_WIDTH : Z;
  BOARD_HEIGHT : Z;
  GAME_SPEED : Q;
  FRIGHTENED_DURATION : Z;
  INITIAL_BOARD : Board;
  TOTAL_PELLETS : Z
}.

(* ================================================================= *)
(** ** Decidable equalities *)

Definition Direction_eqb (a b : Direction) : bool :=
  match a, b with
  | UP, UP | DOWN, DOWN | LEFT, LEFT | RIGHT, RIGHT | NONE, NONE => true
  | _, _ => false
  end.

Definition CellType_eqb (a b : CellType) : bool :=
  match a, b with
  | WALL, WALL | PELLET, PELLET | EMPTY, EMPTY
  | POWER_PELLET, POWER_PELLET | GHOST_HOME, GHOST_HOME
  | GHOST_HOME_DOOR, GHOST_HOME_DOOR => true
  | _, _ => false
  end.

Definition GhostState_eqb (a b : GhostState) : bool :=
  match a, b with
  | normal, normal | frightened, frightened | eaten, eaten => true
  | _, _ => false
  end.

Definition Position_eqb (p q : Position) : bool :=
  (pos_x p =? pos_x q) && (pos_y p =? pos_y q).

(* ================================================================= *)
(** ** Grid helpers shared by both revisions *)

(** [board[pos.y]?.[pos.x]]: [None] is JavaScript's [undefined], which an
    index outside the array (negative included) yields. *)
Definition cellAt (board : Board) (pos : Position) : option CellType :=
  if (pos_y pos <? 0) || (pos_x pos <? 0) then None
  else match nth_error board (Z.to_nat (pos_y pos)) with
       | Some row => nth_error row (Z.to_nat (pos_x pos))
       | None => None
       end.

(** [cell === c] for a cell that may be [undefined]. *)
Definition cellIs (cell : option CellType) (c : CellType) : bool :=
  match cell with
  | Some c' => CellType_eqb c' c
  | None => false
  end.

Section Shared.
Context {K : Constants}.

(** [getNextPosition]: one step, then the four tunnel tests in the order of
    the source (each test sees the result of the previous one). *)
Definition getNextPosition (pos : Position) (dir : Direction) : Position :=
  let x0 := pos_x pos in
  let y0 := pos_y pos in
  let '(x1, y1) :=
    match dir with
    | UP => (x0, y0 - 1)
    | DOWN => (x0, y0 + 1)
    | LEFT => (x0 - 1, y0)
    | RIGHT => (x0 + 1, y0)
    | NONE => (x0, y0)
    end in
  let x2 := if x1 <? 0 then BOARD_WIDTH - 1 else x1 in
  let x3 := if x2 >=? BOARD_WIDTH then 0 else x2 in
  let y2 := if y1 <? 0 then BOARD_HEIGHT - 1 else y1 in
  let y3 := if y2 >=? BOARD_HEIGHT then 0 else y2 in
  mkPos x3 y3.

(** [isWall]: the player's notion of a blocked cell. *)
Definition isWall (pos : Position) (board : Board) : bool :=
  let cell := cellAt board pos in
  cellIs cell WALL || cellIs cell GHOST_HOME || cellIs cell GHOST_HOME_DOOR.

(** The table [oppositeDirection] of [moveGhosts] ([NONE] maps to [NONE]). *)
Definition oppositeDirection (d : Direction) : Direction :=
  match d with
  | UP => DOWN | DOWN => UP | LEFT => RIGHT | RIGHT => LEFT | NONE => NONE
  end.

End Shared.

(* ================================================================= *)
(** ** Breadth-first search shared by both revisions of [findNextMove]

    The two revisions differ only in the test that skips a neighbour; the
    search itself is the same text.  It is embedded once, over
    - [blockedFirst from to]: the test of the first loop (neighbours of
      [start]);
    - [blocked from to]: the test of the [while] loop;
    - [isEnd p]: [stringify(p) === stringify(end)].

    [visited] is a [Set<string>] of keys ["x,y"]; the key of a position with
    integer coordinates determines the position ([stringify_injective]
    below), so the set is embedded as a list of positions.  [queue] holds
    the entries from index [head] on. *)

Definition dirs : list Direction := [UP; DOWN; LEFT; RIGHT].

Definition QueueItem : Type := Position * Direction.

Definition has (visited : list Position) (p : Position) : bool :=
  existsb (Position_eqb p) visited.

(** Outcome of scanning the four neighbours of one node. *)
Inductive Scan :=
| Found (d : Direction)
| Continue (queue : list QueueItem) (visited : list Position).

Section Search.
Context {K : Constants}.
Variable blockedFirst blocked : Position -> Position -> bool.
Variable isEnd : Position -> bool.

(** The first [for] loop: no [visited] test there. *)
Fixpoint firstRing (ds : list Direction) (start : Position)
    (queue : list QueueItem) (visited : list Position) : Scan :=
  match ds with
  | [] => Continue queue visited
  | dir :: ds' =>
      let nextPos := getNextPosition start dir in
      if blockedFirst start nextPos then firstRing ds' start queue visited
      else if isEnd nextPos then Found dir
      else firstRing ds' start (queue ++ [(nextPos, dir)]) (nextPos :: visited)
  end.

(** The inner [for] loop of the [while] loop, for the entry [(pos, firstStep)]. *)
Fixpoint expand (ds : list Direction) (pos : Position) (firstStep : Direction)
    (queue : list QueueItem) (visited : list Position) : Scan :=
  match ds with
  | [] => Continue queue visited
  | dir :: ds' =>
      let nextPos := getNextPosition pos dir in
      if has visited nextPos then expand ds' pos firstStep queue visited
      else if blocked pos nextPos then expand ds' pos firstStep queue visited
      else if isEnd nextPos then Found firstStep
      else expand ds' pos firstStep (queue ++ [(nextPos, firstStep)])
                  (nextPos :: visited)
  end.

(** The [while (head < queue.length)] loop; one iteration per unit of fuel.
    The outer [None] means that the fuel ran out, the inner one is [null]. *)
Fixpoint search (fuel : nat) (queue : list QueueItem) (visited : list Position)
    : option (option Direction) :=
  match fuel with
  | O => None
  | S fuel' =>
      match queue with
      | [] => Some None
      | (pos, firstStep) :: rest =>
          match expand dirs pos firstStep rest visited with
          | Found d => Some (Some d)
          | Continue queue' visited' => search fuel' queue' visited'
          end
      end
  end.

(** Every entry pushed by the [while] loop is a fresh cell of the board, so
    the loop body runs at most [4 + BOARD_WIDTH * BOARD_HEIGHT] times. *)
Definition searchFuel : nat :=
  S (4 + Z.to_nat BOARD_WIDTH * Z.to_nat BOARD_HEIGHT).

Definition bfs (start : Position) : option Direction :=
  match firstRing dirs start [] [start] with
  | Found d => Some d
  | Continue queue visited =>
      match search searchFuel queue visited with
      | Some r => r
      | None => None
      end
  end.

End Search.

(* ================================================================= *)
(** ** Chase targets ([getChaseTarget]) *)

(** [Math.sqrt(dx^2 + dy^2) > 8] on integers is [dx^2 + dy^2 > 64]:
    the square root is monotone and exact at 64. *)
Definition fartherThan8 (a b : Position) : bool :=
  let dx := pos_x a - pos_x b in
  let dy := pos_y a - pos_y b in
  dx * dx + dy * dy >? 64.

Definition getChaseTarget (ghost : Ghost) (pacman : Pacman) (ghosts : list Ghost)
    : Position :=
  let pp := p_position pacman in
  if g_id ghost =? 1 then pp
  else if g_id ghost =? 2 then
    match p_direction pacman with
    | UP => mkPos (pos_x pp) (pos_y pp - 4)
    | DOWN => mkPos (pos_x pp) (pos_y pp + 4)
    | LEFT => mkPos (pos_x pp - 4) (pos_y pp)
    | RIGHT => mkPos (pos_x pp + 4) (pos_y pp)
    | NONE => pp
    end
  else if g_id ghost =? 3 then
    match find (fun g => g_id g =? 1) ghosts with
    | None => pp
    | Some blinky =>
        let offset :=
          match p_direction pacman with
          | UP => mkPos 0 (-2)
          | DOWN => mkPos 0 2
          | LEFT => mkPos (-2) 0
          | RIGHT => mkPos 2 0
          | NONE => mkPos 0 0
          end in
        let pivot := mkPos (pos_x pp + pos_x offset) (pos_y pp + pos_y offset) in
        mkPos (pos_x pivot + (pos_x pivot - pos_x (g_position blinky)))
              (pos_y pivot + (pos_y pivot - pos_y (g_position blinky)))
    end
  else if g_id ghost =? 4 then
    if fartherThan8 (g_position ghost) pp then pp else g_scatterTarget ghost
  else pp.

(* ================================================================= *)
(** ** Values produced by [JSON.parse] (the advisory payload)

    [geminiTargets] holds whatever [JSON.parse] returned; the declared type
    [Record<number, Position>] is not checked at run time. *)

#[local] Unset Elimination Schemes.
Inductive Json :=
| JNull
| JBool (b : bool)
| JNum (q : Q)
| JStr (s : string)
| JArr (items : list Json)
| JObj (fields : list (string * Json)).
#[local] Set Elimination Schemes.

(** Decimal numeral of an integer, as a template literal prints it. *)
Definition string_of_Z (z : Z) : string :=
  DecimalString.NilZero.string_of_int (Z.to_int z).

(** JavaScript truthiness of a parsed value. *)
Definition truthy (v : Json) : bool :=
  match v with
  | JNull => false
  | JBool b => b
  | JNum q => negb (Qeq_bool q 0)
  | JStr s => negb (String.eqb s EmptyString)
  | JArr _ | JObj _ => true
  end.

(** Among duplicate keys [JSON.parse] keeps the last one. *)
Definition assocLast (key : string) (fields : list (string * Json)) : option Json :=
  fold_left (fun acc kv => if String.eqb (fst kv) key then Some (snd kv) else acc)
            fields None.

(** [v[n]] for a numeric key ([targets['1']], [geminiTargets[ghost.id]]);
    [None] is [undefined]. *)
Definition propIdx (v : Json) (n : Z) : option Json :=
  match v with
  | JObj fields => assocLast (string_of_Z n) fields
  | JArr items => if n <? 0 then None else nth_error items (Z.to_nat n)
  | JStr s =>
      if n <? 0 then None
      else option_map (fun c => JStr (String c EmptyString))
                      (String.get (Z.to_nat n) s)
  | JNull | JBool _ | JNum _ => None
  end.

(** [v.x] and [v.y]: only objects carry such a property. *)
Definition propName (v : Json) (name : string) : option Json :=
  match v with
  | JObj fields => assocLast name fields
  | _ => None
  end.

(** What a template literal prints for a value; [None] stands for the
    numeral of a number that is not an integer, which no cell key contains. *)
Fixpoint jsString (v : Json) : option string :=
  match v with
  | JNull => Some "null"%string
  | JBool true => Some "true"%string
  | JBool false => Some "false"%string
  | JNum q =>
      let r := Qred q in
      if Pos.eqb (Qden r) 1 then Some (string_of_Z (Qnum r)) else None
  | JStr s => Some s
  | JArr items =>
      (fix join (l : list Json) : option string :=
         match l with
         | [] => Some EmptyString
         | v :: rest =>
             let here := match v with JNull => Some EmptyString | _ => jsString v end in
             match rest with
             | [] => here
             | _ :: _ =>
                 match here, join rest with
                 | Some a, Some b => Some (a ++ "," ++ b)%string
                 | _, _ => None
                 end
             end
         end) items
  | JObj _ => Some "[object Object]"%string
  end.

Definition jsStringOpt (v : option Json) : option string :=
  match v with
  | None => Some "undefined"%string
  | Some j => jsString j
  end.

(** [stringify(p)] of [findNextMove], for a position. *)
Definition stringify (p : Position) : string :=
  (string_of_Z (pos_x p) ++ "," ++ string_of_Z (pos_y p))%string.

(** [stringify(nextPos) === stringify(end)] when [end] is a parsed value. *)
Definition keyMatches (target : Json) (p : Position) : bool :=
  match jsStringOpt (propName target "x"), jsStringOpt (propName target "y") with
  | Some sx, Some sy => String.eqb (stringify p) (sx ++ "," ++ sy)%string
  | _, _ => false
  end.

(** The destination of a ghost in normal state: a cell computed by the game,
    or the entry of the advisory payload for that ghost. *)
Inductive Target :=
| Cell (p : Position)
| Advised (v : Json).

(** [stringify(p) === stringify(end)]; for a cell this is equality of
    positions ([stringify_eqb] below). *)
Definition isTarget (t : Target) (p : Position) : bool :=
  match t with
  | Cell q => Position_eqb p q
  | Advised v => keyMatches v p
  end.

(** [geminiTargets && geminiTargets[ghost.id]], when truthy. *)
Definition advisoryFor (geminiTargets : option Json) (id : Z) : option Json :=
  match geminiTargets with
  | None => None
  | Some targets =>
      if truthy targets then
        match propIdx targets id with
        | Some v => if truthy v then Some v else None
        | None => None
        end
      else None
  end.

Inductive GhostMode := scatter | chase.

Inductive HiveMindStatus := offline | thinking | active | failed.

(** [GHOST_MODE_SCHEDULE]; durations in milliseconds. *)
Definition GHOST_MODE_SCHEDULE : list (GhostMode * JsNum) :=
  [ (scatter, Fin 7000); (chase, Fin 20000);
    (scatter, Fin 7000); (chase, Fin 20000);
    (scatter, Fin 5000); (chase, Fin 20000);
    (scatter, Fin 5000); (chase, Infinity) ].

(** The [useState] cells of the [App] component. *)
Record State := mkState {
  board : Board;
  pacman : Pacman;
  ghosts : list Ghost;
  gameState : GameState;
  score : Z;
  lives : Z;
  eatenPellets : Z;
  frightenedTicks : Z;
  ghostMode : GhostMode;
  modeTicks : JsNum;
  scheduleIndex : Z;
  hiveMindStatus : HiveMindStatus;
  geminiTargets : option Json
}.

Definition setBoard (v : Board) (s : State) : State :=
  mkState v (pacman s) (ghosts s) (gameState s) (score s) (lives s)
          (eatenPellets s) (frightenedTicks s) (ghostMode s) (modeTicks s)
          (scheduleIndex s) (hiveMindStatus s) (geminiTargets s).

Definition setPacman (f : Pacman -> Pacman) (s : State) : State :=
  mkState (board s) (f (pacman s)) (ghosts s) (gameState s) (score s) (lives s)
          (eatenPellets s) (frightenedTicks s) (ghostMode s) (modeTicks s)
          (scheduleIndex s) (hiveMindStatus s) (geminiTargets s).

Definition setGhosts (f : list Ghost -> list Ghost) (s : State) : State :=
  mkState (board s) (pacman s) (f (ghosts s)) (gameState s) (score s) (lives s)
          (eatenPellets s) (frightenedTicks s) (ghostMode s) (modeTicks s)
          (scheduleIndex s) (hiveMindStatus s) (geminiTargets s).

Definition setGameState (v : GameState) (s : State) : State :=
  mkState (board s) (pacman s) (ghosts s) v (score s) (lives s)
          (eatenPellets s) (frightenedTicks s) (ghostMode s) (modeTicks s)
          (scheduleIndex s) (hiveMindStatus s) (geminiTargets s).

Definition setScore (f : Z -> Z) (s : State) : State :=
  mkState (board s) (pacman s) (ghosts s) (gameState s) (f (score s)) (lives s)
          (eatenPellets s) (frightenedTicks s) (ghostMode s) (modeTicks s)
          (scheduleIndex s) (hiveMindStatus s) (geminiTargets s).

Definition setLives (f : Z -> Z) (s : State) : State :=
  mkState (board s) (pacman s) (ghosts s) (gameState s) (score s) (f (lives s))
          (eatenPellets s) (frightenedTicks s) (ghostMode s) (modeTicks s)
          (scheduleIndex s) (hiveMindStatus s) (geminiTargets s).

Definition setEatenPellets (f : Z -> Z) (s : State) : State :=
  mkState (board s) (pacman s) (ghosts s) (gameState s) (score s) (lives s)
          (f (eatenPellets s)) (frightenedTicks s) (ghostMode s) (modeTicks s)
          (scheduleIndex s) (hiveMindStatus s) (geminiTargets s).

Definition setFrightenedTicks (v : Z) (s : State) : State :=
  mkState (board s) (pacman s) (ghosts s) (gameState s) (score s) (lives s)
          (eatenPellets s) v (ghostMode s) (modeTicks s)
          (scheduleIndex s) (hiveMindStatus s) (geminiTargets s).

Definition setGhostMode (v : GhostMode) (s : State) : State :=
  mkState (board s) (pacman s) (ghosts s) (gameState s) (score s) (lives s)
          (eatenPellets s) (frightenedTicks s) v (modeTicks s)
          (scheduleIndex s) (hiveMindStatus s) (geminiTargets s).

Definition setModeTicks (v : JsNum) (s : State) : State :=
  mkState (board s) (pacman s) (ghosts s) (gameState s) (score s) (lives s)
          (eatenPellets s) (frightenedTicks s) (ghostMode s) v
          (scheduleIndex s) (hiveMindStatus s) (geminiTargets s).

Definition setScheduleIndex (v : Z) (s : State) : State :=
  mkState (board s) (pacman s) (ghosts s) (gameState s) (score s) (lives s)
          (eatenPellets s) (frightenedTicks s) (ghostMode s) (modeTicks s)
          v (hiveMindStatus s) (geminiTargets s).

Definition setHiveMindStatus (v : HiveMindStatus) (s : State) : State :=
  mkState (board s) (pacman s) (ghosts s) (gameState s) (score s) (lives s)
          (eatenPellets s) (frightenedTicks s) (ghostMode s) (modeTicks s)
          (scheduleIndex s) v (geminiTargets s).

Definition setGeminiTargets (v : option Json) (s : State) : State :=
  mkState (board s) (pacman s) (ghosts s) (gameState s) (score s) (lives s)
          (eatenPellets s) (frightenedTicks s) (ghostMode s) (modeTicks s)
          (scheduleIndex s) (hiveMindStatus s) v.

(** Record updates [{ ...ghost, field: v }]. *)
Definition withGhostState (st : GhostState) (g : Ghost) : Ghost :=
  mkGhost (g_id g) (g_position g) (g_direction g) st (g_color g) (g_spawn g)
          (g_scatterTarget g).

Definition withGhostDirection (d : Direction) (g : Ghost) : Ghost :=
  mkGhost (g_id g) (g_position g) d (g_state g) (g_color g) (g_spawn g)
          (g_scatterTarget g).

Definition withGhostMove (p : Position) (d : Direction) (g : Ghost) : Ghost :=
  mkGhost (g_id g) p d (g_state g) (g_color g) (g_spawn g) (g_scatterTarget g).

(** [newBoard[y][x] = c] on a copy of the board.  Both call sites have just
    read a pellet at that index, so the index is inside the array; outside it
    the copy is returned unchanged here. *)
Fixpoint setNth {A : Type} (n : nat) (v : A) (l : list A) : list A :=
  match l, n with
  | [], _ => []
  | _ :: rest, O => v :: rest
  | a :: rest, S n' => a :: setNth n' v rest
  end.

Definition setCell (b : Board) (pos : Position) (c : CellType) : Board :=
  if (pos_y pos <? 0) || (pos_x pos <? 0) then b
  else match nth_error b (Z.to_nat (pos_y pos)) with
       | Some row =>
           if (Z.to_nat (pos_x pos) <? List.length row)%nat
           then setNth (Z.to_nat (pos_y pos)) (setNth (Z.to_nat (pos_x pos)) c row) b
           else b
       | None => b
       end.

(** [t - 1] and [t <= 0] on a countdown that may be [Infinity]. *)
Definition jsPred (t : JsNum) : JsNum :=
  match t with
  | Fin q => Fin (q - 1)%Q
  | Infinity => Infinity
  end.

Definition jsLeZero (t : JsNum) : bool :=
  match t with
  | Fin q => Qle_bool q 0
  | Infinity => false
  end.

(** [duration / GAME_SPEED] for a finite positive duration. *)
Definition jsDiv (d g : Q) : JsNum :=
  if Qeq_bool g 0 then Infinity else Fin (d / g)%Q.

(** The destination chosen for a ghost in normal state (the same expression
    in both revisions of [moveGhosts]). *)
Definition targetPos (pacman : Pacman) (ghostMode : GhostMode)
    (geminiTargets : option Json) (currentGhosts : list Ghost) (ghost : Ghost)
    : Target :=
  match ghostMode with
  | chase =>
      match advisoryFor geminiTargets (g_id ghost) with
      | Some v => Advised v
      | None => Cell (getChaseTarget ghost pacman currentGhosts)
      end
  | scatter => Cell (g_scatterTarget ghost)
  end.

(* ================================================================= *)
(** ** [src/App.tsx] *)

Module App.
Section Defs.
Context {K : Constants}.

(** The bounds test of the first loop of [findNextMove]. *)
Definition outOfBounds (p : Position) : bool :=
  (pos_y p <? 0) || (pos_y p >=? BOARD_HEIGHT)
  || (pos_x p <? 0) || (pos_x p >=? BOARD_WIDTH).

(** The two [continue] tests on the cell of [nextPos]. *)
Definition cellBlocked (board : Board) (ghostState : GhostState)
    (nextPos : Position) : bool :=
  let cell := cellAt board nextPos in
  cellIs cell WALL
  || (cellIs cell GHOST_HOME && negb (GhostState_eqb ghostState eaten)).

(** [findNextMove] with the destination as the caller passes it. *)
Definition findNextMoveTo (board : Board) (start : Position) (target : Target)
    (ghostState : GhostState) : option Direction :=
  bfs (fun _ nextPos => outOfBounds nextPos || cellBlocked board ghostState nextPos)
      (fun _ nextPos => cellBlocked board ghostState nextPos)
      (isTarget target) start.

(** [findNextMove(board, start, end, ghostState)] for a cell [end]. *)
Definition findNextMove (board : Board) (start end_ : Position)
    (ghostState : GhostState) : option Direction :=
  findNextMoveTo board start (Cell end_) ghostState.

(** The updater passed to [setPacman] by [movePacman]. *)
Definition movePacman (board : Board) (p : Pacman) : Pacman :=
  let chomp := mkPacman (p_position p) (p_direction p) (p_nextDirection p)
                        (negb (p_isMouthOpen p)) in
  let go (currentDirection : Direction) :=
    mkPacman (getNextPosition (p_position p) currentDirection) currentDirection
             (p_nextDirection p) (negb (p_isMouthOpen p)) in
  if negb (isWall (getNextPosition (p_position p) (p_nextDirection p)) board)
  then go (p_nextDirection p)
  else if isWall (getNextPosition (p_position p) (p_direction p)) board
       then chomp
       else go (p_direction p).

(** The directions a frightened ghost draws from. *)
Definition validDirections (board : Board) (ghost : Ghost) : list Direction :=
  filter (fun dir =>
            negb (Direction_eqb dir (oppositeDirection (g_direction ghost)))
            && (let cell := cellAt board (getNextPosition (g_position ghost) dir) in
                negb (cellIs cell WALL) && negb (cellIs cell GHOST_HOME)))
         dirs.

(** The function mapped over the ghosts by [moveGhosts].  [r] stands for the
    draw [Math.floor(Math.random() * n)], taken modulo [n]. *)
Definition moveGhost (board : Board) (pacman : Pacman) (ghostMode : GhostMode)
    (geminiTargets : option Json) (currentGhosts : list Ghost) (r : nat)
    (ghost : Ghost) : Ghost :=
  match g_state ghost with
  | eaten =>
      if Position_eqb (g_position ghost) (g_spawn ghost)
      then withGhostDirection UP (withGhostState normal ghost)
      else
        let nextDir :=
          match findNextMove board (g_position ghost) (g_spawn ghost) (g_state ghost) with
          | Some d => d
          | None => oppositeDirection (g_direction ghost)
          end in
        withGhostMove (getNextPosition (g_position ghost) nextDir) nextDir ghost
  | frightened =>
      let valid := validDirections board ghost in
      let nextDir :=
        if (0 <? List.length valid)%nat
        then nth (r mod List.length valid) valid NONE
        else oppositeDirection (g_direction ghost) in
      withGhostMove (getNextPosition (g_position ghost) nextDir) nextDir ghost
  | normal =>
      let target := targetPos pacman ghostMode geminiTargets currentGhosts ghost in
      let nextDir :=
        match findNextMoveTo board (g_position ghost) target (g_state ghost) with
        | Some bestDir => bestDir
        | None => g_direction ghost
        end in
      withGhostMove (getNextPosition (g_position ghost) nextDir) nextDir ghost
  end.

(** [currentGhosts.map(ghost => ...)]; [rnd i] is the draw of the ghost at
    index [i]. *)
Fixpoint moveGhostsFrom (i : nat) (board : Board) (pacman : Pacman)
    (ghostMode : GhostMode) (geminiTargets : option Json)
    (currentGhosts : list Ghost) (rnd : nat -> nat) (gs : list Ghost)
    : list Ghost :=
  match gs with
  | [] => []
  | ghost :: rest =>
      moveGhost board pacman ghostMode geminiTargets currentGhosts (rnd i) ghost
      :: moveGhostsFrom (S i) board pacman ghostMode geminiTargets currentGhosts
                        rnd rest
  end.

(** A callback of the component reads the [useState] cells from the render
    that created it ([env]) and queues updates; functional updates see the
    latest value ([cur]).  Each callback is embedded as [env -> cur -> cur']. *)
Definition moveGhosts (rnd : nat -> nat) (env cur : State) : State :=
  setGhosts (fun currentGhosts =>
               moveGhostsFrom 0 (board env) (pacman env) (ghostMode env)
                              (geminiTargets env) currentGhosts rnd currentGhosts)
            cur.

(** [movePacman]: queues the updater on the player. *)
Definition movePacmanCb (env cur : State) : State :=
  setPacman (movePacman (board env)) cur.

(** The table [oppositeDirection] inside [handleCollisions]: [NONE] maps to [UP]. *)
Definition oppositeOnFright (d : Direction) : Direction :=
  match d with
  | UP => DOWN | DOWN => UP | LEFT => RIGHT | RIGHT => LEFT | NONE => UP
  end.

(** The updater of the power pellet: every ghost that is not eaten becomes
    frightened and turns round. *)
Definition frighten (g : Ghost) : Ghost :=
  match g_state g with
  | eaten => g
  | _ => withGhostDirection (oppositeOnFright (g_direction g))
                            (withGhostState frightened g)
  end.

(** [g.id === ghost.id ? { ...g, state: 'eaten' } : g]. *)
Definition markEaten (id : Z) (g : Ghost) : Ghost :=
  if g_id g =? id then withGhostState eaten g else g.

(** The [for (const ghost of ghosts)] loop of [handleCollisions]: the flag
    is [pacmanHasDied]. *)
Fixpoint contactLoop (gs : list Ghost) (pac : Position) (cur : State)
    : bool * State :=
  match gs with
  | [] => (false, cur)
  | ghost :: rest =>
      if Position_eqb (g_position ghost) pac then
        match g_state ghost with
        | frightened =>
            contactLoop rest pac
              (setGhosts (map (markEaten (g_id ghost)))
                         (setScore (fun s => s + 200) cur))
        | normal => (true, cur)
        | eaten => contactLoop rest pac cur
        end
      else contactLoop rest pac cur
  end.

(** The pellet part of [handleCollisions]. *)
Definition pelletCheck (env cur : State) : State :=
  let pos := p_position (pacman env) in
  let cellUnderPacman := cellAt (board env) pos in
  if cellIs cellUnderPacman PELLET || cellIs cellUnderPacman POWER_PELLET then
    let cur1 :=
      if cellIs cellUnderPacman PELLET
      then setScore (fun s => s + 10) cur
      else setGhosts (map frighten)
             (setFrightenedTicks FRIGHTENED_DURATION
                (setScore (fun s => s + 50) cur)) in
    setBoard (setCell (board env) pos EMPTY)
             (setEatenPellets (fun p => p + 1) cur1)
  else cur.

(** [handleCollisions]: contact first; after a fatal contact a life is
    taken, the game is paused and the function returns. *)
Definition handleCollisions (env cur : State) : State :=
  match contactLoop (ghosts env) (p_position (pacman env)) cur with
  | (true, cur1) => setGameState PAUSED (setLives (fun l => l - 1) cur1)
  | (false, cur1) => pelletCheck env cur1
  end.

(** The updater run when the frightened countdown reaches zero. *)
Definition unfrighten (g : Ghost) : Ghost :=
  match g_state g with
  | frightened => withGhostState normal g
  | _ => g
  end.

(** The timer part of [gameTick].  [scheduleIndex] only ever holds an index
    of the schedule, so the entry looked up exists; the [None] branch stands
    for the lookup of a negative index. *)
Definition advanceTimers (env cur : State) : State :=
  if frightenedTicks env >? 0 then
    let newTicks := frightenedTicks env - 1 in
    let cur1 := setFrightenedTicks newTicks cur in
    if newTicks =? 0 then setGhosts (map unfrighten) cur1 else cur1
  else
    let newTicks := jsPred (modeTicks cur) in
    if jsLeZero newTicks then
      let newIndex :=
        Z.rem (scheduleIndex env + 1) (Z.of_nat (List.length GHOST_MODE_SCHEDULE)) in
      match (if newIndex <? 0 then None
             else nth_error GHOST_MODE_SCHEDULE (Z.to_nat newIndex)) with
      | Some (mode, duration) =>
          setModeTicks
            (match duration with
             | Fin d => jsDiv d GAME_SPEED
             | Infinity => Infinity
             end)
            (setGhostMode mode (setScheduleIndex newIndex cur))
      | None => cur
      end
    else setModeTicks newTicks cur.

(** [gameTick]: the four calls in the order of the source, all reading the
    same render [env]. *)
Definition gameTickFrom (rnd : nat -> nat) (env cur : State) : State :=
  advanceTimers env
    (handleCollisions env
       (moveGhosts rnd env
          (movePacmanCb env cur))).

(** One tick from a committed state: the interval callback is re-created
    whenever one of the cells it reads changes. *)
Definition gameTick (rnd : nat -> nat) (s : State) : State :=
  gameTickFrom rnd s s.

(** The synchronous part of the two effects that follow a render: game over
    when no life is left, level won when every pellet is eaten. *)
Definition livesEffect (s : State) : State :=
  if (lives s <=? 0) && negb (match gameState s with GAME_OVER => true | _ => false end)
  then setGameState GAME_OVER s
  else s.

(** The effect on [eatenPellets]. *)
Definition pelletsEffect (s : State) : State :=
  if (eatenPellets s >? 0) && (eatenPellets s =? TOTAL_PELLETS)
  then setGameState LEVEL_WON s
  else s.

(** What [callHiveMind] does once the request settles.  [Rejected] covers a
    failed request and a text that [JSON.parse] refuses (the empty text
    included): both land in the [catch] block. *)
Inductive Response :=
| Rejected
| Parsed (targets : Json).

(** [targets && targets['1'] && targets['2'] && targets['3'] && targets['4']]. *)
Definition hasAllTargets (targets : Json) : bool :=
  truthy targets
  && match propIdx targets 1 with Some v => truthy v | None => false end
  && match propIdx targets 2 with Some v => truthy v | None => false end
  && match propIdx targets 3 with Some v => truthy v | None => false end
  && match propIdx targets 4 with Some v => truthy v | None => false end.

(** The state updates of [callHiveMind] after the [await]; the two timers
    that later clear the targets and the status are not part of it. *)
Definition onHiveMindResponse (r : Response) (cur : State) : State :=
  match r with
  | Parsed targets =>
      if hasAllTargets targets
      then setHiveMindStatus active (setGeminiTargets (Some targets) cur)
      else setHiveMindStatus failed cur
  | Rejected => setHiveMindStatus failed cur
  end.

(** [INITIAL_PACMAN_POSITION] and the player every reset puts back. *)
Definition INITIAL_PACMAN_POSITION : Position := mkPos 13 19.

Definition initialPacman : Pacman :=
  mkPacman INITIAL_PACMAN_POSITION RIGHT RIGHT true.

(** [INITIAL_GHOSTS]: Blinky, Pinky, Inky and Clyde. *)
Definition INITIAL_GHOSTS : list Ghost :=
  [ mkGhost 1 (mkPos 13 9) LEFT normal "bg-red-500" (mkPos 13 9)
            (mkPos (BOARD_WIDTH - 2) 1);
    mkGhost 2 (mkPos 13 12) UP normal "bg-pink-500" (mkPos 13 12)
            (mkPos 1 1);
    mkGhost 3 (mkPos 11 12) UP normal "bg-cyan-500" (mkPos 11 12)
            (mkPos (BOARD_WIDTH - 2) (BOARD_HEIGHT - 2));
    mkGhost 4 (mkPos 15 12) UP normal "bg-orange-500" (mkPos 15 12)
            (mkPos 1 (BOARD_HEIGHT - 2)) ].

(** The initial values of the [useState] cells. *)
Definition initialState : State :=
  mkState INITIAL_BOARD initialPacman INITIAL_GHOSTS READY 0 3 0 0 scatter
          (jsDiv 7000 GAME_SPEED) 0 offline None.

(** [resetLevel]: the player and the ghosts go back to their initial values. *)
Definition resetLevel (cur : State) : State :=
  setGhosts (fun _ => INITIAL_GHOSTS) (setPacman (fun _ => initialPacman) cur).

(** [resetGame]: the thirteen setters in the order of the source. *)
Definition resetGame (cur : State) : State :=
  setGeminiTargets None
    (setHiveMindStatus offline
       (setGameState READY
          (setModeTicks (jsDiv 7000 GAME_SPEED)
             (setGhostMode scatter
                (setScheduleIndex 0
                   (resetLevel
                      (setFrightenedTicks 0
                         (setEatenPellets (fun _ => 0)
                            (setLives (fun _ => 3)
                               (setScore (fun _ => 0)
                                  (setBoard INITIAL_BOARD cur))))))))))).

(** [startGame]: reads [gameState] of the render that created it. *)
Definition startGame (env cur : State) : State :=
  match gameState env with
  | READY => setGameState PLAYING cur
  | GAME_OVER | LEVEL_WON => setGameState PLAYING (resetGame cur)
  | PLAYING | PAUSED => cur
  end.

(** The [switch] of [handleKeyDown] on [e.key]. *)
Definition keyDirection (key : string) : option Direction :=
  if String.eqb key "ArrowUp" || String.eqb key "w" then Some UP
  else if String.eqb key "ArrowDown" || String.eqb key "s" then Some DOWN
  else if String.eqb key "ArrowLeft" || String.eqb key "a" then Some LEFT
  else if String.eqb key "ArrowRight" || String.eqb key "d" then Some RIGHT
  else None.

Definition withNextDirection (d : Direction) (p : Pacman) : Pacman :=
  mkPacman (p_position p) (p_direction p) d (p_isMouthOpen p).

(** [handleKeyDown]: [Enter] starts the game, a direction key buffers a turn. *)
Definition handleKeyDown (key : string) (env cur : State) : State :=
  let cur1 := if String.eqb key "Enter" then startGame env cur else cur in
  match keyDirection key with
  | Some newNextDir => setPacman (withNextDirection newNextDir) cur1
  | None => cur1
  end.

(** The callback of the one-second timer set after a life is lost. *)
Definition resumeAfterLifeLost (cur : State) : State :=
  setGameState PLAYING (resetLevel cur).

(** The callback of the ten-second timer set when a payload is accepted. *)
Definition advisoryTimeout (cur : State) : State :=
  setHiveMindStatus (match hiveMindStatus cur with
                     | active => offline
                     | st => st
                     end)
                    (setGeminiTargets None cur).

(** The tick is installed only while the game is playing. *)
Definition clockTick (rnd : nat -> nat) (s : State) : State :=
  match gameState s with
  | PLAYING => gameTick rnd s
  | _ => s
  end.

End Defs.
End App.

(* ================================================================= *)
(** ** [src/unnamed/part_001]: the revision with [isBlockedForGhost] *)

Module Part001.
Section Defs.
Context {K : Constants}.

(** [isBlockedForGhost(currentPos, nextPos, board, state)]. *)
Definition isBlockedForGhost (currentPos nextPos : Position) (board : Board)
    (state : GhostState) : bool :=
  match cellAt board nextPos with
  | None => true
  | Some nextCell =>
      if CellType_eqb nextCell WALL then true
      else
        let currentCell := cellAt board currentPos in
        let isEnteringGhostHome :=
          (CellType_eqb nextCell GHOST_HOME || CellType_eqb nextCell GHOST_HOME_DOOR)
          && negb (cellIs currentCell GHOST_HOME)
          && negb (cellIs currentCell GHOST_HOME_DOOR) in
        if isEnteringGhostHome && negb (GhostState_eqb state eaten) then true
        else false
  end.

(** [safeGhostStep]: the new position and direction, or [null]. *)
Definition safeGhostStep (pos : Position) (dir : Direction) (board : Board)
    (state : GhostState) : option (Position * Direction) :=
  match dir with
  | NONE => None
  | _ =>
      let nxt := getNextPosition pos dir in
      if isBlockedForGhost pos nxt board state then None else Some (nxt, dir)
  end.

(** [tryGhostMoves]: the first candidate that is a legal step. *)
Fixpoint tryGhostMoves (pos : Position) (candidates : list Direction)
    (board : Board) (state : GhostState) : option (Position * Direction) :=
  match candidates with
  | [] => None
  | d :: rest =>
      match safeGhostStep pos d board state with
      | Some step => Some step
      | None => tryGhostMoves pos rest board state
      end
  end.

Definition findNextMoveTo (board : Board) (start : Position) (target : Target)
    (ghostState : GhostState) : option Direction :=
  bfs (fun pos nextPos => isBlockedForGhost pos nextPos board ghostState)
      (fun pos nextPos => isBlockedForGhost pos nextPos board ghostState)
      (isTarget target) start.

Definition findNextMove (board : Board) (start end_ : Position)
    (ghostState : GhostState) : option Direction :=
  findNextMoveTo board start (Cell end_) ghostState.

(** Truthiness of a [Direction | null]: [Direction.UP] is the number 0. *)
Definition truthyDir (d : option Direction) : bool :=
  match d with
  | None | Some UP => false
  | Some _ => true
  end.

Definition applyStep (step : option (Position * Direction)) (ghost : Ghost) : Ghost :=
  match step with
  | Some (pos, dir) => withGhostMove pos dir ghost
  | None => ghost
  end.

(** The function mapped over the ghosts by [moveGhosts]; [r] as in [App]. *)
Definition moveGhost (board : Board) (pacman : Pacman) (ghostMode : GhostMode)
    (geminiTargets : option Json) (currentGhosts : list Ghost) (r : nat)
    (ghost : Ghost) : Ghost :=
  let opposite := oppositeDirection in
  match g_state ghost with
  | eaten =>
      if Position_eqb (g_position ghost) (g_spawn ghost)
      then withGhostDirection UP (withGhostState normal ghost)
      else
        let nextDir := findNextMove board (g_position ghost) (g_spawn ghost) (g_state ghost) in
        let step :=
          match nextDir with
          | Some d =>
              if truthyDir nextDir
              then safeGhostStep (g_position ghost) d board (g_state ghost)
              else tryGhostMoves (g_position ghost)
                     (filter (fun d => negb (Direction_eqb d NONE))
                             [opposite (g_direction ghost); g_direction ghost])
                     board (g_state ghost)
          | None =>
              tryGhostMoves (g_position ghost)
                (filter (fun d => negb (Direction_eqb d NONE))
                        [opposite (g_direction ghost); g_direction ghost])
                board (g_state ghost)
          end in
        applyStep step ghost
  | frightened =>
      let allowedDirs :=
        filter (fun dir =>
                  negb (isBlockedForGhost (g_position ghost)
                          (getNextPosition (g_position ghost) dir) board (g_state ghost)))
               dirs in
      let nonReversingDirs :=
        filter (fun d => negb (Direction_eqb d (opposite (g_direction ghost))))
               allowedDirs in
      let moveCandidates :=
        if (0 <? List.length nonReversingDirs)%nat then nonReversingDirs else allowedDirs in
      let randomDir := nth (r mod List.length moveCandidates) moveCandidates NONE in
      applyStep (safeGhostStep (g_position ghost) randomDir board (g_state ghost)) ghost
  | normal =>
      let target := targetPos pacman ghostMode geminiTargets currentGhosts ghost in
      let bestDir := findNextMoveTo board (g_position ghost) target (g_state ghost) in
      let candidates :=
        filter (fun d => negb (Direction_eqb d (opposite (g_direction ghost)))) dirs in
      let fallback :=
        let moveOrder :=
          g_direction ghost
          :: filter (fun d => negb (Direction_eqb d (g_direction ghost))) candidates in
        applyStep (tryGhostMoves (g_position ghost) moveOrder board (g_state ghost)) ghost in
      match bestDir with
      | Some d =>
          if truthyDir bestDir && existsb (Direction_eqb d) candidates then
            match safeGhostStep (g_position ghost) d board (g_state ghost) with
            | Some (pos, dir) => withGhostMove pos dir ghost
            | None => fallback
            end
          else fallback
      | None => fallback
      end
  end.

(** The updater passed to [setPacman] by [movePacman] in this revision. *)
Definition movePacman (board : Board) (p : Pacman) : Pacman :=
  let currentDirection :=
    if negb (isWall (getNextPosition (p_position p) (p_nextDirection p)) board)
    then p_nextDirection p
    else p_direction p in
  let newPosition := getNextPosition (p_position p) currentDirection in
  if isWall newPosition board
  then mkPacman (p_position p) (p_direction p) (p_nextDirection p)
                (negb (p_isMouthOpen p))
  else mkPacman newPosition currentDirection (p_nextDirection p)
                (negb (p_isMouthOpen p)).

End Defs.
End Part001.

(* ================================================================= *)
(** * Vocabulary of the properties

    Counting functions, the graph searched by [findNextMove], the statements
    of the specification that the code is compared with, and the small
    boards and states on which the definitions are run. *)

(* ----------------------------------------------------------------- *)
(** ** The graph searched by [findNextMove] *)

(** The graph the search explores: from [p] one step in one of the four
    directions, onto a cell the test [blocked] lets through. *)
Section Graph.
Context {K : Constants}.
Variable blocked : Position -> Position -> bool.

(** One legal step. *)
Definition edge (p r : Position) : Prop :=
  exists d, In d dirs /\ r = getNextPosition p d /\ blocked p r = false.

(** [walk n p q]: [q] is reached from [p] in exactly [n] legal steps. *)
Inductive walk : nat -> Position -> Position -> Prop :=
| walk_nil (p : Position) : walk O p p
| walk_cons (n : nat) (p r q : Position) :
    edge p r -> walk n r q -> walk (S n) p q.

(** A walk of [S n] steps from [start] to [p] whose first step goes in
    direction [d]. *)
Definition startsWith (start : Position) (d : Direction) (n : nat) (p : Position)
    : Prop :=
  In d dirs /\ blocked start (getNextPosition start d) = false
  /\ walk n (getNextPosition start d) p.

Section Goal.
Variable isEnd : Position -> bool.
Variable start : Position.

(** The search found [d]: some end cell is reached by a walk that starts in
    direction [d], and no walk from [start] to an end cell is shorter. *)
Definition shortestTo (d : Direction) : Prop :=
  exists n e,
    isEnd e = true /\ startsWith start d n e
    /\ forall k e', isEnd e' = true -> walk k start e' -> (S n <= k)%nat.

(** No end cell is reached from [start]. *)
Definition unreachable : Prop :=
  forall k e, isEnd e = true -> ~ walk k start e.

(** The invariant of the [while] loop.  The queue is [q1 ++ q2]: the entries
    of [q1] are [S m] steps away from [start], those of [q2] one step more. *)
Definition Inv (m : nat) (q1 q2 : list QueueItem) (v : list Position) : Prop :=
  (forall p f, In (p, f) q1 -> startsWith start f m p)
  /\ (forall p f, In (p, f) q2 -> startsWith start f (S m) p)
  /\ (forall k p, (k <= S m)%nat -> walk k start p -> In p v)
  /\ (forall p, In p v ->
        (forall r, edge p r -> In r v) \/ exists f, In (p, f) (q1 ++ q2))
  /\ (forall p f, In (p, f) q2 -> forall k, (k <= S m)%nat -> ~ walk k start p)
  /\ (forall p, In p v -> isEnd p = false).

End Goal.
End Graph.

(** The rank of a direction in the scan order of [findNextMove]. *)
Definition dirIndex (d : Direction) : nat :=
  match d with UP => 0 | DOWN => 1 | LEFT => 2 | RIGHT => 3 | NONE => 4 end.

(** Queue entries compared by the rank of their first step. *)
Definition stepOrder (a b : QueueItem) : Prop :=
  (dirIndex (snd a) <= dirIndex (snd b))%nat.

(** [subseq l l']: [l] is [l'] with some elements left out, in the order of
    [l']. *)
Inductive subseq {A : Type} : list A -> list A -> Prop :=
| subseq_nil : subseq [] []
| subseq_skip (x : A) (l l' : list A) : subseq l l' -> subseq l (x :: l')
| subseq_take (x : A) (l l' : list A) : subseq l l' -> subseq (x :: l) (x :: l').

Section Order.
Context {K : Constants}.
Variable blocked : Position -> Position -> bool.
Variable isEnd : Position -> bool.
Variable start : Position.

(** What the [while] loop keeps about the order of the queue.  [done] holds
    the entries of the current level that are already expanded, [q1] the
    rest of the level and [q2] the entries found for the next level. *)
Definition Ord (m : nat) (done q1 q2 : list QueueItem) (v : list Position) : Prop :=
  StronglySorted stepOrder q1
  /\ StronglySorted stepOrder q2
  /\ (forall a b, In a q2 -> In b q1 -> stepOrder a b)
  /\ (forall p d, startsWith blocked start d m p ->
        (forall k, (k <= m)%nat -> ~ walk blocked k start p) ->
        exists f, In (p, f) (done ++ q1) /\ (dirIndex f <= dirIndex d)%nat)
  /\ (forall u fu, In (u, fu) done -> forall r, edge blocked u r -> In r v)
  /\ (forall u fu, In (u, fu) done -> forall r, edge blocked u r ->
        (forall k, (k <= S m)%nat -> ~ walk blocked k start r) ->
        exists f, In (r, f) q2 /\ (dirIndex f <= dirIndex fu)%nat)
  /\ (forall r, In r v ->
        (forall k, (k <= S m)%nat -> ~ walk blocked k start r) ->
        exists f, In (r, f) q2)
  /\ (forall r, In r v -> exists k, (k <= S (S m))%nat /\ walk blocked k start r).

End Order.

(* ----------------------------------------------------------------- *)
(** ** Counting and reading the board *)

(** A cell of the ghost house: [GHOST_HOME] or [GHOST_HOME_DOOR]. *)
Definition isHomeCell (cell : option CellType) : bool :=
  cellIs cell GHOST_HOME || cellIs cell GHOST_HOME_DOOR.

(** A cell that holds something to eat. *)
Definition isPelletCell (c : CellType) : bool :=
  match c with
  | PELLET | POWER_PELLET => true
  | _ => false
  end.

(** Whether the cell read under the player holds a pellet of either kind. *)
Definition holdsPellet (cell : option CellType) : bool :=
  match cell with
  | Some c => isPelletCell c
  | None => false
  end.

(** Points paid by the cell under the player. *)
Definition pelletPoints (cell : option CellType) : Z :=
  match cell with
  | Some PELLET => 10
  | Some POWER_PELLET => 50
  | _ => 0
  end.

(** Pellets of either kind in one row. *)
Definition countRow (row : list CellType) : Z :=
  Z.of_nat (List.length (filter isPelletCell row)).

(** Number of [PELLET] and [POWER_PELLET] cells left on the board. *)
Definition countPellets (b : Board) : Z :=
  fold_right (fun row acc => countRow row + acc) 0 b.

(** No comma among the characters of a string. *)
Fixpoint commaFree (s : string) : bool :=
  match s with
  | EmptyString => true
  | String c rest => negb (Ascii.eqb c ","%char) && commaFree rest
  end.

(** The integers from 0 up to [n - 1]. *)
Definition zrange (n : Z) : list Z := map Z.of_nat (seq 0 (Z.to_nat n)).

(** The cells of the board. *)
Definition allCells {K : Constants} : list Position :=
  flat_map (fun y => map (fun x => mkPos x y) (zrange BOARD_WIDTH))
           (zrange BOARD_HEIGHT).

(** Cells not yet visited. *)
Definition unvisited {K : Constants} (v : list Position) : nat :=
  List.length (filter (fun c => negb (has v c)) allCells).

(* ----------------------------------------------------------------- *)
(** ** Collisions and runs *)

(** Whether a ghost in normal state stands on the cell [pac]. *)
Definition fatalContact (gs : list Ghost) (pac : Position) : bool :=
  existsb (fun g => Position_eqb (g_position g) pac
                    && GhostState_eqb (g_state g) normal) gs.

(** Number of frightened ghosts on the cell [pac] that come before the first
    ghost in normal state on that cell. *)
Fixpoint caughtBefore (gs : list Ghost) (pac : Position) : Z :=
  match gs with
  | [] => 0
  | g :: rest =>
      if Position_eqb (g_position g) pac then
        match g_state g with
        | frightened => 1 + caughtBefore rest pac
        | normal => 0
        | eaten => caughtBefore rest pac
        end
      else caughtBefore rest pac
  end.




(** Two states that differ at most in the ghosts and the score. *)
Definition sameButGhostsScore (s s' : State) : Prop :=
  board s' = board s /\ pacman s' = pacman s /\ gameState s' = gameState s
  /\ lives s' = lives s /\ eatenPellets s' = eatenPellets s
  /\ frightenedTicks s' = frightenedTicks s /\ ghostMode s' = ghostMode s
  /\ modeTicks s' = modeTicks s /\ scheduleIndex s' = scheduleIndex s
  /\ hiveMindStatus s' = hiveMindStatus s /\ geminiTargets s' = geminiTargets s.

(** A run of ticks, one random source per tick. *)
Definition runTicks {K : Constants} (rnds : list (nat -> nat)) (s : State) : State :=
  fold_left (fun st rnd => App.gameTick rnd st) rnds s.

(* ----------------------------------------------------------------- *)
(** ** The advisory payload *)

(** A response that [callHiveMind] must turn down: the request failed, the
    text did not parse, or the payload has no truthy entry under one of the
    four ghost ids. *)
Definition lacksTarget (r : App.Response) : bool :=
  match r with
  | App.Rejected => true
  | App.Parsed targets =>
      negb (forallb (fun id => match advisoryFor (Some targets) id with
                               | Some _ => true
                               | None => false
                               end)
                    [1; 2; 3; 4])
  end.

(** The specification's notion of a usable entry: an object whose [x] and
    [y] are integers. *)
Definition isIntegerNumber (v : option Json) : bool :=
  match v with
  | Some (JNum q) => Pos.eqb (Qden (Qred q)) 1
  | _ => false
  end.

(** An entry whose [x] and [y] are both integers. *)
Definition hasIntegerCoordinates (v : option Json) : bool :=
  match v with
  | Some entry =>
      isIntegerNumber (propName entry "x") && isIntegerNumber (propName entry "y")
  | None => false
  end.

(* ----------------------------------------------------------------- *)
(** ** Legal steps of the two revisions *)

(** The legal steps of [findNextMove] in [src/App.tsx]: onto any cell that
    is not a wall and, unless the ghost is eaten, not a [GHOST_HOME] cell. *)
Definition legalApp (board : Board) (ghostState : GhostState)
    : Position -> Position -> bool :=
  fun _ nextPos => App.cellBlocked board ghostState nextPos.

(** The legal steps of [findNextMove] in [part_001]. *)
Definition legalPart001 (board : Board) (ghostState : GhostState)
    : Position -> Position -> bool :=
  fun pos nextPos => Part001.isBlockedForGhost pos nextPos board ghostState.

(* ----------------------------------------------------------------- *)
(** ** Runs of the whole component *)

(** What never changes about a ghost. *)
Definition ghostIdentity (g : Ghost) : Z * string * Position * Position :=
  (g_id g, g_color g, g_spawn g, g_scatterTarget g).

(** The mode of the schedule entry with index [i]. *)
Definition modeAt (i : Z) : option GhostMode :=
  if i <? 0 then None
  else option_map fst (nth_error GHOST_MODE_SCHEDULE (Z.to_nat i)).

(** The displacement of one step, before wrap-around. *)
Definition stepDelta (d : Direction) : Z * Z :=
  match d with
  | UP => (0, -1)
  | DOWN => (0, 1)
  | LEFT => (-1, 0)
  | RIGHT => (1, 0)
  | NONE => (0, 0)
  end.

(** Whatever can happen to the component: the interval fires, a key goes
    down, the overlay is clicked, the advisory request settles or its
    validity runs out, the status indicator is written, an effect runs after
    a render, the pause after a lost life ends. *)
Inductive Event :=
| Tick (rnd : nat -> nat)
| KeyDown (key : string)
| OverlayClick
| HiveResponse (r : App.Response)
| AdvisoryTimeout
| StatusChange (st : HiveMindStatus)
| LivesEffect
| PelletsEffect
| Resume.

(** The one-second timer exists only in a render that is paused with a life
    left. *)
Definition resumeIfPaused {K : Constants} (s : State) : State :=
  match gameState s with
  | PAUSED => if lives s >? 0 then App.resumeAfterLifeLost s else s
  | _ => s
  end.

Definition step {K : Constants} (e : Event) (s : State) : State :=
  match e with
  | Tick rnd => App.clockTick rnd s
  | KeyDown key => App.handleKeyDown key s s
  | OverlayClick => App.startGame s s
  | HiveResponse r => App.onHiveMindResponse r s
  | AdvisoryTimeout => App.advisoryTimeout s
  | StatusChange st => setHiveMindStatus st s
  | LivesEffect => App.livesEffect s
  | PelletsEffect => App.pelletsEffect s
  | Resume => resumeIfPaused s
  end.

Definition run {K : Constants} (events : list Event) (s : State) : State :=
  fold_left (fun st e => step e st) events s.

(** The board has lost pellets of the initial board and nothing else. *)
Definition onlyPelletsEaten (initial current : Board) : Prop :=
  forall q : Position,
    cellAt current q = cellAt initial q
    \/ (holdsPellet (cellAt initial q) = true /\ cellAt current q = Some EMPTY).

(** The kinds of change an event makes. *)
Definition sameCore (s s' : State) : Prop :=
  board s' = board s /\ eatenPellets s' = eatenPellets s
  /\ p_position (pacman s') = p_position (pacman s) /\ ghosts s' = ghosts s
  /\ scheduleIndex s' = scheduleIndex s /\ ghostMode s' = ghostMode s
  /\ modeTicks s' = modeTicks s /\ frightenedTicks s' = frightenedTicks s
  /\ score s' = score s /\ lives s' = lives s.

Definition levelReset {K : Constants} (s s' : State) : Prop :=
  board s' = board s /\ eatenPellets s' = eatenPellets s
  /\ p_position (pacman s') = App.INITIAL_PACMAN_POSITION
  /\ ghosts s' = App.INITIAL_GHOSTS
  /\ scheduleIndex s' = scheduleIndex s /\ ghostMode s' = ghostMode s
  /\ modeTicks s' = modeTicks s /\ frightenedTicks s' = frightenedTicks s
  /\ score s' = score s /\ lives s' = lives s.

Definition gameReset {K : Constants} (s' : State) : Prop :=
  board s' = INITIAL_BOARD /\ eatenPellets s' = 0
  /\ p_position (pacman s') = App.INITIAL_PACMAN_POSITION
  /\ ghosts s' = App.INITIAL_GHOSTS
  /\ scheduleIndex s' = 0 /\ ghostMode s' = scatter
  /\ modeTicks s' = jsDiv 7000 GAME_SPEED /\ frightenedTicks s' = 0
  /\ score s' = 0 /\ lives s' = 3.

Definition stepKind {K : Constants} (s s' : State) : Prop :=
  (exists rnd, s' = App.gameTick rnd s)
  \/ sameCore s s' \/ levelReset s s' \/ gameReset s'.

(** The schedule part of a state is sound. *)
Definition scheduleSound (s : State) : Prop :=
  0 <= scheduleIndex s < 8
  /\ modeAt (scheduleIndex s) = Some (ghostMode s)
  /\ (scheduleIndex s = 7 -> modeTicks s = Infinity).

(** The pellet counter and the board agree with the initial board. *)
Definition boardSound {K : Constants} (s : State) : Prop :=
  eatenPellets s = TOTAL_PELLETS - countPellets (board s)
  /\ onlyPelletsEaten INITIAL_BOARD (board s).


(** The counters are within their bounds. *)
Definition countersSound {K : Constants} (s : State) : Prop :=
  0 <= frightenedTicks s <= FRIGHTENED_DURATION
  /\ 0 <= score s
  /\ 0 <= lives s <= 3
  /\ match gameState s with
     | READY | PLAYING => 1 <= lives s
     | _ => True
     end.

(** A direction the first loop of the search accepts from [start]. *)
Definition accepted {K : Constants} (blockedFirst : Position -> Position -> bool)
    (start : Position) (d : Direction) : Prop :=
  In d dirs /\ blockedFirst start (getNextPosition start d) = false.

(* ----------------------------------------------------------------- *)
(** ** Statements of the specification the code is compared with *)



(** The acceptance rule as the specification words it: whatever is stored as
    the override has integer coordinates for all four ids. *)
Definition acceptsOnlyIntegerTargets : Prop :=
  forall (targets : Json) (s : State),
    geminiTargets (App.onHiveMindResponse (App.Parsed targets) s) = Some targets ->
    forallb (fun id => hasIntegerCoordinates (propIdx targets id)) [1; 2; 3; 4] = true.

(** The claim as the specification words it, for every start and goal:
    [findNextMove] returns nothing exactly when no walk of at least one step
    leads from the start to the goal. *)
Definition findNextMoveFindsEveryPath {K : Constants} : Prop :=
  forall (board : Board) (start end_ : Position) (ghostState : GhostState),
    App.findNextMove board start end_ ghostState = None
    <-> (forall k, (1 <= k)%nat -> ~ walk (legalApp board ghostState) k start end_).

(* ----------------------------------------------------------------- *)
(** ** Boards, states and payloads to run the definitions on *)

(** Small boards used to run the definitions on concrete inputs. *)
Definition board3 : Board :=
  [ [EMPTY; EMPTY; EMPTY];
    [EMPTY; PELLET; EMPTY];
    [EMPTY; EMPTY; EMPTY] ].

(** A corridor above a ghost house whose door is at column 1 of row 1. *)
Definition boardDoor : Board :=
  [ [EMPTY; EMPTY; EMPTY];
    [WALL; GHOST_HOME_DOOR; WALL];
    [WALL; GHOST_HOME; WALL] ].

(** An open board with a power pellet in the middle. *)
Definition boardPower : Board :=
  [ [EMPTY; EMPTY; EMPTY];
    [EMPTY; POWER_PELLET; EMPTY];
    [EMPTY; EMPTY; EMPTY] ].

(** Constants of a three by three board. *)
Definition constants3 : Constants :=
  {| BOARD_WIDTH := 3; BOARD_HEIGHT := 3; GAME_SPEED := 200%Q;
     FRIGHTENED_DURATION := 40; INITIAL_BOARD := board3; TOTAL_PELLETS := 1 |}.

(** The player in the middle of the board, heading right, with a turn
    upwards buffered. *)
Definition pacman3 : Pacman := mkPacman (mkPos 1 1) RIGHT UP true.

(** A ghost with identity 1. *)
Definition ghostAt (pos : Position) (dir : Direction) (st : GhostState)
    (goal : Position) : Ghost :=
  mkGhost 1 pos dir st "bg-red-500" (mkPos 1 2) goal.

(** The player on the pellet of [board3], sharing the cell with a ghost in
    normal state. *)
Definition stateFatal : State :=
  mkState board3 (mkPacman (mkPos 1 1) RIGHT RIGHT true)
          [ghostAt (mkPos 1 1) LEFT normal (mkPos 0 0)]
          PLAYING 0 3 0 0 scatter (Fin 35) 0 offline None.



(** One unit left on the frightened countdown, one frightened ghost. *)
Definition stateExpiring : State :=
  mkState board3 (mkPacman (mkPos 0 0) RIGHT RIGHT true)
          [ghostAt (mkPos 2 2) LEFT frightened (mkPos 0 0)]
          PLAYING 0 3 0 1 scatter (Fin 35) 0 offline None.

(** A payload with an entry for every id, none of which has integer
    coordinates. *)
Definition payloadNoIntegers : Json :=
  JObj [ ("1", JObj [("x", JNum (3 # 2)); ("y", JStr "up")]);
         ("2", JBool true);
         ("3", JStr "left");
         ("4", JObj []) ]%string.

(** A payload without an entry for ghost 4. *)
Definition payloadPartial : Json :=
  JObj [ ("1", JObj [("x", JNum 1); ("y", JNum 1)]);
         ("2", JObj [("x", JNum 2); ("y", JNum 1)]);
         ("3", JObj [("x", JNum 3); ("y", JNum 1)]) ]%string.

(** A dead end: from the middle cell only the way back, to the left, is
    open. *)
Definition boardDeadEnd : Board :=
  [ [WALL; WALL; WALL];
    [EMPTY; EMPTY; WALL];
    [WALL; WALL; WALL] ].

(** A lost game. *)
Definition stateGameOver : State :=
  mkState board3 (mkPacman (mkPos 0 0) LEFT UP false)
          [ghostAt (mkPos 2 2) LEFT frightened (mkPos 0 0)]
          GAME_OVER 730 0 1 12 chase (Fin 4) 3 active (Some payloadPartial).

(** The last entry of the schedule is current. *)
Definition stateLastEntry : State :=
  mkState board3 (mkPacman (mkPos 0 0) RIGHT RIGHT true)
          [ghostAt (mkPos 2 2) LEFT normal (mkPos 0 0)]
          PLAYING 0 3 0 0 chase Infinity 7 offline None.

(** A payload whose entry for ghost 1 has no [y]. *)
Definition payloadNoY : Json :=
  JObj [ ("1", JObj [("x", JNum 1)]) ]%string.

(** A pellet on the cell the player is about to enter, and no ghost near. *)
Definition statePelletAhead : State :=
  mkState [ [EMPTY; PELLET; EMPTY];
            [EMPTY; EMPTY; EMPTY];
            [EMPTY; EMPTY; EMPTY] ]
          (mkPacman (mkPos 0 0) RIGHT RIGHT true)
          [ghostAt (mkPos 2 2) LEFT normal (mkPos 0 0)]
          PLAYING 0 3 0 0 scatter (Fin 35) 0 offline None.

(** The player on the power pellet while the countdown is running. *)
Definition statePowerRunning (ticks : Z) : State :=
  mkState boardPower (mkPacman (mkPos 1 1) RIGHT RIGHT true)
          [ghostAt (mkPos 0 0) LEFT normal (mkPos 0 0);
           ghostAt (mkPos 2 2) UP eaten (mkPos 0 0)]
          PLAYING 0 3 0 ticks scatter (Fin 35) 0 offline None.

(* ================================================================= *)
(** * Properties *)

(* ----------------------------------------------------------------- *)
(** ** Wrap-around of [getNextPosition] *)

Section Wrap.
Context {K : Constants}.

Lemma getNextPosition_in_range (pos : Position) (dir : Direction) :
  0 < BOARD_WIDTH -> 0 < BOARD_HEIGHT ->
  0 <= pos_x (getNextPosition pos dir) < BOARD_WIDTH
  /\ 0 <= pos_y (getNextPosition pos dir) < BOARD_HEIGHT.
Proof.
  intros HW HH. unfold getNextPosition.
  destruct dir; cbn [pos_x pos_y];
    repeat match goal with
           | |- context [if ?b then _ else _] =>
               let E := fresh "E" in destruct b eqn:E
           end; lia.
Qed.

(** C9. For every position inside the board and every direction, one step
    followed by one step in the opposite direction leads back to the
    original position, board edges included. *)
Theorem getNextPosition_round_trip (pos : Position) (dir : Direction) :
  0 <= pos_x pos < BOARD_WIDTH ->
  0 <= pos_y pos < BOARD_HEIGHT ->
  getNextPosition (getNextPosition pos dir) (oppositeDirection dir) = pos.
Proof.
  intros Hx Hy. destruct pos as [px py]. cbn [pos_x pos_y] in Hx, Hy.
  unfold getNextPosition.
  destruct dir; cbn [pos_x pos_y oppositeDirection];
    repeat match goal with
           | |- context [if ?b then _ else _] =>
               lazymatch b with
               | context [if _ then _ else _] => fail
               | _ => let E := fresh "E" in destruct b eqn:E
               end
           end; f_equal; lia.
Qed.

End Wrap.

Lemma getNextPosition_round_trip_witness :
  getNextPosition (K := constants3)
    (getNextPosition (K := constants3) (mkPos 2 0) RIGHT) (oppositeDirection RIGHT)
  = mkPos 2 0.
Proof.
  apply (getNextPosition_round_trip (K := constants3) (mkPos 2 0) RIGHT);
    unfold constants3; cbn; lia.
Defined.

(* ----------------------------------------------------------------- *)
(** ** Player motion *)

Section Player.
Context {K : Constants}.

Lemma movePacman_preserves_nextDirection (board : Board) (p : Pacman) :
  p_nextDirection (App.movePacman board p) = p_nextDirection p.
Proof.
  unfold App.movePacman.
  destruct (isWall (getNextPosition (p_position p) (p_nextDirection p)) board);
    cbn [negb]; [ | reflexivity ].
  destruct (isWall (getNextPosition (p_position p) (p_direction p)) board);
    reflexivity.
Qed.

(** C10. [movePacman] keeps the player off the cells [isWall] rejects: from
    a position that is neither wall, ghost home nor ghost-home door, the new
    position is none of these either; and the buffered direction
    [nextDirection] is returned as it was. *)
Theorem movePacman_preserves_walkability (board : Board) (p : Pacman) :
  isWall (p_position p) board = false ->
  isWall (p_position (App.movePacman board p)) board = false
  /\ p_nextDirection (App.movePacman board p) = p_nextDirection p.
Proof.
  intros Hfree. unfold App.movePacman.
  destruct (isWall (getNextPosition (p_position p) (p_nextDirection p)) board) eqn:Enext;
    cbn [negb].
  - destruct (isWall (getNextPosition (p_position p) (p_direction p)) board) eqn:Ecur;
      cbn [p_position p_nextDirection]; auto.
  - cbn [p_position p_nextDirection]. auto.
Qed.

(** The player either stays in place or advances by one step of the
    direction it ends up facing. *)
Lemma movePacman_moves_one_step (board : Board) (p : Pacman) :
  p_position (App.movePacman board p) = p_position p
  \/ p_position (App.movePacman board p)
     = getNextPosition (p_position p) (p_direction (App.movePacman board p)).
Proof.
  unfold App.movePacman.
  destruct (isWall (getNextPosition (p_position p) (p_nextDirection p)) board);
    cbn [negb]; [ | right; reflexivity ].
  destruct (isWall (getNextPosition (p_position p) (p_direction p)) board);
    [ left | right ]; reflexivity.
Qed.

End Player.

Lemma movePacman_preserves_walkability_witness :
  isWall (p_position (App.movePacman (K := constants3) board3 pacman3)) board3 = false
  /\ p_nextDirection (App.movePacman (K := constants3) board3 pacman3)
     = p_nextDirection pacman3.
Proof.
  apply (movePacman_preserves_walkability (K := constants3) board3 pacman3).
  reflexivity.
Defined.

(* ----------------------------------------------------------------- *)
(** ** Ghost traversability *)

Section Traversability.
Context {K : Constants}.

(** X27. [isBlockedForGhost] of [part_001] keeps every ghost that is not
    eaten out of the ghost house: a move from a cell outside the house onto
    [GHOST_HOME] or [GHOST_HOME_DOOR] is blocked. *)
Lemma isBlockedForGhost_guards_home
    (currentPos nextPos : Position) (board : Board) (state : GhostState) :
  state <> eaten ->
  isHomeCell (cellAt board nextPos) = true ->
  isHomeCell (cellAt board currentPos) = false ->
  Part001.isBlockedForGhost currentPos nextPos board state = true.
Proof.
  intros Hst Hto Hfrom. unfold Part001.isBlockedForGhost, isHomeCell in *.
  destruct (cellAt board nextPos) as [nextCell|]; [ | reflexivity ].
  apply orb_false_iff in Hfrom. destruct Hfrom as [H1 H2]. rewrite H1, H2.
  destruct nextCell; cbn in *; try discriminate; destruct state; cbn; congruence.
Qed.

(** An eaten ghost may enter both kinds of house cell. *)
Lemma isBlockedForGhost_eaten_enters_home
    (currentPos nextPos : Position) (board : Board) :
  isHomeCell (cellAt board nextPos) = true ->
  Part001.isBlockedForGhost currentPos nextPos board eaten = false.
Proof.
  intros Hto. unfold Part001.isBlockedForGhost, isHomeCell in *.
  destruct (cellAt board nextPos) as [nextCell|]; [ | discriminate ].
  destruct nextCell; cbn in *; try discriminate;
    rewrite ?andb_false_r; reflexivity.
Qed.

(** The test of [App.tsx] never looks at the cell the ghost comes from, and
    it lets a ghost in any state onto the door. *)
Lemma cellBlocked_ignores_door (board : Board) (state : GhostState)
    (nextPos : Position) :
  cellAt board nextPos = Some GHOST_HOME_DOOR ->
  App.cellBlocked board state nextPos = false.
Proof.
  intros Hdoor. unfold App.cellBlocked. rewrite Hdoor. reflexivity.
Qed.

End Traversability.

(** C2, on [App.tsx]. A ghost in normal state that stands in the corridor,
    outside the house, is let onto the door below it: the cell test of
    [findNextMove] does not block the door, the search returns [DOWN], and
    [moveGhosts] puts the ghost on the door cell. *)
Theorem App_normal_ghost_enters_door :
  let from := mkPos 1 0 in
  let door := mkPos 1 1 in
  let ghost := ghostAt from LEFT normal door in
  let pac := mkPacman (mkPos 0 0) RIGHT RIGHT true in
  isHomeCell (cellAt boardDoor from) = false
  /\ cellAt boardDoor door = Some GHOST_HOME_DOOR
  /\ getNextPosition (K := constants3) from DOWN = door
  /\ App.cellBlocked boardDoor normal door = false
  /\ App.findNextMove (K := constants3) boardDoor from door normal = Some DOWN
  /\ g_position (App.moveGhost (K := constants3) boardDoor pac scatter None [ghost] 0 ghost)
     = door.
Proof.
  cbv zeta. repeat split; vm_compute; reflexivity.
Qed.

(* ----------------------------------------------------------------- *)
(** ** No reversal for ghosts in normal state *)

Section NoReversal.
Context {K : Constants}.

Lemma oppositeDirection_neq (d : Direction) :
  d <> NONE -> oppositeDirection d <> d.
Proof. destruct d; intros H E; try discriminate; congruence. Qed.

Lemma Direction_eqb_eq (a b : Direction) : Direction_eqb a b = true <-> a = b.
Proof. destruct a, b; cbn; split; intros H; congruence. Qed.

Lemma Direction_eqb_refl (a : Direction) : Direction_eqb a a = true.
Proof. destruct a; reflexivity. Qed.

Lemma safeGhostStep_Some (pos : Position) (d : Direction) (board : Board)
    (state : GhostState) (p : Position) (d' : Direction) :
  Part001.safeGhostStep pos d board state = Some (p, d') ->
  d' = d /\ d <> NONE /\ p = getNextPosition pos d
  /\ Part001.isBlockedForGhost pos (getNextPosition pos d) board state = false.
Proof.
  unfold Part001.safeGhostStep. intros H.
  destruct d; try discriminate;
    match type of H with
    | (if ?b then _ else _) = _ => destruct b eqn:E; [ discriminate | ]
    end; inversion H; subst; repeat split; congruence.
Qed.

Lemma tryGhostMoves_Some (pos : Position) (l : list Direction) (board : Board)
    (state : GhostState) (p : Position) (d : Direction) :
  Part001.tryGhostMoves pos l board state = Some (p, d) ->
  In d l /\ Part001.safeGhostStep pos d board state = Some (p, d).
Proof.
  induction l as [|a l IH]; cbn; [ discriminate | ].
  destruct (Part001.safeGhostStep pos a board state) as [[p' d']|] eqn:E.
  - intros H. inversion H; subst.
    pose proof (safeGhostStep_Some _ _ _ _ _ _ E) as (-> & _).
    split; [ left; reflexivity | exact E ].
  - intros H. destruct (IH H) as [Hin Hs]. split; [ right; exact Hin | exact Hs ].
Qed.

Lemma tryGhostMoves_finds (pos : Position) (l : list Direction) (board : Board)
    (state : GhostState) (d : Direction) :
  In d l -> d <> NONE ->
  Part001.isBlockedForGhost pos (getNextPosition pos d) board state = false ->
  Part001.tryGhostMoves pos l board state <> None.
Proof.
  intros Hin Hd Hfree. induction l as [|a l IH]; [ contradiction | ].
  cbn. destruct (Part001.safeGhostStep pos a board state) eqn:E; [ discriminate | ].
  destruct Hin as [-> | Hin]; [ | exact (IH Hin) ].
  unfold Part001.safeGhostStep in E. rewrite Hfree in E.
  destruct d; try discriminate. congruence.
Qed.

(** X26. In [part_001] a ghost in normal state never turns back while some
    other legal move exists: the direction it holds after [moveGhosts] is not the
    opposite of the direction it held before. *)
Lemma Part001_normal_ghost_never_reverses
    (board : Board) (pacman : Pacman) (ghostMode : GhostMode)
    (geminiTargets : option Json) (currentGhosts : list Ghost) (r : nat)
    (ghost : Ghost) (d : Direction) :
  g_state ghost = normal ->
  In d dirs ->
  d <> oppositeDirection (g_direction ghost) ->
  Part001.isBlockedForGhost (g_position ghost)
    (getNextPosition (g_position ghost) d) board normal = false ->
  g_direction (Part001.moveGhost board pacman ghostMode geminiTargets
                 currentGhosts r ghost)
  <> oppositeDirection (g_direction ghost).
Proof.
  intros Hst Hd Hnr Hfree.
  assert (HdN : d <> NONE) by (intros ->; cbn in Hd; intuition discriminate).
  set (cands := filter (fun e => negb (Direction_eqb e (oppositeDirection (g_direction ghost)))) dirs).
  set (order := g_direction ghost
                :: filter (fun e => negb (Direction_eqb e (g_direction ghost))) cands).
  assert (Hcand : forall e, In e cands -> e <> oppositeDirection (g_direction ghost)).
  { intros e He. apply filter_In in He. destruct He as [_ He].
    intros ->. rewrite Direction_eqb_refl in He. discriminate. }
  assert (Hfallback :
    g_direction (Part001.applyStep
                   (Part001.tryGhostMoves (g_position ghost) order board normal) ghost)
    <> oppositeDirection (g_direction ghost)).
  { destruct (Part001.tryGhostMoves (g_position ghost) order board normal)
      as [[p e]|] eqn:Etry.
    - apply tryGhostMoves_Some in Etry. destruct Etry as [Hin Hs].
      apply safeGhostStep_Some in Hs. destruct Hs as (_ & HeN & _).
      cbn. destruct Hin as [<- | Hin].
      + intros E. symmetry in E. exact (oppositeDirection_neq _ HeN E).
      + apply filter_In in Hin. destruct Hin as [Hin _]. exact (Hcand _ Hin).
    - exfalso. revert Etry. apply (tryGhostMoves_finds _ _ _ _ d); auto.
      destruct (Direction_eqb d (g_direction ghost)) eqn:Eq.
      + apply Direction_eqb_eq in Eq. left. congruence.
      + right. apply filter_In. split.
        * apply filter_In. split; [ exact Hd | ].
          destruct (Direction_eqb d (oppositeDirection (g_direction ghost))) eqn:Eo;
            [ apply Direction_eqb_eq in Eo; contradiction | reflexivity ].
        * rewrite Eq. reflexivity. }
  unfold Part001.moveGhost. rewrite Hst. fold cands. fold order.
  destruct (Part001.findNextMoveTo board (g_position ghost)
              (targetPos pacman ghostMode geminiTargets currentGhosts ghost) normal)
    as [best|]; [ | exact Hfallback ].
  destruct (Part001.truthyDir (Some best) && existsb (Direction_eqb best) cands) eqn:Ebest;
    [ | exact Hfallback ].
  destruct (Part001.safeGhostStep (g_position ghost) best board normal)
    as [[p e]|] eqn:Estep; [ | exact Hfallback ].
  apply safeGhostStep_Some in Estep. destruct Estep as (-> & _).
  cbn. apply andb_true_iff in Ebest. destruct Ebest as [_ Hex].
  apply existsb_exists in Hex. destruct Hex as (e & He & Heq).
  apply Direction_eqb_eq in Heq. subst e. exact (Hcand _ He).
Qed.

End NoReversal.

(** C1, on [App.tsx]. A ghost in normal state heading [RIGHT] in the middle
    of an open board, whose scatter target is the cell to its left, turns
    back: [moveGhosts] takes the direction returned by the search as it is,
    although the moves [UP], [DOWN] and [RIGHT] are all legal. *)
Theorem App_normal_ghost_reverses :
  let ghost := ghostAt (mkPos 1 1) RIGHT normal (mkPos 0 1) in
  let pac := mkPacman (mkPos 2 2) RIGHT RIGHT true in
  let moved := App.moveGhost (K := constants3) board3 pac scatter None [ghost] 0 ghost in
  g_state ghost = normal
  /\ App.cellBlocked board3 normal (getNextPosition (K := constants3) (mkPos 1 1) UP) = false
  /\ App.cellBlocked board3 normal (getNextPosition (K := constants3) (mkPos 1 1) RIGHT) = false
  /\ g_direction moved = LEFT
  /\ g_direction moved = oppositeDirection (g_direction ghost).
Proof.
  cbv zeta. repeat split; vm_compute; reflexivity.
Qed.

(* ----------------------------------------------------------------- *)
(** ** Collision resolution ([handleCollisions]) *)

(** Projections of the setters. *)
Ltac state_simpl :=
  unfold setBoard, setPacman, setGhosts, setGameState, setScore, setLives,
         setEatenPellets, setFrightenedTicks, setGhostMode, setModeTicks,
         setScheduleIndex, setHiveMindStatus, setGeminiTargets in *;
  cbn [board pacman ghosts gameState score lives eatenPellets frightenedTicks
       ghostMode modeTicks scheduleIndex hiveMindStatus geminiTargets] in *.

Section Collisions.
Context {K : Constants}.

Lemma sameButGhostsScore_refl (s : State) : sameButGhostsScore s s.
Proof. unfold sameButGhostsScore. repeat split. Qed.

Lemma contactLoop_spec (gs : list Ghost) (pac : Position) (cur : State) :
  fst (App.contactLoop gs pac cur) = fatalContact gs pac
  /\ sameButGhostsScore cur (snd (App.contactLoop gs pac cur))
  /\ score (snd (App.contactLoop gs pac cur)) = score cur + 200 * caughtBefore gs pac.
Proof.
  revert cur. induction gs as [|g gs IH]; intros cur.
  - cbn. repeat split. lia.
  - cbn [App.contactLoop fatalContact existsb caughtBefore].
    fold (fatalContact gs pac).
    destruct (Position_eqb (g_position g) pac); cbn [andb orb].
    + destruct (g_state g); cbn [GhostState_eqb orb fst snd].
      * repeat split. lia.
      * destruct (IH (setGhosts (map (App.markEaten (g_id g)))
                                (setScore (fun s => s + 200) cur)))
          as (Hf & Hs & Hsc).
        split; [ exact Hf | ]. split.
        -- unfold sameButGhostsScore in *. cbn in Hs. exact Hs.
        -- rewrite Hsc. unfold setGhosts, setScore. cbn [score]. lia.
      * exact (IH cur).
    + exact (IH cur).
Qed.

Lemma cellIs_pellet_cases (cell : option CellType) :
  cellIs cell PELLET || cellIs cell POWER_PELLET = holdsPellet cell.
Proof. destruct cell as [[]|]; reflexivity. Qed.

(** The two outcomes of [handleCollisions], by whether a ghost in normal
    state stands on the player's cell. *)
Lemma handleCollisions_cases (env cur : State) :
  let pos := p_position (pacman env) in
  let cell := cellAt (board env) pos in
  let caught := caughtBefore (ghosts env) pos in
  let s' := App.handleCollisions env cur in
  if fatalContact (ghosts env) pos
  then lives s' = lives cur - 1
       /\ gameState s' = PAUSED
       /\ board s' = board cur
       /\ eatenPellets s' = eatenPellets cur
       /\ frightenedTicks s' = frightenedTicks cur
       /\ score s' = score cur + 200 * caught
  else lives s' = lives cur
       /\ gameState s' = gameState cur
       /\ score s' = score cur + 200 * caught + pelletPoints cell
       /\ eatenPellets s' = eatenPellets cur + (if holdsPellet cell then 1 else 0)
       /\ board s' = (if holdsPellet cell then setCell (board env) pos EMPTY
                      else board cur).
Proof.
  cbv zeta. unfold App.handleCollisions.
  destruct (contactLoop_spec (ghosts env) (p_position (pacman env)) cur)
    as (Hf & Hs & Hsc).
  destruct (App.contactLoop (ghosts env) (p_position (pacman env)) cur) as [died c1].
  cbn [fst snd] in *. rewrite <- Hf.
  destruct Hs as (Hb & Hp & Hg & Hl & He & Hft & _).
  destruct died.
  - state_simpl. repeat split; try congruence; lia.
  - unfold App.pelletCheck. rewrite cellIs_pellet_cases.
    destruct (cellAt (board env) (p_position (pacman env))) as [[]|];
      cbn [holdsPellet isPelletCell pelletPoints cellIs CellType_eqb];
      state_simpl; repeat split; try congruence; lia.
Qed.

End Collisions.


Section PowerPellet.
Context {K : Constants}.


Lemma oppositeOnFright_reverses (d : Direction) :
  d <> NONE -> App.oppositeOnFright d = oppositeDirection d.
Proof. destruct d; intros H; try reflexivity; congruence. Qed.

End PowerPellet.


(* ----------------------------------------------------------------- *)
(** ** One tick: timers *)

Section Timers.
Context {K : Constants}.

Lemma handleCollisions_keeps_schedule (env cur : State) :
  modeTicks (App.handleCollisions env cur) = modeTicks cur
  /\ scheduleIndex (App.handleCollisions env cur) = scheduleIndex cur
  /\ ghostMode (App.handleCollisions env cur) = ghostMode cur
  /\ geminiTargets (App.handleCollisions env cur) = geminiTargets cur.
Proof.
  unfold App.handleCollisions.
  destruct (contactLoop_spec (ghosts env) (p_position (pacman env)) cur)
    as (_ & Hs & _).
  destruct (App.contactLoop (ghosts env) (p_position (pacman env)) cur) as [died c1].
  cbn [snd] in Hs. destruct Hs as (_ & _ & _ & _ & _ & _ & Hm & Ht & Hi & _ & Hg).
  destruct died.
  - state_simpl. repeat split; congruence.
  - unfold App.pelletCheck.
    destruct (cellIs _ PELLET || cellIs _ POWER_PELLET); [ | repeat split; congruence ].
    destruct (cellIs _ PELLET); state_simpl; repeat split; congruence.
Qed.

Lemma unfrighten_spec (g : Ghost) :
  match g_state g with
  | frightened => App.unfrighten g = withGhostState normal g
  | _ => App.unfrighten g = g
  end.
Proof. unfold App.unfrighten. destruct (g_state g); reflexivity. Qed.

Lemma unfrighten_not_frightened (g : Ghost) :
  g_state (App.unfrighten g) <> frightened.
Proof.
  unfold App.unfrighten. destruct (g_state g) eqn:E; cbn; congruence.
Qed.

(** C6. While the frightened countdown is positive, a tick leaves the
    scatter/chase countdown, the schedule index and the mode as they were and
    only takes one off the frightened countdown; on the tick that takes the
    countdown from 1 to 0, every ghost that is frightened once motion and
    collisions are resolved becomes normal, the others stay as they are, and
    no ghost is frightened afterwards. *)
Theorem frightened_pauses_mode_schedule (rnd : nat -> nat) (s : State) :
  let resolved :=
    App.handleCollisions s (App.moveGhosts rnd s (App.movePacmanCb s s)) in
  let s' := App.gameTick rnd s in
  0 < frightenedTicks s ->
  modeTicks s' = modeTicks s
  /\ scheduleIndex s' = scheduleIndex s
  /\ ghostMode s' = ghostMode s
  /\ frightenedTicks s' = frightenedTicks s - 1
  /\ (frightenedTicks s = 1 ->
      Forall2 (fun g g' =>
                 match g_state g with
                 | frightened => g' = withGhostState normal g
                 | _ => g' = g
                 end)
              (ghosts resolved) (ghosts s')
      /\ Forall (fun g' => g_state g' <> frightened) (ghosts s')).
Proof.
  cbv zeta. intros Hpos.
  unfold App.gameTick, App.gameTickFrom.
  set (resolved := App.handleCollisions s (App.moveGhosts rnd s (App.movePacmanCb s s))).
  assert (Hkeep : modeTicks resolved = modeTicks s
                  /\ scheduleIndex resolved = scheduleIndex s
                  /\ ghostMode resolved = ghostMode s).
  { destruct (handleCollisions_keeps_schedule s
                (App.moveGhosts rnd s (App.movePacmanCb s s))) as (H1 & H2 & H3 & _).
    fold resolved in H1, H2, H3.
    unfold App.moveGhosts, App.movePacmanCb in H1, H2, H3. state_simpl. auto. }
  destruct Hkeep as (H1 & H2 & H3).
  unfold App.advanceTimers.
  replace (frightenedTicks s >? 0) with true by (symmetry; apply Z.gtb_lt; lia).
  destruct (frightenedTicks s - 1 =? 0) eqn:Ez.
  - state_simpl. repeat split; auto.
    + clear. induction (ghosts resolved) as [|g gs IH]; cbn [map]; constructor; auto.
      pose proof (unfrighten_spec g) as Hg. destruct (g_state g); auto.
    + clear. induction (ghosts resolved) as [|g gs IH]; cbn [map]; constructor; auto.
      apply unfrighten_not_frightened.
  - state_simpl. repeat split; auto; apply Z.eqb_neq in Ez; lia.
Qed.

End Timers.

Lemma frightened_pauses_mode_schedule_witness :
  let s' := App.gameTick (K := constants3) (fun _ => O) stateExpiring in
  modeTicks s' = Fin 35
  /\ scheduleIndex s' = 0
  /\ ghostMode s' = scatter
  /\ frightenedTicks s' = 0
  /\ map g_state (ghosts s') = [normal].
Proof.
  pose proof (frightened_pauses_mode_schedule (K := constants3) (fun _ => O)
                stateExpiring) as H.
  cbv zeta in H. destruct (H eq_refl) as (H1 & H2 & H3 & H4 & _).
  exact (conj H1 (conj H2 (conj H3 (conj H4 eq_refl)))).
Defined.

(* ----------------------------------------------------------------- *)
(** ** One tick: pellets and the board *)

Section Pellets.
Context {K : Constants}.

Lemma nth_error_setNth_eq {A : Type} (n : nat) (v : A) (l : list A) :
  (n < List.length l)%nat -> nth_error (setNth n v l) n = Some v.
Proof.
  revert n. induction l as [|a l IH]; intros [|n] H; cbn in *; try lia; auto;
    apply IH; lia.
Qed.

Lemma nth_error_setNth_neq {A : Type} (n m : nat) (v : A) (l : list A) :
  m <> n -> nth_error (setNth n v l) m = nth_error l m.
Proof.
  revert n m. induction l as [|a l IH]; intros [|n] [|m] H; cbn; auto;
    try congruence; apply IH; congruence.
Qed.

Lemma countRow_setNth (n : nat) (c : CellType) (row : list CellType) :
  nth_error row n = Some c -> isPelletCell c = true ->
  countRow (setNth n EMPTY row) = countRow row - 1.
Proof.
  unfold countRow. revert n. induction row as [|a row IH]; intros [|n] H Hc;
    cbn in H; try discriminate.
  - inversion H; subst. cbn [setNth filter isPelletCell]. rewrite Hc.
    cbn [List.length]. lia.
  - cbn [setNth filter]. specialize (IH n H Hc).
    destruct (isPelletCell a); cbn [List.length]; lia.
Qed.

Lemma countPellets_setNth (m : nat) (row row' : list CellType) (b : Board) :
  nth_error b m = Some row ->
  countPellets (setNth m row' b) = countPellets b - countRow row + countRow row'.
Proof.
  revert m. induction b as [|r b IH]; intros [|m] H; cbn in H; try discriminate.
  - inversion H; subst. cbn. lia.
  - cbn [setNth countPellets fold_right]. fold (countPellets b).
    fold (countPellets (setNth m row' b)). rewrite (IH m H). lia.
Qed.

Lemma countPellets_setCell (b : Board) (pos : Position) :
  holdsPellet (cellAt b pos) = true ->
  countPellets (setCell b pos EMPTY) = countPellets b - 1.
Proof.
  unfold holdsPellet, cellAt, setCell.
  destruct ((pos_y pos <? 0) || (pos_x pos <? 0)); [ discriminate | ].
  destruct (nth_error b (Z.to_nat (pos_y pos))) as [row|] eqn:Erow; [ | discriminate ].
  destruct (nth_error row (Z.to_nat (pos_x pos))) as [c|] eqn:Ec; [ | discriminate ].
  intros Hc.
  assert (Hlt : (Z.to_nat (pos_x pos) < List.length row)%nat)
    by (apply nth_error_Some; congruence).
  apply Nat.ltb_lt in Hlt. rewrite Hlt.
  rewrite (countPellets_setNth _ row _ _ Erow).
  rewrite (countRow_setNth _ c _ Ec Hc). lia.
Qed.

Lemma cellAt_setCell_same (b : Board) (pos : Position) (c : CellType) :
  cellAt b pos <> None -> cellAt (setCell b pos c) pos = Some c.
Proof.
  unfold cellAt, setCell.
  destruct ((pos_y pos <? 0) || (pos_x pos <? 0)) eqn:Eneg; [ congruence | ].
  destruct (nth_error b (Z.to_nat (pos_y pos))) as [row|] eqn:Erow; [ | congruence ].
  intros Hc. apply nth_error_Some in Hc. pose proof Hc as Hlt.
  apply Nat.ltb_lt in Hlt. rewrite Hlt.
  rewrite nth_error_setNth_eq by (apply nth_error_Some; congruence).
  apply nth_error_setNth_eq. exact Hc.
Qed.

Lemma cellAt_setCell_other (b : Board) (pos q : Position) (c : CellType) :
  q <> pos -> cellAt (setCell b pos c) q = cellAt b q.
Proof.
  intros Hne. unfold cellAt, setCell.
  destruct ((pos_y pos <? 0) || (pos_x pos <? 0)) eqn:Eneg; [ reflexivity | ].
  destruct (nth_error b (Z.to_nat (pos_y pos))) as [row|] eqn:Erow; [ | reflexivity ].
  destruct (Z.to_nat (pos_x pos) <? List.length row)%nat eqn:Elt; [ | reflexivity ].
  destruct ((pos_y q <? 0) || (pos_x q <? 0)) eqn:Enq; [ reflexivity | ].
  apply orb_false_iff in Eneg, Enq. destruct Eneg as [Ey Ex], Enq as [Eqy Eqx].
  apply Z.ltb_ge in Ey, Ex, Eqy, Eqx.
  destruct (Nat.eq_dec (Z.to_nat (pos_y q)) (Z.to_nat (pos_y pos))) as [Hy|Hy].
  - rewrite Hy. rewrite nth_error_setNth_eq by (apply nth_error_Some; congruence).
    rewrite Erow. apply nth_error_setNth_neq.
    intros Hx. apply Hne. destruct q, pos; cbn in *. f_equal; lia.
  - rewrite nth_error_setNth_neq by exact Hy. reflexivity.
Qed.

Lemma advanceTimers_keeps_board (env cur : State) :
  board (App.advanceTimers env cur) = board cur
  /\ eatenPellets (App.advanceTimers env cur) = eatenPellets cur.
Proof.
  unfold App.advanceTimers.
  repeat match goal with
         | |- context [if ?b then _ else _] => destruct b
         | |- context [match ?o with Some _ => _ | None => _ end] => destruct o
         | |- context [let '(_, _) := ?p in _] => destruct p
         end; state_simpl; auto.
Qed.

(** What one tick does to the pellet counter and to the board. *)
Lemma tick_pellet_step (rnd : nat -> nat) (s : State) :
  let pos := p_position (pacman s) in
  let s' := App.gameTick rnd s in
  eatenPellets s <= eatenPellets s'
  /\ eatenPellets s' + countPellets (board s')
     = eatenPellets s + countPellets (board s)
  /\ (eatenPellets s = TOTAL_PELLETS - countPellets (board s) ->
      eatenPellets s' = TOTAL_PELLETS - countPellets (board s'))
  /\ (forall q : Position,
        cellAt (board s') q = cellAt (board s) q
        \/ (q = pos /\ holdsPellet (cellAt (board s) q) = true
            /\ cellAt (board s') q = Some EMPTY)).
Proof.
  cbv zeta. unfold App.gameTick, App.gameTickFrom.
  set (moved := App.moveGhosts rnd s (App.movePacmanCb s s)).
  destruct (advanceTimers_keeps_board s (App.handleCollisions s moved)) as [Hb He].
  rewrite Hb, He. clear Hb He.
  assert (Hmb : board moved = board s) by reflexivity.
  assert (Hme : eatenPellets moved = eatenPellets s) by reflexivity.
  pose proof (handleCollisions_cases s moved) as H.
  cbv zeta in H.
  destruct (fatalContact (ghosts s) (p_position (pacman s))).
  - destruct H as (_ & _ & Hb & He & _). rewrite Hb, He, Hmb, Hme.
    repeat split; auto; lia.
  - destruct H as (_ & _ & _ & He & Hb). rewrite Hb, He, Hmb, Hme.
    destruct (holdsPellet (cellAt (board s) (p_position (pacman s)))) eqn:Ep.
    + rewrite (countPellets_setCell _ _ Ep).
      repeat split; try lia.
      intros q. destruct (Position_eqb q (p_position (pacman s))) eqn:Eq.
      * assert (q = p_position (pacman s)) as ->.
        { unfold Position_eqb in Eq. apply andb_true_iff in Eq.
          destruct Eq as [Ex Ey]. apply Z.eqb_eq in Ex, Ey.
          destruct q, (p_position (pacman s)); cbn in *; congruence. }
        right. repeat split; auto. apply cellAt_setCell_same.
        destruct (cellAt (board s) (p_position (pacman s))); cbn in Ep; congruence.
      * left. apply cellAt_setCell_other. intros ->.
        unfold Position_eqb in Eq. rewrite !Z.eqb_refl in Eq. discriminate.
    + repeat split; auto; lia.
Qed.

(** C8. Across a tick the pellet counter never decreases and the sum of the
    counter and of the pellets left on the board is conserved, so the
    counter stays equal to the total minus the pellets left once it is; the
    board changes at most at the cell the player stands on, which then held
    a pellet or a power pellet and becomes [EMPTY]. *)
Theorem tick_pellet_accounting (rnd : nat -> nat) (s : State) :
  let pos := p_position (pacman s) in
  let s' := App.gameTick rnd s in
  eatenPellets s <= eatenPellets s'
  /\ eatenPellets s' + countPellets (board s')
     = eatenPellets s + countPellets (board s)
  /\ (eatenPellets s = TOTAL_PELLETS - countPellets (board s) ->
      eatenPellets s' = TOTAL_PELLETS - countPellets (board s'))
  /\ (forall q : Position,
        cellAt (board s') q = cellAt (board s) q
        \/ (q = pos /\ holdsPellet (cellAt (board s) q) = true
            /\ cellAt (board s') q = Some EMPTY)).
Proof. exact (tick_pellet_step rnd s). Qed.

(** Over any run of ticks the counter equals the total minus the pellets
    left, provided it did at the start. *)
Lemma run_pellet_invariant (rnds : list (nat -> nat)) (s : State) :
  eatenPellets s = TOTAL_PELLETS - countPellets (board s) ->
  eatenPellets s <= eatenPellets (runTicks rnds s)
  /\ eatenPellets (runTicks rnds s)
     = TOTAL_PELLETS - countPellets (board (runTicks rnds s)).
Proof.
  revert s. induction rnds as [|rnd rnds IH]; intros s Hinv; cbn.
  - split; [ lia | exact Hinv ].
  - destruct (tick_pellet_step rnd s) as (Hle & _ & Hstep & _).
    destruct (IH _ (Hstep Hinv)) as [Hle' Hinv'].
    split; [ unfold runTicks in *; lia | exact Hinv' ].
Qed.

End Pellets.

(** The player on the pellet of [board3] with the ghost elsewhere: the tick
    eats the pellet, and nothing else on the board changes. *)
Example tick_eats_the_pellet :
  let s := mkState board3 (mkPacman (mkPos 1 1) RIGHT RIGHT true)
                   [ghostAt (mkPos 0 2) LEFT normal (mkPos 0 0)]
                   PLAYING 0 3 0 0 scatter (Fin 35) 0 offline None in
  let s' := App.gameTick (K := constants3) (fun _ => O) s in
  eatenPellets s' = 1
  /\ score s' = 10
  /\ countPellets (board s') = 0
  /\ board s' = [ [EMPTY; EMPTY; EMPTY]; [EMPTY; EMPTY; EMPTY]; [EMPTY; EMPTY; EMPTY] ]
  /\ gameState (App.pelletsEffect (K := constants3) s') = LEVEL_WON.
Proof. cbv zeta. repeat split; vm_compute; reflexivity. Qed.

(* ----------------------------------------------------------------- *)
(** ** The advisory payload *)

Section Advisory.

Lemma hasAllTargets_advisoryFor (targets : Json) :
  App.hasAllTargets targets = negb (lacksTarget (App.Parsed targets)).
Proof.
  unfold App.hasAllTargets, lacksTarget, advisoryFor. rewrite negb_involutive.
  cbn [forallb]. destruct (truthy targets); cbn [andb]; [ | reflexivity ].
  rewrite andb_true_r.
  destruct (propIdx targets 1) as [v1|]; [ destruct (truthy v1) | ]; cbn [andb]; auto.
  destruct (propIdx targets 2) as [v2|]; [ destruct (truthy v2) | ]; cbn [andb]; auto.
  destruct (propIdx targets 3) as [v3|]; [ destruct (truthy v3) | ]; cbn [andb]; auto.
  destruct (propIdx targets 4) as [v4|]; [ destruct (truthy v4) | ]; cbn [andb]; auto.
Qed.

(** C7 (amended). A response is taken as the override exactly when the parsed
    payload has a truthy entry under each of the ids 1 to 4.  Any other
    response is turned down: the stored targets stay what they were, so the
    destination chosen for every ghost is the one it would have been without
    that response, which is the chase or scatter target of the game when no
    targets were stored.  Nothing but the status indicator changes. *)
Theorem advisory_response_handling (r : App.Response) (s : State) :
  let s' := App.onHiveMindResponse r s in
  if lacksTarget r
  then geminiTargets s' = geminiTargets s
       /\ s' = setHiveMindStatus failed s
       /\ (forall pac mode gs g,
             targetPos pac mode (geminiTargets s') gs g
             = targetPos pac mode (geminiTargets s) gs g)
       /\ (geminiTargets s = None ->
           forall pac mode gs g,
             targetPos pac mode (geminiTargets s') gs g
             = match mode with
               | chase => Cell (getChaseTarget g pac gs)
               | scatter => Cell (g_scatterTarget g)
               end)
  else exists targets,
         r = App.Parsed targets
         /\ geminiTargets s' = Some targets
         /\ hiveMindStatus s' = active
         /\ (forall id, In id [1; 2; 3; 4] -> advisoryFor (Some targets) id <> None).
Proof.
  cbv zeta. destruct r as [|targets].
  - cbn. repeat split. intros Hnone pac mode gs g. rewrite Hnone.
    destruct mode; reflexivity.
  - unfold App.onHiveMindResponse. rewrite hasAllTargets_advisoryFor.
    destruct (lacksTarget (App.Parsed targets)) eqn:El; cbn [negb].
    + state_simpl. repeat split. intros Hnone pac mode gs g. rewrite Hnone.
      destruct mode; reflexivity.
    + exists targets. state_simpl. repeat split.
      intros id Hid. cbn [lacksTarget] in El. apply negb_false_iff in El.
      rewrite forallb_forall in El. specialize (El id Hid).
      destruct (advisoryFor (Some targets) id); congruence.
Qed.

End Advisory.

(** C7, counterexample. The presence test of [callHiveMind] does not look at
    coordinates: a payload whose four entries hold no integer coordinates is
    stored as the override. *)
Lemma advisory_without_integers_is_accepted : ~ acceptsOnlyIntegerTargets.
Proof.
  intros H. specialize (H payloadNoIntegers stateFatal eq_refl).
  vm_compute in H. discriminate.
Qed.

(** A payload that lacks one of the four ids is turned down. *)
Example partial_payload_is_rejected :
  lacksTarget (App.Parsed payloadPartial) = true
  /\ geminiTargets (App.onHiveMindResponse (App.Parsed payloadPartial) stateFatal) = None.
Proof. split; vm_compute; reflexivity. Qed.

(* ----------------------------------------------------------------- *)
(** ** Correctness of the breadth-first search *)

Lemma Position_eqb_eq (p q : Position) : Position_eqb p q = true <-> p = q.
Proof.
  unfold Position_eqb. rewrite andb_true_iff, !Z.eqb_eq.
  destruct p, q; cbn; split; [ intros [-> ->]; reflexivity | intros H; inversion H; auto ].
Qed.

(** The keys of the visited set. *)
Section Keys.

Lemma string_of_uint_commaFree (d : Decimal.uint) :
  commaFree (NilEmpty.string_of_uint d) = true.
Proof. induction d; cbn; auto. Qed.

Lemma string_of_Z_commaFree (z : Z) : commaFree (string_of_Z z) = true.
Proof.
  unfold string_of_Z, NilZero.string_of_int, NilZero.string_of_uint.
  destruct (Z.to_int z) as [d | d]; destruct d; cbn;
    try reflexivity; apply string_of_uint_commaFree.
Qed.

Lemma to_int_not_nil (z : Z) :
  Z.to_int z <> Decimal.Pos Decimal.Nil /\ Z.to_int z <> Decimal.Neg Decimal.Nil.
Proof.
  destruct z as [|p|p]; cbn; split; try discriminate;
    intros H; inversion H as [Hp];
    exact (DecimalPos.Unsigned.to_uint_nonnil p Hp).
Qed.

Lemma string_of_Z_inj (a b : Z) : string_of_Z a = string_of_Z b -> a = b.
Proof.
  unfold string_of_Z. intros H.
  destruct (to_int_not_nil a) as [Ha1 Ha2], (to_int_not_nil b) as [Hb1 Hb2].
  pose proof (NilZero.isi _ Ha1 Ha2) as Ea.
  pose proof (NilZero.isi _ Hb1 Hb2) as Eb.
  rewrite H in Ea. rewrite Ea in Eb. inversion Eb as [E].
  exact (DecimalZ.to_int_inj _ _ E).
Qed.

Lemma comma_split (s1 s2 t1 t2 : string) :
  commaFree s1 = true -> commaFree s2 = true ->
  (s1 ++ "," ++ t1 = s2 ++ "," ++ t2)%string ->
  s1 = s2 /\ t1 = t2.
Proof.
  revert s2. induction s1 as [|c s1 IH]; intros [|c' s2] H1 H2 E; cbn in *.
  - inversion E. auto.
  - inversion E; subst. cbn in H2. discriminate.
  - inversion E; subst. cbn in H1. discriminate.
  - inversion E; subst. apply andb_true_iff in H1, H2.
    destruct (IH s2 (proj2 H1) (proj2 H2) H3) as [-> ->]. auto.
Qed.

(** The key ["x,y"] of a position determines the position: a set of keys is
    a set of positions. *)
Lemma stringify_injective (p q : Position) : stringify p = stringify q -> p = q.
Proof.
  unfold stringify. intros E.
  apply comma_split in E; try apply string_of_Z_commaFree.
  destruct E as [Ex Ey]. apply string_of_Z_inj in Ex, Ey.
  destruct p, q; cbn in *; congruence.
Qed.

(** The end test of the search, on keys, is equality of positions. *)
Lemma stringify_eqb (p q : Position) :
  String.eqb (stringify p) (stringify q) = Position_eqb p q.
Proof.
  destruct (Position_eqb p q) eqn:E.
  - apply Position_eqb_eq in E. subst. apply String.eqb_refl.
  - apply String.eqb_neq. intros H. apply stringify_injective in H. subst.
    assert (Position_eqb q q = true) by (apply Position_eqb_eq; reflexivity).
    congruence.
Qed.

End Keys.

Lemma has_In (v : list Position) (p : Position) : has v p = true <-> In p v.
Proof.
  unfold has. rewrite existsb_exists. split.
  - intros (q & Hq & E). apply Position_eqb_eq in E. subst. exact Hq.
  - intros H. exists p. split; [ exact H | apply Position_eqb_eq; reflexivity ].
Qed.

Lemma has_false (v : list Position) (p : Position) : has v p = false <-> ~ In p v.
Proof.
  rewrite <- has_In. destruct (has v p); split; congruence.
Qed.

Lemma zrange_In (n z : Z) : In z (zrange n) <-> 0 <= z < n.
Proof.
  unfold zrange. rewrite in_map_iff. split.
  - intros (k & <- & Hk). apply in_seq in Hk. lia.
  - intros H. exists (Z.to_nat z). split; [ lia | apply in_seq; lia ].
Qed.

Lemma zrange_length (n : Z) : List.length (zrange n) = Z.to_nat n.
Proof. unfold zrange. rewrite length_map, length_seq. reflexivity. Qed.

Section Cells.
Context {K : Constants}.

Lemma allCells_In (p : Position) :
  In p allCells <-> 0 <= pos_x p < BOARD_WIDTH /\ 0 <= pos_y p < BOARD_HEIGHT.
Proof.
  unfold allCells. rewrite in_flat_map. split.
  - intros (y & Hy & Hp). apply in_map_iff in Hp. destruct Hp as (x & <- & Hx).
    apply zrange_In in Hy, Hx. cbn. auto.
  - intros [Hx Hy]. exists (pos_y p). split; [ apply zrange_In; exact Hy | ].
    apply in_map_iff. exists (pos_x p). split; [ destruct p; reflexivity | ].
    apply zrange_In. exact Hx.
Qed.

Lemma allCells_length :
  List.length allCells = (Z.to_nat BOARD_WIDTH * Z.to_nat BOARD_HEIGHT)%nat.
Proof.
  unfold allCells. rewrite <- (zrange_length BOARD_HEIGHT).
  induction (zrange BOARD_HEIGHT) as [|y ys IH]; cbn [flat_map List.length].
  - lia.
  - rewrite length_app, length_map, zrange_length, IH. lia.
Qed.

Lemma unvisited_le (v : list Position) :
  (unvisited v <= Z.to_nat BOARD_WIDTH * Z.to_nat BOARD_HEIGHT)%nat.
Proof.
  unfold unvisited. rewrite <- allCells_length. apply filter_length_le.
Qed.

(** Visiting a fresh cell of the board takes one off the unvisited cells. *)
Lemma unvisited_visit (v : list Position) (p : Position) :
  In p allCells -> ~ In p v -> (S (unvisited (p :: v)) <= unvisited v)%nat.
Proof.
  unfold unvisited. intros Hcell Hfresh.
  induction allCells as [|c cs IH]; [ contradiction | ].
  cbn [filter].
  assert (Hmono : (List.length (filter (fun c => negb (has (p :: v) c)) cs)
                   <= List.length (filter (fun c => negb (has v c)) cs))%nat).
  { clear. induction cs as [|c cs IH]; cbn [filter]; [ lia | ].
    unfold has at 1. cbn [existsb]. fold (has v c).
    destruct (Position_eqb c p), (has v c); cbn [orb negb List.length]; lia. }
  destruct Hcell as [-> | Hcell].
  - apply has_false in Hfresh. rewrite Hfresh.
    replace (has (p :: v) p) with true
      by (symmetry; apply has_In; left; reflexivity).
    cbn [negb List.length]. lia.
  - specialize (IH Hcell).
    unfold has at 1. cbn [existsb]. fold (has v c).
    destruct (Position_eqb c p), (has v c); cbn [orb negb List.length]; lia.
Qed.

End Cells.

Section Walks.
Context {K : Constants}.
Variable blocked : Position -> Position -> bool.

Local Abbreviation edge := (edge blocked).
Local Abbreviation walk := (walk blocked).
Local Abbreviation startsWith := (startsWith blocked).

Lemma walk_snoc (n : nat) (p q r : Position) :
  walk n p q -> edge q r -> walk (S n) p r.
Proof.
  intros Hw He. induction Hw as [p | n p r' q Hpr Hw IH].
  - apply (walk_cons blocked O p r r He). constructor.
  - apply (walk_cons blocked (S n) p r' r Hpr). apply IH. exact He.
Qed.

Lemma walk_last (n : nat) (p r : Position) :
  walk (S n) p r -> exists q, walk n p q /\ edge q r.
Proof.
  revert p. induction n as [|n IH]; intros p Hw.
  - inversion Hw as [| n' p' m q He Hw' ]; subst. inversion Hw'; subst.
    exists p. split; [ constructor | exact He ].
  - inversion Hw as [| n' p' m q He Hw' ]; subst.
    destruct (IH _ Hw') as (q & Hq & Hqr).
    exists q. split; [ exact (walk_cons blocked _ _ _ _ He Hq) | exact Hqr ].
Qed.

Lemma startsWith_walk (start : Position) (d : Direction) (n : nat) (p : Position) :
  startsWith start d n p -> walk (S n) start p.
Proof.
  intros (Hd & Hb & Hw).
  apply (walk_cons blocked n start (getNextPosition start d) p); auto.
  exists d. auto.
Qed.

Lemma startsWith_snoc (start : Position) (d : Direction) (n : nat) (p r : Position) :
  startsWith start d n p -> edge p r -> startsWith start d (S n) r.
Proof.
  intros (Hd & Hb & Hw) He. repeat split; auto. exact (walk_snoc _ _ _ _ Hw He).
Qed.

(** A set of cells closed under legal steps contains every cell reached from
    one of its members. *)
Lemma walk_closed (v : list Position) :
  (forall p r, In p v -> edge p r -> In r v) ->
  forall n p q, walk n p q -> In p v -> In q v.
Proof.
  intros Hclosed n p q Hw. induction Hw as [p | n p r q He Hw IH]; auto.
  intros Hp. apply IH. exact (Hclosed _ _ Hp He).
Qed.

End Walks.

Section SearchCorrect.
Context {K : Constants}.
Variables blockedFirst blocked : Position -> Position -> bool.
Variable isEnd : Position -> bool.
Variable start : Position.
Hypothesis Hwidth : 0 < BOARD_WIDTH.
Hypothesis Hheight : 0 < BOARD_HEIGHT.

Local Abbreviation step := getNextPosition.
Local Abbreviation edge := (edge blocked).
Local Abbreviation walk := (walk blocked).
Local Abbreviation startsWith := (startsWith blocked start).
Local Abbreviation shortestTo := (shortestTo blocked isEnd start).
Local Abbreviation unreachable := (unreachable blocked isEnd start).
Local Abbreviation Inv := (Inv blocked isEnd start).

Lemma step_in_allCells (p : Position) (d : Direction) : In (step p d) allCells.
Proof. apply allCells_In. apply getNextPosition_in_range; assumption. Qed.

(** What the inner loop does for the entry [(pos, firstStep)]. *)
Lemma expand_spec (pos : Position) (firstStep : Direction) (ds : list Direction) :
  incl ds dirs ->
  forall (q : list QueueItem) (v : list Position),
  match expand blocked isEnd ds pos firstStep q v with
  | Found d =>
      d = firstStep
      /\ exists r, edge pos r /\ isEnd r = true /\ ~ In r v
  | Continue q' v' =>
      exists new,
        q' = q ++ new
        /\ (forall p f, In (p, f) new ->
              f = firstStep /\ edge pos p /\ ~ In p v /\ isEnd p = false)
        /\ (forall p, In p v' <-> In p v \/ exists f, In (p, f) new)
        /\ (forall d, In d ds -> blocked pos (step pos d) = false ->
              In (step pos d) v')
        /\ (List.length q' + unvisited v' <= List.length q + unvisited v)%nat
  end.
Proof.
  induction ds as [|d ds IH]; intros Hincl q v.
  - cbn. exists []. rewrite app_nil_r.
    split; [ reflexivity | ]. split; [ intros p f [] | ].
    split; [ intros p; split; [ auto | intros [H | (f & [])]; exact H ] | ].
    split; [ intros d [] | lia ].
  - assert (Hd : In d dirs) by (apply Hincl; left; reflexivity).
    assert (Hds : incl ds dirs) by (intros e He; apply Hincl; right; exact He).
    cbn [expand]. destruct (has v (step pos d)) eqn:Ehas.
    { specialize (IH Hds q v).
      destruct (expand blocked isEnd ds pos firstStep q v) as [e | q' v']; auto.
      destruct IH as (new & Hq & Hnew & Hv & Hdone & Hm).
      exists new. split; [ exact Hq | ]. split; [ exact Hnew | ].
      split; [ exact Hv | ]. split; [ | exact Hm ].
      intros e [<- | He] Hfree; [ | exact (Hdone e He Hfree) ].
      apply Hv. left. apply has_In. exact Ehas. }
    apply has_false in Ehas.
    destruct (blocked pos (step pos d)) eqn:Eblocked.
    { specialize (IH Hds q v).
      destruct (expand blocked isEnd ds pos firstStep q v) as [e | q' v']; auto.
      destruct IH as (new & Hq & Hnew & Hv & Hdone & Hm).
      exists new. split; [ exact Hq | ]. split; [ exact Hnew | ].
      split; [ exact Hv | ]. split; [ | exact Hm ].
      intros e [<- | He] Hfree; [ congruence | exact (Hdone e He Hfree) ]. }
    assert (Hedge : edge pos (step pos d)) by (exists d; auto).
    destruct (isEnd (step pos d)) eqn:Eend.
    { split; [ reflexivity | ]. exists (step pos d). auto. }
    specialize (IH Hds (q ++ [(step pos d, firstStep)]) (step pos d :: v)).
    destruct (expand blocked isEnd ds pos firstStep
                (q ++ [(step pos d, firstStep)]) (step pos d :: v)) as [e | q' v'].
    + destruct IH as (-> & r & Hr & Hre & Hrv).
      split; [ reflexivity | ]. exists r.
      split; [ exact Hr | ]. split; [ exact Hre | ].
      intros Hin. apply Hrv. right. exact Hin.
    + destruct IH as (new & Hq & Hnew & Hv & Hdone & Hm).
      exists ((step pos d, firstStep) :: new). split.
      { rewrite Hq, <- app_assoc. reflexivity. }
      split.
      { intros p f [Hpf | Hpf].
        - inversion Hpf; subst. auto.
        - destruct (Hnew p f Hpf) as (Hf & He & Hfresh & Hpe).
          split; [ exact Hf | ]. split; [ exact He | ]. split; [ | exact Hpe ].
          intros Hin. apply Hfresh. right. exact Hin. }
      split.
      { intros p. rewrite Hv. cbn [In]. split.
        - intros [[<- | Hin] | (f & Hf)]; eauto.
        - intros [Hin | (f & [Hf | Hf])]; eauto.
          inversion Hf; subst. auto. }
      split.
      { intros e [<- | He] Hfree; [ | exact (Hdone e He Hfree) ].
        apply Hv. left. left. reflexivity. }
      pose proof (unvisited_visit v (step pos d) (step_in_allCells pos d) Ehas) as Hu.
      rewrite length_app in Hm. cbn [List.length] in Hm. lia.
Qed.

(** What the first loop does for the neighbours of [start]. *)
Lemma firstRing_spec (ds : list Direction) :
  (forall d, In d ds ->
     blockedFirst start (step start d) = blocked start (step start d)) ->
  forall (q : list QueueItem) (v : list Position),
  match firstRing blockedFirst isEnd ds start q v with
  | Found d =>
      In d ds /\ blocked start (step start d) = false
      /\ isEnd (step start d) = true
  | Continue q' v' =>
      exists new,
        q' = q ++ new
        /\ (forall p f, In (p, f) new ->
              In f ds /\ p = step start f /\ blocked start p = false
              /\ isEnd p = false)
        /\ (forall p, In p v' <-> In p v \/ exists f, In (p, f) new)
        /\ (forall d, In d ds -> blocked start (step start d) = false ->
              In (step start d) v')
        /\ (List.length new <= List.length ds)%nat
  end.
Proof.
  induction ds as [|d ds IH]; intros Hsame q v.
  - cbn. exists []. rewrite app_nil_r.
    split; [ reflexivity | ]. split; [ intros p f [] | ].
    split; [ intros p; split; [ auto | intros [H | (f & [])]; exact H ] | ].
    split; [ intros d [] | cbn; lia ].
  - assert (Hds : forall e, In e ds ->
              blockedFirst start (step start e) = blocked start (step start e))
      by (intros e He; apply Hsame; right; exact He).
    cbn [firstRing]. rewrite (Hsame d (or_introl eq_refl)).
    destruct (blocked start (step start d)) eqn:Eblocked.
    { specialize (IH Hds q v).
      destruct (firstRing blockedFirst isEnd ds start q v) as [e | q' v'].
      - destruct IH as (He & Hrest). split; [ right; exact He | exact Hrest ].
      - destruct IH as (new & Hq & Hnew & Hv & Hdone & Hlen).
        exists new. split; [ exact Hq | ]. split.
        { intros p f Hpf. destruct (Hnew p f Hpf) as (H1 & H2 & H3 & H4).
          split; [ right; exact H1 | auto ]. }
        split; [ exact Hv | ]. split.
        + intros e [<- | He] Hfree; [ congruence | exact (Hdone e He Hfree) ].
        + cbn [List.length]. lia. }
    destruct (isEnd (step start d)) eqn:Eend.
    { split; [ left; reflexivity | auto ]. }
    specialize (IH Hds (q ++ [(step start d, d)]) (step start d :: v)).
    destruct (firstRing blockedFirst isEnd ds start
                (q ++ [(step start d, d)]) (step start d :: v)) as [e | q' v'].
    + destruct IH as (He & Hrest). split; [ right; exact He | exact Hrest ].
    + destruct IH as (new & Hq & Hnew & Hv & Hdone & Hlen).
      exists ((step start d, d) :: new). split.
      { rewrite Hq, <- app_assoc. reflexivity. }
      split.
      { intros p f [Hpf | Hpf].
        - inversion Hpf; subst. split; [ left; reflexivity | auto ].
        - destruct (Hnew p f Hpf) as (H1 & H2 & H3 & H4).
          split; [ right; exact H1 | auto ]. }
      split.
      { intros p. rewrite Hv. cbn [In]. split.
        - intros [[<- | Hin] | (f & Hf)]; eauto.
        - intros [Hin | (f & [Hf | Hf])]; eauto.
          inversion Hf; subst. auto. }
      split.
      { intros e [<- | He] Hfree; [ | exact (Hdone e He Hfree) ].
        apply Hv. left. left. reflexivity. }
      cbn [List.length]. lia.
Qed.

Lemma Inv_switch (m : nat) (q2 : list QueueItem) (v : list Position) :
  Inv m [] q2 v -> Inv (S m) q2 [] v.
Proof.
  intros (HA & HB & HC & HF & HG & HE).
  split; [ exact HB | ]. split; [ intros p f [] | ].
  split.
  { intros k p Hk Hw. destruct (Nat.eq_dec k (S (S m))) as [-> | Hne].
    - apply walk_last in Hw. destruct Hw as (q & Hq & Hqp).
      pose proof (HC _ _ (le_n _) Hq) as Hqv.
      destruct (HF q Hqv) as [Hclosed | (f & Hf)]; [ exact (Hclosed _ Hqp) | ].
      exfalso. exact (HG q f Hf (S m) (le_n _) Hq).
    - apply (HC k p); [ lia | exact Hw ]. }
  split.
  { intros p Hp. destruct (HF p Hp) as [Hclosed | (f & Hf)]; [ left; exact Hclosed | ].
    right. exists f. rewrite app_nil_r. exact Hf. }
  split; [ intros p f [] | exact HE ].
Qed.

Lemma Inv_step (m : nat) (pos : Position) (firstStep : Direction)
    (q1 q2 : list QueueItem) (v : list Position) :
  Inv m ((pos, firstStep) :: q1) q2 v ->
  match expand blocked isEnd dirs pos firstStep (q1 ++ q2) v with
  | Found d => shortestTo d
  | Continue q' v' =>
      exists new,
        q' = q1 ++ (q2 ++ new)
        /\ Inv m q1 (q2 ++ new) v'
        /\ (List.length q' + unvisited v' <= List.length (q1 ++ q2) + unvisited v)%nat
  end.
Proof.
  intros (HA & HB & HC & HF & HG & HE).
  pose proof (expand_spec pos firstStep dirs (incl_refl _) (q1 ++ q2) v) as Hspec.
  assert (Hpos : startsWith firstStep m pos) by (apply HA; left; reflexivity).
  destruct (expand blocked isEnd dirs pos firstStep (q1 ++ q2) v) as [d | q' v'].
  - destruct Hspec as (-> & r & Hr & Hre & Hrv).
    exists (S m), r. split; [ exact Hre | ].
    split; [ exact (startsWith_snoc _ _ _ _ _ _ Hpos Hr) | ].
    intros k e' He' Hw. destruct (le_lt_dec k (S m)) as [Hk | Hk]; [ | lia ].
    pose proof (HE _ (HC _ _ Hk Hw)). congruence.
  - destruct Hspec as (new & Hq & Hnew & Hv & Hdone & Hm).
    exists new. split; [ rewrite Hq, app_assoc; reflexivity | ].
    split; [ | exact Hm ].
    split; [ intros p f Hpf; apply HA; right; exact Hpf | ].
    split.
    { intros p f Hpf. apply in_app_or in Hpf. destruct Hpf as [Hpf | Hpf].
      - exact (HB p f Hpf).
      - destruct (Hnew p f Hpf) as (-> & He & _).
        exact (startsWith_snoc _ _ _ _ _ _ Hpos He). }
    split; [ intros k p Hk Hw; apply Hv; left; exact (HC k p Hk Hw) | ].
    split.
    { intros p Hp. apply Hv in Hp. destruct Hp as [Hp | (f & Hf)].
      - destruct (HF p Hp) as [Hclosed | (f & Hf)].
        + left. intros r Hr. apply Hv. left. exact (Hclosed r Hr).
        + destruct Hf as [Hf | Hf].
          * inversion Hf; subst. left. intros r (d & Hd & -> & Hfree).
            exact (Hdone d Hd Hfree).
          * right. exists f. apply in_app_or in Hf. apply in_or_app.
            destruct Hf as [Hf | Hf]; [ left; exact Hf | right ].
            apply in_or_app. left. exact Hf.
      - right. exists f. apply in_or_app. right. apply in_or_app. right. exact Hf. }
    split.
    { intros p f Hpf k Hk Hw. apply in_app_or in Hpf. destruct Hpf as [Hpf | Hpf].
      - exact (HG p f Hpf k Hk Hw).
      - destruct (Hnew p f Hpf) as (_ & _ & Hfresh & _).
        apply Hfresh. exact (HC k p Hk Hw). }
    intros p Hp. apply Hv in Hp. destruct Hp as [Hp | (f & Hf)].
    + exact (HE p Hp).
    + destruct (Hnew p f Hf) as (_ & _ & _ & Hpe). exact Hpe.
Qed.

(** With an empty queue the visited cells are closed under legal steps. *)
Lemma Inv_empty (m : nat) (v : list Position) : Inv m [] [] v -> unreachable.
Proof.
  intros (_ & _ & HC & HF & _ & HE) k e He Hw.
  assert (Hclosed : forall p r, In p v -> edge p r -> In r v).
  { intros p r Hp Hr. destruct (HF p Hp) as [Hc | (f & [])]. exact (Hc r Hr). }
  assert (Hstart : In start v) by (apply (HC O); [ lia | constructor ]).
  pose proof (walk_closed blocked v Hclosed k start e Hw Hstart) as Hin.
  pose proof (HE e Hin). congruence.
Qed.

Lemma search_cons (fuel : nat) (pos : Position) (firstStep : Direction)
    (rest : list QueueItem) (v : list Position) :
  search blocked isEnd (S fuel) ((pos, firstStep) :: rest) v
  = match expand blocked isEnd dirs pos firstStep rest v with
    | Found d => Some (Some d)
    | Continue queue' visited' => search blocked isEnd fuel queue' visited'
    end.
Proof. reflexivity. Qed.

Lemma search_correct (fuel : nat) :
  forall (m : nat) (q1 q2 : list QueueItem) (v : list Position),
  Inv m q1 q2 v ->
  (List.length (q1 ++ q2) + unvisited v < fuel)%nat ->
  match search blocked isEnd fuel (q1 ++ q2) v with
  | Some (Some d) => shortestTo d
  | Some None => unreachable
  | None => False
  end.
Proof.
  induction fuel as [|fuel IH]; intros m q1 q2 v HInv Hfuel; [ lia | ].
  assert (Hhead : forall m pos f (q1 q2 : list QueueItem),
            Inv m ((pos, f) :: q1) q2 v ->
            (List.length (((pos, f) :: q1) ++ q2) + unvisited v < S fuel)%nat ->
            match search blocked isEnd (S fuel) (((pos, f) :: q1) ++ q2) v with
            | Some (Some d) => shortestTo d
            | Some None => unreachable
            | None => False
            end).
  { clear m q1 q2 HInv Hfuel. intros m pos f q1 q2 HInv Hfuel.
    rewrite <- app_comm_cons, search_cons.
    pose proof (Inv_step m pos f q1 q2 v HInv) as Hstep. revert Hstep.
    unfold QueueItem in *.
    destruct (expand blocked isEnd dirs pos f (q1 ++ q2) v) as [d | q' v'];
      intros Hstep; [ exact Hstep | ].
    destruct Hstep as (new & -> & HInv' & Hm).
    apply (IH m q1 (q2 ++ new) v' HInv'). cbn [app List.length] in Hfuel. lia. }
  destruct q1 as [| [pos f] q1].
  - destruct q2 as [| [pos f] q2].
    + cbn. exact (Inv_empty m v HInv).
    + apply Inv_switch in HInv.
      specialize (Hhead (S m) pos f q2 [] HInv).
      rewrite app_nil_r in Hhead. exact (Hhead Hfuel).
  - exact (Hhead m pos f q1 q2 HInv Hfuel).
Qed.

Hypothesis Hfirst :
  forall d, In d dirs ->
    blockedFirst start (step start d) = blocked start (step start d).
Hypothesis Hstart : isEnd start = false.

(** The search returns the first step of a shortest walk to an end cell when
    there is a walk at all, and [None] only when there is none. *)
Lemma bfs_correct :
  match bfs blockedFirst blocked isEnd start with
  | Some d => shortestTo d
  | None => unreachable
  end.
Proof.
  unfold bfs. pose proof (firstRing_spec dirs Hfirst [] [start]) as Hring.
  destruct (firstRing blockedFirst isEnd dirs start [] [start]) as [d | q v].
  - destruct Hring as (Hd & Hfree & Hend).
    exists O, (step start d). split; [ exact Hend | ].
    split; [ split; [ exact Hd | split; [ exact Hfree | constructor ] ] | ].
    intros k e' He' Hw. destruct k; [ | lia ].
    inversion Hw; subst. congruence.
  - destruct Hring as (new & Hq & Hnew & Hv & Hdone & Hlen).
    cbn [app] in Hq. subst new.
    assert (HInv : Inv O q [] v).
    { split.
      { intros p f Hpf. destruct (Hnew p f Hpf) as (Hf & -> & Hfree & _).
        split; [ exact Hf | split; [ exact Hfree | constructor ] ]. }
      split; [ intros p f [] | ].
      split.
      { intros k p Hk Hw. destruct k as [|[|k]]; [ | | lia ].
        - inversion Hw; subst. apply Hv. left. left. reflexivity.
        - inversion Hw as [| n' p' r q' (d & Hd & -> & Hfree) Hw']; subst.
          inversion Hw'; subst. exact (Hdone d Hd Hfree). }
      split.
      { intros p Hp. apply Hv in Hp. destruct Hp as [[<- | []] | (f & Hf)].
        - left. intros r (d & Hd & -> & Hfree). exact (Hdone d Hd Hfree).
        - right. exists f. rewrite app_nil_r. exact Hf. }
      split; [ intros p f [] | ].
      intros p Hp. apply Hv in Hp. destruct Hp as [[<- | []] | (f & Hf)].
      - exact Hstart.
      - destruct (Hnew p f Hf) as (_ & _ & _ & Hpe). exact Hpe. }
    pose proof (search_correct searchFuel O q [] v HInv) as Hsearch.
    rewrite app_nil_r in Hsearch.
    assert (Hfuel : (List.length q + unvisited v < searchFuel)%nat).
    { pose proof (unvisited_le v). unfold searchFuel. cbn [List.length dirs] in Hlen. lia. }
    specialize (Hsearch Hfuel).
    destruct (search blocked isEnd searchFuel q v) as [[d|]|];
      [ exact Hsearch | exact Hsearch | contradiction ].
Qed.

End SearchCorrect.

(** The order in which the search takes the directions. *)

Section SearchOrder.
Context {K : Constants}.
Variables blockedFirst blocked : Position -> Position -> bool.
Variable isEnd : Position -> bool.
Variable start : Position.
Hypothesis Hwidth : 0 < BOARD_WIDTH.
Hypothesis Hheight : 0 < BOARD_HEIGHT.

Local Abbreviation step := getNextPosition.
Local Abbreviation edge := (edge blocked).
Local Abbreviation walk := (walk blocked).
Local Abbreviation startsWith := (startsWith blocked start).
Local Abbreviation shortestTo := (shortestTo blocked isEnd start).
Local Abbreviation Inv := (Inv blocked isEnd start).
Local Abbreviation Ord := (Ord blocked start).

Lemma StronglySorted_snoc_all (q new : list QueueItem) :
  StronglySorted stepOrder q ->
  StronglySorted stepOrder new ->
  (forall a b, In a q -> In b new -> stepOrder a b) ->
  StronglySorted stepOrder (q ++ new).
Proof.
  intros Hq Hnew Hle. induction Hq as [|a q Hq IH Ha]; cbn [app]; [ exact Hnew | ].
  constructor.
  - apply IH. intros x y Hx Hy. apply Hle; [ right; exact Hx | exact Hy ].
  - apply Forall_app. split; [ exact Ha | ].
    apply Forall_forall. intros b Hb. apply Hle; [ left; reflexivity | exact Hb ].
Qed.

Lemma StronglySorted_same (f : Direction) (new : list QueueItem) :
  (forall p g, In (p, g) new -> g = f) -> StronglySorted stepOrder new.
Proof.
  induction new as [|[p g] new IH]; intros Hall; constructor.
  - apply IH. intros p' g' H. apply (Hall p'). right. exact H.
  - apply Forall_forall. intros [p' g'] H. unfold stepOrder. cbn [snd].
    rewrite (Hall p g (or_introl eq_refl)), (Hall p' g' (or_intror H)). lia.
Qed.

(** One iteration of the [while] loop keeps the order of the queue. *)
Lemma Ord_step (m : nat) (pos : Position) (firstStep : Direction)
    (done q1 q2 new : list QueueItem) (v v' : list Position) :
  Inv m ((pos, firstStep) :: q1) q2 v ->
  Ord m done ((pos, firstStep) :: q1) q2 v ->
  expand blocked isEnd dirs pos firstStep (q1 ++ q2) v
  = Continue (q1 ++ (q2 ++ new)) v' ->
  Ord m (done ++ [(pos, firstStep)]) q1 (q2 ++ new) v'.
Proof.
  intros (HA & _) (O1 & O2 & O3 & O4 & O5 & O6 & O7 & O8) Hexp.
  pose proof (expand_spec blocked isEnd Hwidth Hheight pos firstStep dirs
                (incl_refl _) (q1 ++ q2) v) as Hspec.
  unfold QueueItem in *. rewrite Hexp in Hspec.
  destruct Hspec as (new' & Hq & Hnew & Hv & Hdone & _).
  assert (new' = new).
  { rewrite app_assoc in Hq. apply app_inv_head in Hq. symmetry. exact Hq. }
  subst new'.
  assert (Hpos : startsWith firstStep m pos) by (apply HA; left; reflexivity).
  assert (Hhead : forall b, In b q1 -> stepOrder (pos, firstStep) b).
  { apply StronglySorted_inv in O1. destruct O1 as [_ Hall].
    intros b Hb. exact (proj1 (Forall_forall _ _) Hall b Hb). }
  assert (Hsame : forall p g, In (p, g) new -> g = firstStep).
  { intros p g H. destruct (Hnew p g H) as [-> _]. reflexivity. }
  split; [ apply StronglySorted_inv in O1; tauto | ].
  split.
  { apply StronglySorted_snoc_all; [ exact O2 | exact (StronglySorted_same _ _ Hsame) | ].
    intros a [p g] Ha Hb. rewrite (Hsame p g Hb).
    exact (O3 a (pos, firstStep) Ha (or_introl eq_refl)). }
  split.
  { intros a b Ha Hb. apply in_app_or in Ha. destruct Ha as [Ha | Ha].
    - apply O3; [ exact Ha | right; exact Hb ].
    - destruct a as [p g]. rewrite (Hsame p g Ha). exact (Hhead b Hb). }
  split.
  { intros p d Hpd Hmin. destruct (O4 p d Hpd Hmin) as (f & Hf & Hle).
    exists f. split; [ | exact Hle ]. rewrite <- app_assoc. exact Hf. }
  split.
  { intros u fu Hu r Hr. apply in_app_or in Hu. destruct Hu as [Hu | [Hu | []]].
    - apply Hv. left. exact (O5 u fu Hu r Hr).
    - injection Hu as Hu1 Hu2. subst u fu. destruct Hr as (d & Hd & -> & Hfree).
      exact (Hdone d Hd Hfree). }
  split.
  { intros u fu Hu r Hr Hfar. apply in_app_or in Hu. destruct Hu as [Hu | [Hu | []]].
    - destruct (O6 u fu Hu r Hr Hfar) as (f & Hf & Hle).
      exists f. split; [ apply in_or_app; left; exact Hf | exact Hle ].
    - injection Hu as Hu1 Hu2. subst u fu.
      assert (Hrv : In r v').
      { destruct Hr as (d & Hd & -> & Hfree). exact (Hdone d Hd Hfree). }
      apply Hv in Hrv. destruct Hrv as [Hrv | (f & Hf)].
      + destruct (O7 r Hrv Hfar) as (f & Hf). exists f.
        split; [ apply in_or_app; left; exact Hf | ].
        exact (O3 (r, f) (pos, firstStep) Hf (or_introl eq_refl)).
      + exists f. split; [ apply in_or_app; right; exact Hf | ].
        rewrite (Hsame r f Hf). lia. }
  split.
  { intros r Hr Hfar. apply Hv in Hr. destruct Hr as [Hr | (f & Hf)].
    - destruct (O7 r Hr Hfar) as (f & Hf). exists f. apply in_or_app. left. exact Hf.
    - exists f. apply in_or_app. right. exact Hf. }
  intros r Hr. apply Hv in Hr. destruct Hr as [Hr | (f & Hf)].
  - exact (O8 r Hr).
  - destruct (Hnew r f Hf) as (_ & He & _). exists (S (S m)).
    split; [ lia | ].
    exact (walk_snoc blocked _ _ _ _ (startsWith_walk blocked _ _ _ _ Hpos) He).
Qed.

(** The end of a level. *)
Lemma Ord_switch (m : nat) (done q2 : list QueueItem) (v : list Position) :
  Ord m done [] q2 v -> Ord (S m) [] q2 [] v.
Proof.
  intros (O1 & O2 & O3 & O4 & O5 & O6 & O7 & O8).
  split; [ exact O2 | ]. split; [ constructor | ].
  split; [ intros a b [] | ].
  split.
  { intros p d (Hd & Hfree & Hw) Hmin.
    apply (walk_last blocked) in Hw. destruct Hw as (u & Hu & Hup).
    assert (Hsu : startsWith d m u) by (split; [ exact Hd | split; assumption ]).
    assert (Hfar : forall k, (k <= m)%nat -> ~ walk k start u).
    { intros k Hk Hwk. apply (Hmin (S k)); [ lia | ].
      exact (walk_snoc blocked _ _ _ _ Hwk Hup). }
    destruct (O4 u d Hsu Hfar) as (fu & Hfu & Hle). rewrite app_nil_r in Hfu.
    destruct (O6 u fu Hfu p Hup Hmin) as (f & Hf & Hle').
    exists f. split; [ exact Hf | lia ]. }
  split; [ intros u fu [] | ]. split; [ intros u fu [] | ].
  split.
  { intros r Hr Hfar. destruct (O8 r Hr) as (k & Hk & Hw).
    exfalso. exact (Hfar k Hk Hw). }
  intros r Hr. destruct (O8 r Hr) as (k & Hk & Hw). exists k. split; [ lia | exact Hw ].
Qed.

(** When the [while] loop finds an end cell, the first step it returns has
    the least rank among the first steps of shortest walks. *)
Lemma Ord_found (m : nat) (pos : Position) (firstStep d : Direction)
    (done q1 q2 : list QueueItem) (v : list Position) :
  Inv m ((pos, firstStep) :: q1) q2 v ->
  Ord m done ((pos, firstStep) :: q1) q2 v ->
  expand blocked isEnd dirs pos firstStep (q1 ++ q2) v = Found d ->
  forall d', shortestTo d' ->
             (dirIndex d <= dirIndex d')%nat.
Proof.
  intros HInv (O1 & _ & _ & O4 & O5 & _) Hexp d' (n & e & He & Hs & Hmin).
  pose proof (Inv_step blocked isEnd start Hwidth Hheight m pos firstStep q1 q2 v HInv)
    as Hstep.
  pose proof (expand_spec blocked isEnd Hwidth Hheight pos firstStep dirs
                (incl_refl _) (q1 ++ q2) v) as Hspec.
  unfold QueueItem in *. rewrite Hexp in Hstep, Hspec.
  destruct Hspec as (-> & _).
  destruct Hstep as (n0 & e0 & He0 & Hs0 & Hmin0).
  destruct HInv as (HA & _ & HC & _ & _ & HE).
  assert (Hpos : startsWith firstStep m pos) by (apply HA; left; reflexivity).
  (* the walk found has S m + 1 steps after the first *)
  assert (Hlen : exists r, edge pos r /\ isEnd r = true).
  { pose proof (expand_spec blocked isEnd Hwidth Hheight pos firstStep dirs
                  (incl_refl _) (q1 ++ q2) v) as Hspec.
    unfold QueueItem in *. rewrite Hexp in Hspec.
    destruct Hspec as (_ & r & Hr & Hre & _). exists r. auto. }
  destruct Hlen as (r & Hr & Hre).
  assert (Hn : n = S m).
  { pose proof (Hmin _ _ Hre
                  (walk_snoc blocked _ _ _ _ (startsWith_walk blocked _ _ _ _ Hpos) Hr)).
    destruct (le_lt_dec (S n) (S m)) as [Hk | Hk]; [ | lia ].
    pose proof (HE _ (HC _ _ Hk (startsWith_walk blocked _ _ _ _ Hs))). congruence. }
  subst n. destruct Hs as (Hd' & Hfree' & Hw').
  apply (walk_last blocked) in Hw'. destruct Hw' as (u & Hu & Hue).
  assert (Hsu : startsWith d' m u) by (split; [ exact Hd' | split; assumption ]).
  assert (Hfar : forall k, (k <= m)%nat -> ~ walk k start u).
  { intros k Hk Hwk.
    pose proof (Hmin _ _ He (walk_snoc blocked _ _ _ _ Hwk Hue)). lia. }
  destruct (O4 u d' Hsu Hfar) as (fu & Hfu & Hle).
  apply in_app_or in Hfu. destruct Hfu as [Hfu | Hfu].
  - pose proof (HE _ (O5 u fu Hfu e Hue)). congruence.
  - destruct Hfu as [Hfu | Hfu].
    + injection Hfu as Hu1 Hu2. subst fu. exact Hle.
    + apply StronglySorted_inv in O1. destruct O1 as [_ Hall].
      pose proof (proj1 (Forall_forall _ _) Hall (u, fu) Hfu) as Hhead.
      unfold stepOrder in Hhead. cbn [snd] in Hhead. lia.
Qed.

Lemma search_order (fuel : nat) :
  forall (m : nat) (done q1 q2 : list QueueItem) (v : list Position) (d : Direction),
  Inv m q1 q2 v -> Ord m done q1 q2 v ->
  search blocked isEnd fuel (q1 ++ q2) v = Some (Some d) ->
  forall d', shortestTo d' ->
             (dirIndex d <= dirIndex d')%nat.
Proof.
  induction fuel as [|fuel IH]; intros m done q1 q2 v d HInv HOrd Hs;
    [ discriminate | ].
  assert (Hhead : forall m done pos f (q1 q2 : list QueueItem),
            Inv m ((pos, f) :: q1) q2 v -> Ord m done ((pos, f) :: q1) q2 v ->
            search blocked isEnd (S fuel) (((pos, f) :: q1) ++ q2) v = Some (Some d) ->
            forall d', shortestTo d' ->
                       (dirIndex d <= dirIndex d')%nat).
  { clear m done q1 q2 HInv HOrd Hs. intros m done pos f q1 q2 HInv HOrd Hs.
    rewrite <- app_comm_cons, search_cons in Hs.
    pose proof (Inv_step blocked isEnd start Hwidth Hheight m pos f q1 q2 v HInv)
      as Hstep.
    pose proof (Ord_found m pos f) as Hfound.
    pose proof (Ord_step m pos f done q1 q2) as Hnext.
    unfold QueueItem in *.
    destruct (expand blocked isEnd dirs pos f (q1 ++ q2) v) as [e | q' v'] eqn:Hexp.
    - inversion Hs; subst e. exact (Hfound d done q1 q2 v HInv HOrd Hexp).
    - destruct Hstep as (new & -> & HInv' & _).
      exact (IH m (done ++ [(pos, f)]) q1 (q2 ++ new) v' d HInv'
                (Hnext new v v' HInv HOrd Hexp) Hs). }
  destruct q1 as [| [pos f] q1].
  - destruct q2 as [| [pos f] q2]; [ discriminate | ].
    apply (Inv_switch blocked isEnd start) in HInv. apply Ord_switch in HOrd.
    apply (Hhead (S m) [] pos f q2 [] HInv HOrd).
    rewrite app_nil_r. exact Hs.
  - exact (Hhead m done pos f q1 q2 HInv HOrd Hs).
Qed.

Hypothesis Hfirst :
  forall d, In d dirs ->
    blockedFirst start (step start d) = blocked start (step start d).
Hypothesis Hstart : isEnd start = false.

(** The first loop scans a list of directions of increasing rank: it stops
    at the first legal end cell, and otherwise queues every legal neighbour
    under its own direction, in that order. *)
Lemma firstRing_order (ds : list Direction) :
  StronglySorted (fun a b => (dirIndex a <= dirIndex b)%nat) ds ->
  incl ds dirs ->
  forall (q : list QueueItem) (v : list Position),
  match firstRing blockedFirst isEnd ds start q v with
  | Found d =>
      forall d', In d' ds -> blocked start (step start d') = false ->
                 isEnd (step start d') = true -> (dirIndex d <= dirIndex d')%nat
  | Continue q' v' =>
      exists new,
        q' = q ++ new
        /\ StronglySorted stepOrder new
        /\ (forall p f, In (p, f) new -> In f ds)
        /\ (forall d, In d ds -> blocked start (step start d) = false ->
              In (step start d, d) new)
  end.
Proof.
  induction ds as [|d ds IH]; intros Hsorted Hincl q v.
  - cbn. exists []. rewrite app_nil_r. split; [ reflexivity | ].
    split; [ constructor | ]. split; [ intros p f [] | intros d [] ].
  - apply StronglySorted_inv in Hsorted. destruct Hsorted as [Hsorted Hd].
    assert (Hds : incl ds dirs) by (intros e He; apply Hincl; right; exact He).
    cbn [firstRing]. rewrite (Hfirst d (Hincl d (or_introl eq_refl))).
    destruct (blocked start (step start d)) eqn:Eblocked.
    { specialize (IH Hsorted Hds q v).
      destruct (firstRing blockedFirst isEnd ds start q v) as [e | q' v'].
      - intros d' [<- | Hd'] Hfree Hend; [ congruence | exact (IH d' Hd' Hfree Hend) ].
      - destruct IH as (new & Hq & Hnew & Hin & Hall).
        exists new. split; [ exact Hq | ]. split; [ exact Hnew | ].
        split; [ intros p f H; right; exact (Hin p f H) | ].
        intros e [<- | He] Hfree; [ congruence | exact (Hall e He Hfree) ]. }
    destruct (isEnd (step start d)) eqn:Eend.
    { intros d' [<- | Hd'] _ _; [ lia | ].
      exact (proj1 (Forall_forall _ _) Hd d' Hd'). }
    specialize (IH Hsorted Hds (q ++ [(step start d, d)]) (step start d :: v)).
    destruct (firstRing blockedFirst isEnd ds start
                (q ++ [(step start d, d)]) (step start d :: v)) as [e | q' v'].
    + intros d' [<- | Hd'] Hfree Hend; [ congruence | exact (IH d' Hd' Hfree Hend) ].
    + destruct IH as (new & Hq & Hnew & Hin & Hall).
      exists ((step start d, d) :: new).
      split; [ rewrite Hq, <- app_assoc; reflexivity | ].
      split.
      { constructor; [ exact Hnew | ]. apply Forall_forall. intros [p f] Hpf.
        unfold stepOrder. cbn [snd].
        exact (proj1 (Forall_forall _ _) Hd f (Hin p f Hpf)). }
      split.
      { intros p f [Hpf | Hpf]; [ injection Hpf as _ <-; left; reflexivity | ].
        right. exact (Hin p f Hpf). }
      intros e [<- | He] Hfree; [ left; reflexivity | right; exact (Hall e He Hfree) ].
Qed.

Lemma dirs_sorted :
  StronglySorted (fun a b => (dirIndex a <= dirIndex b)%nat) dirs.
Proof.
  unfold dirs. repeat constructor; cbn; lia.
Qed.

(** The state in which the [while] loop starts. *)
Lemma firstRing_Inv (q : list QueueItem) (v : list Position) :
  firstRing blockedFirst isEnd dirs start [] [start] = Continue q v ->
  Inv O q [] v /\ Ord O [] q [] v
  /\ (List.length q + unvisited v < searchFuel)%nat.
Proof.
  intros Hring.
  pose proof (firstRing_spec blockedFirst blocked isEnd start dirs Hfirst [] [start])
    as Hspec.
  pose proof (firstRing_order dirs dirs_sorted (incl_refl _) [] [start]) as Hord.
  unfold QueueItem in *. rewrite Hring in Hspec, Hord.
  destruct Hspec as (new & Hq & Hnew & Hv & Hdone & Hlen).
  destruct Hord as (new' & Hq' & Hsorted & _ & Hall).
  cbn [app] in Hq, Hq'. subst new new'.
  assert (Hnear : forall r, In r v -> exists k, (k <= 1)%nat /\ walk k start r).
  { intros r Hr. apply Hv in Hr. destruct Hr as [[<- | []] | (f & Hf)].
    - exists O. split; [ lia | constructor ].
    - destruct (Hnew r f Hf) as (Hd & -> & Hfree & _). exists 1%nat.
      split; [ lia | ].
      apply (walk_cons blocked O start (step start f) (step start f));
        [ exists f; auto | constructor ]. }
  split.
  { split.
    { intros p f Hpf. destruct (Hnew p f Hpf) as (Hf & -> & Hfree & _).
      split; [ exact Hf | split; [ exact Hfree | constructor ] ]. }
    split; [ intros p f [] | ].
    split.
    { intros k p Hk Hw. destruct k as [|[|k]]; [ | | lia ].
      - inversion Hw; subst. apply Hv. left. left. reflexivity.
      - inversion Hw as [| n' p' r q' (d & Hd & -> & Hfree) Hw']; subst.
        inversion Hw'; subst. exact (Hdone d Hd Hfree). }
    split.
    { intros p Hp. apply Hv in Hp. destruct Hp as [[<- | []] | (f & Hf)].
      - left. intros r (d & Hd & -> & Hfree). exact (Hdone d Hd Hfree).
      - right. exists f. rewrite app_nil_r. exact Hf. }
    split; [ intros p f [] | ].
    intros p Hp. apply Hv in Hp. destruct Hp as [[<- | []] | (f & Hf)].
    - exact Hstart.
    - destruct (Hnew p f Hf) as (_ & _ & _ & Hpe). exact Hpe. }
  split.
  { split; [ exact Hsorted | ]. split; [ constructor | ].
    split; [ intros a b [] | ].
    split.
    { intros p d (Hd & Hfree & Hw) _. inversion Hw; subst.
      exists d. split; [ exact (Hall d Hd Hfree) | lia ]. }
    split; [ intros u fu [] | ]. split; [ intros u fu [] | ].
    split.
    { intros r Hr Hfar. destruct (Hnear r Hr) as (k & Hk & Hw).
      exfalso. exact (Hfar k Hk Hw). }
    intros r Hr. destruct (Hnear r Hr) as (k & Hk & Hw).
    exists k. split; [ lia | exact Hw ]. }
  pose proof (unvisited_le v). unfold searchFuel. cbn [List.length dirs] in Hlen. lia.
Qed.

(** Among the first steps of shortest walks to an end cell, the search
    returns the one of least rank. *)
Lemma bfs_order (d : Direction) :
  bfs blockedFirst blocked isEnd start = Some d ->
  forall d', shortestTo d' ->
             (dirIndex d <= dirIndex d')%nat.
Proof.
  unfold bfs. intros Hbfs d' Hd'.
  pose proof (firstRing_spec blockedFirst blocked isEnd start dirs Hfirst [] [start])
    as Hspec.
  pose proof (firstRing_order dirs dirs_sorted (incl_refl _) [] [start]) as Hord.
  pose proof firstRing_Inv as Hinit.
  destruct (firstRing blockedFirst isEnd dirs start [] [start]) as [e | q v]
    eqn:Hring.
  - injection Hbfs as ->. destruct Hspec as (Hd & Hfree & Hend).
    destruct Hd' as (n & e' & He' & (Hd' & Hfree' & Hw') & Hmin).
    assert (Hone : walk 1 start (step start d)).
    { apply (walk_cons blocked O start (step start d) (step start d));
        [ exists d; auto | constructor ]. }
    pose proof (Hmin _ _ Hend Hone) as Hn. assert (n = O) by lia. subst n.
    inversion Hw'; subst. exact (Hord d' Hd' Hfree' He').
  - destruct (Hinit q v eq_refl) as (HInv & HOrd & Hfuel).
    pose proof (search_order searchFuel O [] q [] v d HInv HOrd) as Hs.
    rewrite app_nil_r in Hs. apply Hs; [ | exact Hd' ].
    destruct (search blocked isEnd searchFuel q v) as [[r|]|];
      try discriminate. congruence.
Qed.

(** The cells one node adds to the queue enter it in the order in which the
    directions are scanned; all carry the first step of the node. *)
Lemma expand_scan (pos : Position) (firstStep : Direction) (ds : list Direction) :
  forall (q q' : list QueueItem) (v v' : list Position),
  expand blocked isEnd ds pos firstStep q v = Continue q' v' ->
  exists cells,
    q' = q ++ map (fun p => (p, firstStep)) cells
    /\ v' = rev cells ++ v
    /\ subseq cells (map (step pos) ds).
Proof.
  induction ds as [|d ds IH]; intros q q' v v' H; cbn [expand] in H.
  - injection H as <- <-. exists []. rewrite app_nil_r.
    split; [ reflexivity | ]. split; [ reflexivity | constructor ].
  - destruct (has v (step pos d)).
    { destruct (IH _ _ _ _ H) as (cells & Hq & Hv & Hsub).
      exists cells. split; [ exact Hq | ]. split; [ exact Hv | ].
      cbn [map]. apply subseq_skip. exact Hsub. }
    destruct (blocked pos (step pos d)).
    { destruct (IH _ _ _ _ H) as (cells & Hq & Hv & Hsub).
      exists cells. split; [ exact Hq | ]. split; [ exact Hv | ].
      cbn [map]. apply subseq_skip. exact Hsub. }
    destruct (isEnd (step pos d)); [ discriminate | ].
    destruct (IH _ _ _ _ H) as (cells & Hq & Hv & Hsub).
    exists (step pos d :: cells).
    split; [ rewrite Hq, <- app_assoc; reflexivity | ].
    split; [ rewrite Hv; cbn [rev]; rewrite <- app_assoc; reflexivity | ].
    cbn [map]. apply subseq_take. exact Hsub.
Qed.

Lemma firstRing_scan (ds : list Direction) :
  forall (q q' : list QueueItem) (v v' : list Position),
  firstRing blockedFirst isEnd ds start q v = Continue q' v' ->
  let taken := filter (fun d => negb (blockedFirst start (step start d))) ds in
  q' = q ++ map (fun d => (step start d, d)) taken
  /\ v' = rev (map (step start) taken) ++ v.
Proof.
  induction ds as [|d ds IH]; intros q q' v v' H; cbn [firstRing] in H;
    cbv zeta; cbn [filter].
  - injection H as <- <-. rewrite app_nil_r. split; reflexivity.
  - destruct (blockedFirst start (step start d)); cbn [negb].
    { exact (IH _ _ _ _ H). }
    destruct (isEnd (step start d)); [ discriminate | ].
    destruct (IH _ _ _ _ H) as (Hq & Hv).
    split; [ rewrite Hq, <- app_assoc; reflexivity | ].
    rewrite Hv. cbn [rev map]. rewrite <- app_assoc. reflexivity.
Qed.

End SearchOrder.

Section FindNextMove.
Context {K : Constants}.

Lemma outOfBounds_step (p : Position) (d : Direction) :
  0 < BOARD_WIDTH -> 0 < BOARD_HEIGHT ->
  App.outOfBounds (getNextPosition p d) = false.
Proof.
  intros HW HH. destruct (getNextPosition_in_range p d HW HH) as [Hx Hy].
  unfold App.outOfBounds.
  repeat (apply orb_false_iff; split);
    try (apply Z.ltb_ge; lia); rewrite Z.geb_leb; apply Z.leb_gt; lia.
Qed.

(** What [bfs_correct] gives for a search whose end test is a cell. *)
Lemma shortestTo_cell (blocked : Position -> Position -> bool)
    (start end_ : Position) (d : Direction) :
  shortestTo blocked (isTarget (Cell end_)) start d ->
  In d dirs
  /\ blocked start (getNextPosition start d) = false
  /\ exists n,
       walk blocked n (getNextPosition start d) end_
       /\ (forall k, walk blocked k (getNextPosition start d) end_ -> (n <= k)%nat)
       /\ (forall k, walk blocked k start end_ -> (S n <= k)%nat).
Proof.
  intros (n & e & He & (Hd & Hfree & Hw) & Hmin).
  apply Position_eqb_eq in He. subst e.
  assert (Hend : isTarget (Cell end_) end_ = true)
    by (apply Position_eqb_eq; reflexivity).
  split; [ exact Hd | ]. split; [ exact Hfree | ].
  exists n. split; [ exact Hw | ]. split.
  - intros k Hk.
    assert (Hk' : walk blocked (S k) start end_).
    { apply (walk_cons blocked k start (getNextPosition start d) end_); [ | exact Hk ].
      exists d. auto. }
    pose proof (Hmin _ _ Hend Hk'). lia.
  - intros k Hk. exact (Hmin _ _ Hend Hk).
Qed.

Lemma unreachable_cell (blocked : Position -> Position -> bool)
    (start end_ : Position) :
  unreachable blocked (isTarget (Cell end_)) start ->
  forall k, ~ walk blocked k start end_.
Proof.
  intros H k. apply H. apply Position_eqb_eq. reflexivity.
Qed.

Lemma isTarget_start (start end_ : Position) :
  start <> end_ -> isTarget (Cell end_) start = false.
Proof.
  intros Hne. cbn. destruct (Position_eqb start end_) eqn:E; [ | reflexivity ].
  apply Position_eqb_eq in E. contradiction.
Qed.

(** C5 (amended). On a board of positive width and height and for a goal
    other than the start cell, [findNextMove] returns a direction exactly
    when the goal can be reached by legal steps.  The direction returned is
    a legal first step, the cell it leads to is [n] steps away from the goal
    and not fewer, and no walk from the start to the goal has fewer than
    [n + 1] steps; among the first steps of shortest walks it is the
    earliest in the order up, down, left, right.  The neighbours are
    scanned in that order at every node: the first loop either returns the
    direction of the goal or queues every legal neighbour of the start in
    that order, and one turn of the [while] loop either returns the first step
    of its entry or appends the fresh legal neighbours of the entry in that
    order. *)
Theorem findNextMove_shortest_path (board : Board) (start end_ : Position)
    (ghostState : GhostState) :
  0 < BOARD_WIDTH -> 0 < BOARD_HEIGHT -> start <> end_ ->
  match App.findNextMove board start end_ ghostState with
  | Some d =>
      In d dirs
      /\ App.cellBlocked board ghostState (getNextPosition start d) = false
      /\ (exists n,
            walk (legalApp board ghostState) n (getNextPosition start d) end_
            /\ (forall k, walk (legalApp board ghostState) k
                               (getNextPosition start d) end_ -> (n <= k)%nat)
            /\ (forall k, walk (legalApp board ghostState) k start end_ ->
                          (S n <= k)%nat))
      /\ (forall d' k,
            In d' dirs ->
            App.cellBlocked board ghostState (getNextPosition start d') = false ->
            walk (legalApp board ghostState) k (getNextPosition start d') end_ ->
            (forall j, walk (legalApp board ghostState) j start end_ ->
                       (S k <= j)%nat) ->
            (dirIndex d <= dirIndex d')%nat)
  | None => forall k, ~ walk (legalApp board ghostState) k start end_
  end
  /\ ((exists d, In d [UP; DOWN; LEFT; RIGHT]
                 /\ getNextPosition start d = end_
                 /\ App.findNextMove board start end_ ghostState = Some d)
      \/ let taken :=
           filter (fun d => negb (App.cellBlocked board ghostState
                                    (getNextPosition start d)))
                  [UP; DOWN; LEFT; RIGHT] in
         App.findNextMove board start end_ ghostState
         = match search (legalApp board ghostState) (isTarget (Cell end_))
                        searchFuel
                        (map (fun d => (getNextPosition start d, d)) taken)
                        (rev (map (getNextPosition start) taken) ++ [start])
           with
           | Some r => r
           | None => None
           end)
  /\ (forall fuel pos firstStep rest visited,
        search (legalApp board ghostState) (isTarget (Cell end_)) (S fuel)
               ((pos, firstStep) :: rest) visited
        = Some (Some firstStep)
        \/ exists cells,
             subseq cells [getNextPosition pos UP; getNextPosition pos DOWN;
                           getNextPosition pos LEFT; getNextPosition pos RIGHT]
             /\ (forall p, In p cells ->
                   App.cellBlocked board ghostState p = false /\ ~ In p visited)
             /\ (forall d, In d [UP; DOWN; LEFT; RIGHT] ->
                   App.cellBlocked board ghostState (getNextPosition pos d) = false ->
                   In (getNextPosition pos d) (rev cells ++ visited))
             /\ search (legalApp board ghostState) (isTarget (Cell end_)) (S fuel)
                       ((pos, firstStep) :: rest) visited
                = search (legalApp board ghostState) (isTarget (Cell end_)) fuel
                         (rest ++ map (fun p => (p, firstStep)) cells)
                         (rev cells ++ visited)).
Proof.
  intros HW HH Hne.
  assert (Hfirst : forall d, In d dirs ->
            App.outOfBounds (getNextPosition start d)
            || App.cellBlocked board ghostState (getNextPosition start d)
            = legalApp board ghostState start (getNextPosition start d)).
  { intros d _. rewrite (outOfBounds_step start d HW HH). reflexivity. }
  split; [ | split ].
  - unfold App.findNextMove, App.findNextMoveTo.
    pose proof (bfs_correct
                  (fun _ nextPos => App.outOfBounds nextPos
                                    || App.cellBlocked board ghostState nextPos)
                  (legalApp board ghostState) (isTarget (Cell end_)) start HW HH
                  Hfirst (isTarget_start start end_ Hne)) as H.
    pose proof (bfs_order
                  (fun _ nextPos => App.outOfBounds nextPos
                                    || App.cellBlocked board ghostState nextPos)
                  (legalApp board ghostState) (isTarget (Cell end_)) start HW HH
                  Hfirst (isTarget_start start end_ Hne)) as Hord.
    destruct (bfs _ _ (isTarget (Cell end_)) start) as [d|].
    + destruct (shortestTo_cell _ start end_ d H) as (Hd & Hfree & Hn).
      split; [ exact Hd | ]. split; [ exact Hfree | ]. split; [ exact Hn | ].
      intros d' k Hd' Hfree' Hw Hmin. apply (Hord d eq_refl).
      exists k, end_. split; [ apply Position_eqb_eq; reflexivity | ].
      split; [ split; [ exact Hd' | split; [ exact Hfree' | exact Hw ] ] | ].
      intros j e' He' Hj. apply Position_eqb_eq in He'. subst e'. exact (Hmin j Hj).
    + exact (unreachable_cell _ start end_ H).
  - unfold App.findNextMove, App.findNextMoveTo, bfs.
    pose proof (firstRing_spec
                  (fun _ nextPos => App.outOfBounds nextPos
                                    || App.cellBlocked board ghostState nextPos)
                  (legalApp board ghostState) (isTarget (Cell end_)) start dirs
                  Hfirst [] [start]) as Hspec.
    pose proof (firstRing_scan
                  (fun _ nextPos => App.outOfBounds nextPos
                                    || App.cellBlocked board ghostState nextPos)
                  (isTarget (Cell end_)) start dirs [] ) as Hscan.
    unfold legalApp in *.
    destruct (firstRing _ _ dirs start [] [start]) as [d | q v] eqn:Hring.
    + left. exists d.
      destruct Hspec as (Hd & _ & Hend).
      split; [ exact Hd | ]. split; [ | reflexivity ].
      apply Position_eqb_eq. exact Hend.
    + right. destruct (Hscan q [start] v Hring) as (Hq & Hv).
      cbv zeta in Hq, Hv. cbn [app] in Hq.
      assert (Hsame :
        filter (fun d => negb (App.outOfBounds (getNextPosition start d)
                               || App.cellBlocked board ghostState
                                    (getNextPosition start d))) dirs
        = filter (fun d => negb (App.cellBlocked board ghostState
                                   (getNextPosition start d)))
                 [UP; DOWN; LEFT; RIGHT]).
      { apply filter_ext_in. intros d Hd. rewrite (Hfirst d Hd). reflexivity. }
      rewrite Hsame in Hq, Hv. cbv zeta. subst q v. reflexivity.
  - intros fuel pos firstStep rest visited. rewrite search_cons.
    pose proof (expand_spec (legalApp board ghostState) (isTarget (Cell end_))
                  HW HH pos firstStep dirs (incl_refl _) rest visited) as Hspec.
    pose proof (expand_scan (legalApp board ghostState) (isTarget (Cell end_))
                  pos firstStep dirs rest) as Hscan.
    unfold QueueItem in *.
    destruct (expand _ _ dirs pos firstStep rest visited) as [d | q' v'] eqn:Hexp.
    + left. destruct Hspec as (-> & _). reflexivity.
    + right. destruct (Hscan q' visited v' Hexp) as (cells & Hq & Hv & Hsub).
      destruct Hspec as (new & Hq' & Hnew & _ & Hdone & _).
      assert (Hcells : new = map (fun p => (p, firstStep)) cells).
      { rewrite Hq in Hq'. apply app_inv_head in Hq'. symmetry. exact Hq'. }
      exists cells. split; [ exact Hsub | ].
      split.
      { intros p Hp.
        assert (Hin : In (p, firstStep) new).
        { rewrite Hcells. apply in_map_iff. exists p. auto. }
        destruct (Hnew p firstStep Hin) as (_ & (d & _ & -> & Hfree) & Hfresh & _).
        split; [ exact Hfree | exact Hfresh ]. }
      split.
      { intros d Hd Hfree. rewrite <- Hv. exact (Hdone d Hd Hfree). }
      rewrite Hq, Hv. reflexivity.
Qed.

(** X25. [findNextMove] of [part_001], whose legal steps are those of
    [isBlockedForGhost], returns the first step of a shortest walk to a goal
    other than the start, and nothing exactly when no walk exists. *)
Lemma Part001_findNextMove_shortest_path (board : Board) (start end_ : Position)
    (ghostState : GhostState) :
  0 < BOARD_WIDTH -> 0 < BOARD_HEIGHT -> start <> end_ ->
  match Part001.findNextMove board start end_ ghostState with
  | Some d =>
      In d dirs
      /\ Part001.isBlockedForGhost start (getNextPosition start d) board ghostState
         = false
      /\ exists n,
           walk (legalPart001 board ghostState) n (getNextPosition start d) end_
           /\ (forall k, walk (legalPart001 board ghostState) k
                              (getNextPosition start d) end_ -> (n <= k)%nat)
           /\ (forall k, walk (legalPart001 board ghostState) k start end_ ->
                         (S n <= k)%nat)
  | None => forall k, ~ walk (legalPart001 board ghostState) k start end_
  end.
Proof.
  intros HW HH Hne. unfold Part001.findNextMove, Part001.findNextMoveTo.
  pose proof (bfs_correct (legalPart001 board ghostState)
                (legalPart001 board ghostState) (isTarget (Cell end_)) start HW HH
                (fun _ _ => eq_refl) (isTarget_start start end_ Hne)) as H.
  unfold legalPart001 in *.
  destruct (bfs _ _ (isTarget (Cell end_)) start) as [d|].
  - exact (shortestTo_cell _ start end_ d H).
  - exact (unreachable_cell _ start end_ H).
Qed.

End FindNextMove.

(** C5, counterexample. With the goal equal to the start cell the search
    returns nothing, although the walk up and back down leads from the start
    to the goal: the start cell is marked visited before the search begins
    and is never compared with the goal. *)
Lemma findNextMove_misses_goal_at_start :
  ~ findNextMoveFindsEveryPath (K := constants3).
Proof.
  intros H. destruct (H board3 (mkPos 1 1) (mkPos 1 1) normal) as [Hnone _].
  apply (Hnone eq_refl 2%nat); [ lia | ].
  apply (walk_cons _ 1 (mkPos 1 1) (mkPos 1 0) (mkPos 1 1)).
  { exists UP. repeat split. left. reflexivity. }
  apply (walk_cons _ 0 (mkPos 1 0) (mkPos 1 1) (mkPos 1 1)).
  { exists DOWN. repeat split. right. left. reflexivity. }
  constructor.
Qed.

Lemma findNextMove_shortest_path_witness :
  match App.findNextMove (K := constants3) boardDoor (mkPos 0 0) (mkPos 2 0) normal with
  | Some d =>
      In d dirs
      /\ App.cellBlocked boardDoor normal (getNextPosition (K := constants3) (mkPos 0 0) d) = false
      /\ (exists n,
            walk (K := constants3) (legalApp boardDoor normal) n (getNextPosition (K := constants3) (mkPos 0 0) d) (mkPos 2 0)
            /\ (forall k, walk (K := constants3) (legalApp boardDoor normal) k
                               (getNextPosition (K := constants3) (mkPos 0 0) d) (mkPos 2 0) -> (n <= k)%nat)
            /\ (forall k, walk (K := constants3) (legalApp boardDoor normal) k (mkPos 0 0) (mkPos 2 0) ->
                          (S n <= k)%nat))
      /\ (forall d' k,
            In d' dirs ->
            App.cellBlocked boardDoor normal (getNextPosition (K := constants3) (mkPos 0 0) d') = false ->
            walk (K := constants3) (legalApp boardDoor normal) k (getNextPosition (K := constants3) (mkPos 0 0) d') (mkPos 2 0) ->
            (forall j, walk (K := constants3) (legalApp boardDoor normal) j (mkPos 0 0) (mkPos 2 0) ->
                       (S k <= j)%nat) ->
            (dirIndex d <= dirIndex d')%nat)
  | None => forall k, ~ walk (K := constants3) (legalApp boardDoor normal) k (mkPos 0 0) (mkPos 2 0)
  end
  /\ ((exists d, In d [UP; DOWN; LEFT; RIGHT]
                 /\ getNextPosition (K := constants3) (mkPos 0 0) d = mkPos 2 0
                 /\ App.findNextMove (K := constants3) boardDoor (mkPos 0 0) (mkPos 2 0) normal = Some d)
      \/ let taken :=
           filter (fun d => negb (App.cellBlocked boardDoor normal
                                    (getNextPosition (K := constants3) (mkPos 0 0) d)))
                  [UP; DOWN; LEFT; RIGHT] in
         App.findNextMove (K := constants3) boardDoor (mkPos 0 0) (mkPos 2 0) normal
         = match search (K := constants3) (legalApp boardDoor normal) (isTarget (Cell (mkPos 2 0)))
                        (searchFuel (K := constants3))
                        (map (fun d => (getNextPosition (K := constants3) (mkPos 0 0) d, d)) taken)
                        (rev (map (getNextPosition (K := constants3) (mkPos 0 0)) taken) ++ [mkPos 0 0])
           with
           | Some r => r
           | None => None
           end)
  /\ (forall fuel pos firstStep rest visited,
        search (K := constants3) (legalApp boardDoor normal) (isTarget (Cell (mkPos 2 0))) (S fuel)
               ((pos, firstStep) :: rest) visited
        = Some (Some firstStep)
        \/ exists cells,
             subseq cells [getNextPosition (K := constants3) pos UP; getNextPosition (K := constants3) pos DOWN;
                           getNextPosition (K := constants3) pos LEFT; getNextPosition (K := constants3) pos RIGHT]
             /\ (forall p, In p cells ->
                   App.cellBlocked boardDoor normal p = false /\ ~ In p visited)
             /\ (forall d, In d [UP; DOWN; LEFT; RIGHT] ->
                   App.cellBlocked boardDoor normal (getNextPosition (K := constants3) pos d) = false ->
                   In (getNextPosition (K := constants3) pos d) (rev cells ++ visited))
             /\ search (K := constants3) (legalApp boardDoor normal) (isTarget (Cell (mkPos 2 0))) (S fuel)
                       ((pos, firstStep) :: rest) visited
                = search (K := constants3) (legalApp boardDoor normal) (isTarget (Cell (mkPos 2 0))) fuel
                         (rest ++ map (fun p => (p, firstStep)) cells)
                         (rev cells ++ visited)).
Proof.
  apply (findNextMove_shortest_path (K := constants3) boardDoor (mkPos 0 0)
           (mkPos 2 0) normal); unfold constants3; cbn; try lia; discriminate.
Defined.

Example findNextMove_wraps_left :
  App.findNextMove (K := constants3) boardDoor (mkPos 0 0) (mkPos 2 0) normal
  = Some LEFT.
Proof. vm_compute. reflexivity. Qed.

(** Ties between shortest walks are broken by the scan order: from the
    centre of an open board to a corner, up-then-left and left-then-up are
    equally short, and the search answers [UP]. *)
Example findNextMove_breaks_ties_upwards :
  App.findNextMove (K := constants3) board3 (mkPos 1 1) (mkPos 0 0) normal = Some UP
  /\ App.findNextMove (K := constants3) board3 (mkPos 1 1) (mkPos 2 2) normal = Some DOWN.
Proof. split; vm_compute; reflexivity. Qed.

(** On the input where [App.tsx] turns the ghost back, [part_001] keeps it
    off the reverse direction. *)
Example Part001_keeps_heading :
  let ghost := ghostAt (mkPos 1 1) RIGHT normal (mkPos 0 1) in
  let pac := mkPacman (mkPos 2 2) RIGHT RIGHT true in
  g_direction (Part001.moveGhost (K := constants3) board3 pac scatter None [ghost] 0 ghost)
  = RIGHT.
Proof. vm_compute. reflexivity. Qed.

(* ----------------------------------------------------------------- *)
(** ** The tick as a whole and the effects that follow it *)

Section Tick.
Context {K : Constants}.

(** A tick changes the player only through [movePacman]: the buffered
    direction survives the tick. *)
Lemma gameTick_keeps_nextDirection (rnd : nat -> nat) (s : State) :
  pacman (App.gameTick rnd s) = App.movePacman (board s) (pacman s)
  /\ p_nextDirection (pacman (App.gameTick rnd s)) = p_nextDirection (pacman s).
Proof.
  assert (Hp : pacman (App.gameTick rnd s) = App.movePacman (board s) (pacman s)).
  { unfold App.gameTick, App.gameTickFrom.
    set (moved := App.moveGhosts rnd s (App.movePacmanCb s s)).
    assert (Hadv : forall env cur, pacman (App.advanceTimers env cur) = pacman cur).
    { intros env cur. unfold App.advanceTimers.
      repeat match goal with
             | |- context [if ?b then _ else _] => destruct b
             | |- context [match ?o with Some _ => _ | None => _ end] => destruct o
             | |- context [let '(_, _) := ?p in _] => destruct p
             end; reflexivity. }
    rewrite Hadv. unfold App.handleCollisions.
    destruct (contactLoop_spec (ghosts s) (p_position (pacman s)) moved)
      as (_ & Hs & _).
    destruct (App.contactLoop (ghosts s) (p_position (pacman s)) moved) as [died c1].
    cbn [snd] in Hs. destruct Hs as (_ & Hpac & _).
    destruct died; [ state_simpl; rewrite Hpac; reflexivity | ].
    unfold App.pelletCheck.
    destruct (cellIs _ PELLET || cellIs _ POWER_PELLET); [ | rewrite Hpac; reflexivity ].
    destruct (cellIs _ PELLET); state_simpl; rewrite Hpac; reflexivity. }
  split; [ exact Hp | ]. rewrite Hp.
  apply movePacman_preserves_nextDirection.
Qed.

(** The effect on [eatenPellets] declares the level won once the counter
    reaches the total; [handleCollisions] itself never does. *)
Lemma pelletsEffect_wins (s : State) :
  0 < TOTAL_PELLETS -> eatenPellets s = TOTAL_PELLETS ->
  gameState (App.pelletsEffect s) = LEVEL_WON.
Proof.
  intros Hpos Heq. unfold App.pelletsEffect. rewrite Heq, Z.eqb_refl.
  replace (TOTAL_PELLETS >? 0) with true by (symmetry; apply Z.gtb_lt; lia).
  reflexivity.
Qed.

(** The effect on [lives] ends the game once no life is left. *)
Lemma livesEffect_ends_game (s : State) :
  lives s <= 0 -> gameState (App.livesEffect s) = GAME_OVER.
Proof.
  intros Hle. unfold App.livesEffect.
  replace (lives s <=? 0) with true by (symmetry; apply Z.leb_le; exact Hle).
  destruct (gameState s) eqn:E; cbn [andb negb]; state_simpl; auto.
Qed.

End Tick.

(* ================================================================= *)
(** * Further properties of the code *)

(* ----------------------------------------------------------------- *)
(** ** The grid *)

Section Grid.
Context {K : Constants}.

(** X1. Whatever the position and the direction, [getNextPosition] returns a
    cell of the board: the tunnel tests bring any coordinate back into
    range. *)
Theorem getNextPosition_lands_on_board (pos : Position) (dir : Direction) :
  0 < BOARD_WIDTH -> 0 < BOARD_HEIGHT ->
  In (getNextPosition pos dir) allCells.
Proof.
  intros HW HH. apply allCells_In. apply getNextPosition_in_range; assumption.
Qed.

(** X2. From a cell of the board a step is addition modulo the size of the
    board, on each axis: the board is a torus. *)
Theorem getNextPosition_is_modular (pos : Position) (dir : Direction) :
  0 <= pos_x pos < BOARD_WIDTH ->
  0 <= pos_y pos < BOARD_HEIGHT ->
  getNextPosition pos dir
  = mkPos ((pos_x pos + fst (stepDelta dir)) mod BOARD_WIDTH)
          ((pos_y pos + snd (stepDelta dir)) mod BOARD_HEIGHT).
Proof.
  intros Hx Hy. destruct pos as [px py]. cbn [pos_x pos_y] in *.
  assert (Hwrap : forall n v, 0 <= v < n ->
            (v + 0) mod n = v
            /\ (v + 1) mod n = (if v + 1 >=? n then 0 else v + 1)
            /\ (v + -1) mod n = (if v - 1 <? 0 then n - 1 else v - 1)).
  { intros n v Hv. split; [ rewrite Z.add_0_r; apply Z.mod_small; lia | ]. split.
    - destruct (v + 1 >=? n) eqn:E; rewrite Z.geb_leb in E.
      + apply Z.leb_le in E. replace (v + 1) with n by lia. apply Z.mod_same. lia.
      + apply Z.leb_gt in E. apply Z.mod_small. lia.
    - destruct (v - 1 <? 0) eqn:E.
      + apply Z.ltb_lt in E. replace (v + -1) with (-1) by lia.
        replace (-1) with (n - 1 + -1 * n) by lia.
        rewrite Z.mod_add by lia. apply Z.mod_small. lia.
      + apply Z.ltb_ge in E. replace (v + -1) with (v - 1) by lia.
        apply Z.mod_small. lia. }
  destruct (Hwrap _ _ Hx) as (Hx0 & Hx1 & Hxm).
  destruct (Hwrap _ _ Hy) as (Hy0 & Hy1 & Hym).
  assert (Hxs : (px <? 0) = false /\ (px >=? BOARD_WIDTH) = false).
  { split; [ apply Z.ltb_ge; lia | rewrite Z.geb_leb; apply Z.leb_gt; lia ]. }
  assert (Hys : (py <? 0) = false /\ (py >=? BOARD_HEIGHT) = false).
  { split; [ apply Z.ltb_ge; lia | rewrite Z.geb_leb; apply Z.leb_gt; lia ]. }
  destruct Hxs as [Hxa Hxb], Hys as [Hya Hyb].
  unfold getNextPosition.
  destruct dir; cbn [pos_x pos_y stepDelta fst snd];
    rewrite ?Hx0, ?Hx1, ?Hxm, ?Hy0, ?Hy1, ?Hym, ?Hxa, ?Hxb, ?Hya, ?Hyb.
  - (* UP *)
    destruct (py - 1 <? 0) eqn:E; [ | f_equal ].
    + replace (BOARD_HEIGHT - 1 >=? BOARD_HEIGHT) with false
        by (symmetry; rewrite Z.geb_leb; apply Z.leb_gt; lia). reflexivity.
    + replace (py - 1 >=? BOARD_HEIGHT) with false
        by (symmetry; rewrite Z.geb_leb; apply Z.leb_gt; lia). reflexivity.
  - (* DOWN *)
    replace (py + 1 <? 0) with false by (symmetry; apply Z.ltb_ge; lia).
    reflexivity.
  - (* LEFT *)
    destruct (px - 1 <? 0) eqn:E; [ | f_equal ].
    + replace (BOARD_WIDTH - 1 >=? BOARD_WIDTH) with false
        by (symmetry; rewrite Z.geb_leb; apply Z.leb_gt; lia). reflexivity.
    + replace (px - 1 >=? BOARD_WIDTH) with false
        by (symmetry; rewrite Z.geb_leb; apply Z.leb_gt; lia). reflexivity.
  - (* RIGHT *)
    replace (px + 1 <? 0) with false by (symmetry; apply Z.ltb_ge; lia).
    reflexivity.
  - reflexivity.
Qed.

End Grid.

(* ----------------------------------------------------------------- *)
(** ** The search: first steps, goals never met, equal end tests *)

Section SearchMore.
Context {K : Constants}.
Variables blockedFirst blocked : Position -> Position -> bool.
Variable isEnd : Position -> bool.
Variable start : Position.

Lemma firstRing_accepts (ds : list Direction) :
  incl ds dirs ->
  forall (q : list QueueItem) (v : list Position),
  (forall p f, In (p, f) q -> accepted blockedFirst start f) ->
  match firstRing blockedFirst isEnd ds start q v with
  | Found d => accepted blockedFirst start d /\ isEnd (getNextPosition start d) = true
  | Continue q' v' =>
      (forall p f, In (p, f) q' -> accepted blockedFirst start f)
      /\ incl v v'
      /\ (List.length q' <= List.length q + List.length ds)%nat
  end.
Proof.
  induction ds as [|d ds IH]; intros Hincl q v Hq.
  - cbn. split; [ exact Hq | split; [ apply incl_refl | lia ] ].
  - assert (Hd : In d dirs) by (apply Hincl; left; reflexivity).
    assert (Hds : incl ds dirs) by (intros e He; apply Hincl; right; exact He).
    cbn [firstRing].
    destruct (blockedFirst start (getNextPosition start d)) eqn:Eb.
    { specialize (IH Hds q v Hq).
      destruct (firstRing blockedFirst isEnd ds start q v); [ exact IH | ].
      destruct IH as (H1 & H2 & H3). split; [ exact H1 | ].
      split; [ exact H2 | cbn [List.length]; lia ]. }
    destruct (isEnd (getNextPosition start d)) eqn:Ee.
    { split; [ split; assumption | exact Ee ]. }
    assert (Hq' : forall p f, In (p, f) (q ++ [(getNextPosition start d, d)]) ->
                              accepted blockedFirst start f).
    { intros p f Hin. apply in_app_or in Hin. destruct Hin as [Hin | [Hin | []]].
      - exact (Hq p f Hin).
      - inversion Hin; subst. split; assumption. }
    specialize (IH Hds _ (getNextPosition start d :: v) Hq').
    destruct (firstRing blockedFirst isEnd ds start
                (q ++ [(getNextPosition start d, d)]) (getNextPosition start d :: v));
      [ exact IH | ].
    destruct IH as (H1 & H2 & H3). split; [ exact H1 | ]. split.
    + intros p Hp. apply H2. right. exact Hp.
    + rewrite length_app in H3. cbn [List.length] in *. lia.
Qed.

Lemma expand_keeps_firstStep (pos : Position) (firstStep : Direction)
    (ds : list Direction) :
  forall (q : list QueueItem) (v : list Position),
  match expand blocked isEnd ds pos firstStep q v with
  | Found d => d = firstStep
  | Continue q' v' =>
      forall p f, In (p, f) q' -> In (p, f) q \/ f = firstStep
  end.
Proof.
  induction ds as [|d ds IH]; intros q v; cbn [expand].
  - intros p f H. left. exact H.
  - destruct (has v (getNextPosition pos d)); [ apply IH | ].
    destruct (blocked pos (getNextPosition pos d)); [ apply IH | ].
    destruct (isEnd (getNextPosition pos d)); [ reflexivity | ].
    specialize (IH (q ++ [(getNextPosition pos d, firstStep)])
                   (getNextPosition pos d :: v)).
    destruct (expand blocked isEnd ds pos firstStep
                (q ++ [(getNextPosition pos d, firstStep)])
                (getNextPosition pos d :: v)); [ exact IH | ].
    intros p f Hin. destruct (IH p f Hin) as [H | H]; [ | right; exact H ].
    apply in_app_or in H. destruct H as [H | [H | []]]; [ left; exact H | ].
    inversion H; subst. right. reflexivity.
Qed.

Lemma search_accepts (fuel : nat) :
  forall (q : list QueueItem) (v : list Position) (d : Direction),
  (forall p f, In (p, f) q -> accepted blockedFirst start f) ->
  search blocked isEnd fuel q v = Some (Some d) -> accepted blockedFirst start d.
Proof.
  induction fuel as [|fuel IH]; intros q v d Hq H; [ discriminate | ].
  destruct q as [| [pos f] rest]; [ discriminate | ].
  cbn [search] in H.
  pose proof (expand_keeps_firstStep pos f dirs rest v) as He.
  destruct (expand blocked isEnd dirs pos f rest v) as [e | q' v'].
  - inversion H; subst. apply (Hq pos). left. reflexivity.
  - apply (IH q' v' d); [ | exact H ].
    intros p g Hin. destruct (He p g Hin) as [Hin' | ->].
    + apply (Hq p). right. exact Hin'.
    + apply (Hq pos). left. reflexivity.
Qed.

(** Whatever the end test, a direction returned by the search is one of the
    four and passed the test of the first loop. *)
Lemma bfs_accepts (d : Direction) :
  bfs blockedFirst blocked isEnd start = Some d -> accepted blockedFirst start d.
Proof.
  unfold bfs. pose proof (firstRing_accepts dirs (incl_refl _) [] [start]) as Hring.
  destruct (firstRing blockedFirst isEnd dirs start [] [start]) as [e | q v].
  - intros H. inversion H; subst. apply Hring. intros p f [].
  - destruct Hring as (Hq & _); [ intros p f [] | ].
    destruct (search blocked isEnd searchFuel q v) as [[e|]|] eqn:Es;
      try discriminate.
    intros H. inversion H; subst. exact (search_accepts _ _ _ _ Hq Es).
Qed.

Hypothesis Hwidth : 0 < BOARD_WIDTH.
Hypothesis Hheight : 0 < BOARD_HEIGHT.

(** The loop never runs out of fuel. *)
Lemma search_runs_to_the_end (fuel : nat) :
  forall (q : list QueueItem) (v : list Position),
  (List.length q + unvisited v < fuel)%nat ->
  search blocked isEnd fuel q v <> None.
Proof.
  induction fuel as [|fuel IH]; intros q v Hfuel; [ lia | ].
  destruct q as [| [pos f] rest]; [ discriminate | ].
  cbn [search].
  pose proof (expand_spec blocked isEnd Hwidth Hheight pos f dirs (incl_refl _) rest v)
    as Hspec.
  destruct (expand blocked isEnd dirs pos f rest v) as [e | q' v']; [ discriminate | ].
  destruct Hspec as (new & _ & _ & _ & _ & Hm).
  apply IH. cbn [List.length] in Hfuel. lia.
Qed.

(** When every end cell of the board is already visited, the loop finds
    nothing: a cell is compared with the end only when it is first seen. *)
Lemma search_skips_visited_ends (fuel : nat) :
  forall (q : list QueueItem) (v : list Position),
  (forall p, In p allCells -> isEnd p = true -> In p v) ->
  (List.length q + unvisited v < fuel)%nat ->
  search blocked isEnd fuel q v = Some None.
Proof.
  induction fuel as [|fuel IH]; intros q v Hends Hfuel; [ lia | ].
  destruct q as [| [pos f] rest]; [ reflexivity | ].
  cbn [search].
  pose proof (expand_spec blocked isEnd Hwidth Hheight pos f dirs (incl_refl _) rest v)
    as Hspec.
  destruct (expand blocked isEnd dirs pos f rest v) as [e | q' v'].
  - exfalso. destruct Hspec as (_ & r & (d & _ & -> & _) & Hre & Hrv).
    apply Hrv. apply Hends; [ | exact Hre ].
    apply allCells_In. apply getNextPosition_in_range; assumption.
  - destruct Hspec as (new & _ & _ & Hv & _ & Hm).
    apply IH; [ | cbn [List.length] in Hfuel; lia ].
    intros p Hp He. apply Hv. left. exact (Hends p Hp He).
Qed.

(** If no neighbour of [start] passes the end test and every end cell of the
    board is [start] itself or off the board, the search returns nothing. *)
Lemma bfs_skips_visited_ends :
  (forall d, In d dirs -> isEnd (getNextPosition start d) = false) ->
  (forall p, In p allCells -> isEnd p = true -> p = start) ->
  bfs blockedFirst blocked isEnd start = None.
Proof.
  intros Hring Hends. unfold bfs.
  pose proof (firstRing_accepts dirs (incl_refl _) [] [start]) as Hacc.
  destruct (firstRing blockedFirst isEnd dirs start [] [start]) as [e | q v].
  - destruct Hacc as ((He & _) & Hend); [ intros p f [] | ].
    rewrite (Hring e He) in Hend. discriminate.
  - destruct Hacc as (_ & Hv & Hlen); [ intros p f [] | ].
    rewrite (search_skips_visited_ends searchFuel q v); [ reflexivity | | ].
    + intros p Hp He. apply Hv. left. symmetry. exact (Hends p Hp He).
    + pose proof (unvisited_le v). unfold searchFuel.
      cbn [List.length dirs] in Hlen. lia.
Qed.

End SearchMore.

Section SearchExt.
Context {K : Constants}.
Variables blockedFirst blocked : Position -> Position -> bool.
Variables isEnd isEnd' : Position -> bool.
Hypothesis Hsame : forall p, isEnd p = isEnd' p.

Lemma firstRing_ext (ds : list Direction) (start : Position) :
  forall q v,
  firstRing blockedFirst isEnd ds start q v
  = firstRing blockedFirst isEnd' ds start q v.
Proof.
  induction ds as [|d ds IH]; intros q v; cbn [firstRing]; [ reflexivity | ].
  rewrite Hsame, !IH. reflexivity.
Qed.

Lemma expand_ext (ds : list Direction) (pos : Position) (f : Direction) :
  forall q v,
  expand blocked isEnd ds pos f q v = expand blocked isEnd' ds pos f q v.
Proof.
  induction ds as [|d ds IH]; intros q v; cbn [expand]; [ reflexivity | ].
  rewrite Hsame, !IH. reflexivity.
Qed.

Lemma search_ext (fuel : nat) :
  forall q v, search blocked isEnd fuel q v = search blocked isEnd' fuel q v.
Proof.
  induction fuel as [|fuel IH]; intros q v; cbn [search]; [ reflexivity | ].
  destruct q as [| [pos f] rest]; [ reflexivity | ].
  rewrite expand_ext. destruct (expand blocked isEnd' dirs pos f rest v); auto.
Qed.

(** The search depends on the end test only through its values. *)
Lemma bfs_ext (start : Position) :
  bfs blockedFirst blocked isEnd start = bfs blockedFirst blocked isEnd' start.
Proof.
  unfold bfs. rewrite firstRing_ext.
  destruct (firstRing blockedFirst isEnd' dirs start [] [start]); [ reflexivity | ].
  rewrite search_ext. reflexivity.
Qed.

End SearchExt.

(* ----------------------------------------------------------------- *)
(** ** [findNextMove] on particular goals *)

Lemma Qred_integer (n : Z) : Qred (n # 1) = n # 1.
Proof.
  unfold Qred.
  pose proof (Z.ggcd_gcd n 1) as Hg.
  pose proof (Z.ggcd_correct_divisors n 1) as Hd.
  destruct (Z.ggcd n 1) as [g [a b]]. cbn [fst snd] in *.
  rewrite Z.gcd_1_r in Hg. subst g. destruct Hd as [Ha Hb].
  rewrite Z.mul_1_l in Ha, Hb. subst a b. reflexivity.
Qed.

Lemma string_of_Z_not_undefined (z : Z) : string_of_Z z <> "undefined"%string.
Proof.
  unfold string_of_Z. intros H.
  destruct (to_int_not_nil z) as [H1 H2].
  pose proof (NilZero.isi _ H1 H2) as E. rewrite H in E. discriminate.
Qed.

Lemma keyMatches_integers (n m : Z) (p : Position) :
  keyMatches (JObj [("x", JNum (n # 1)); ("y", JNum (m # 1))]%string) p
  = Position_eqb p (mkPos n m).
Proof.
  unfold keyMatches. cbn [propName assocLast fold_left fst snd String.eqb
                          Ascii.eqb Bool.eqb jsStringOpt jsString].
  rewrite !Qred_integer. cbn [Qden Qnum Pos.eqb].
  exact (stringify_eqb p (mkPos n m)).
Qed.

Lemma comma_inside (s t : string) :
  commaFree (s ++ String ","%char t) = false.
Proof.
  induction s as [|c s IH]; cbn [append commaFree].
  - reflexivity.
  - rewrite IH. apply andb_false_r.
Qed.

(** As [comma_split], with the comma-free parts on one side only. *)
Lemma comma_split_one_side (a b s t : string) :
  commaFree a = true -> commaFree b = true -> commaFree t = true ->
  (a ++ "," ++ b = s ++ "," ++ t)%string ->
  a = s /\ b = t.
Proof.
  intros Ha Hb Ht. revert s. induction a as [|c a IH]; intros [|c' s] E;
    cbn [append] in E.
  - injection E as Hrest. auto.
  - injection E as Hc Hrest. subst.
    pose proof (comma_inside s t) as Hin. congruence.
  - injection E as Hc Hrest. subst. cbn in Ha. discriminate.
  - injection E as Hc Hrest. subst. cbn in Ha. apply andb_true_iff in Ha.
    destruct (IH (proj2 Ha) s Hrest) as [-> ->]. auto.
Qed.

Lemma keyMatches_without_coordinate (v : Json) (p : Position) :
  propName v "x" = None \/ propName v "y" = None ->
  keyMatches v p = false.
Proof.
  intros H. unfold keyMatches.
  destruct (jsStringOpt (propName v "x")) as [sx|] eqn:Ex; [ | reflexivity ].
  destruct (jsStringOpt (propName v "y")) as [sy|] eqn:Ey; [ | reflexivity ].
  apply String.eqb_neq. unfold stringify. intros E.
  destruct H as [H | H]; rewrite H in *; cbn in Ex, Ey.
  - inversion Ex; subst sx.
    apply comma_split in E; [ | apply string_of_Z_commaFree | reflexivity ].
    exact (string_of_Z_not_undefined _ (proj1 E)).
  - inversion Ey; subst sy.
    apply comma_split_one_side in E;
      [ | apply string_of_Z_commaFree | apply string_of_Z_commaFree | reflexivity ].
    exact (string_of_Z_not_undefined _ (proj2 E)).
Qed.

Section Goals.
Context {K : Constants}.

Lemma step_leaves_cell (p : Position) (d : Direction) :
  2 <= BOARD_WIDTH -> 2 <= BOARD_HEIGHT -> In d dirs ->
  getNextPosition p d <> p.
Proof.
  intros HW HH Hd E. destruct p as [px py].
  unfold getNextPosition in E. cbn [pos_x pos_y] in E.
  destruct Hd as [<- | [<- | [<- | [<- | []]]]]; inversion E as [[Ex Ey]];
    repeat match goal with
           | H : context [if ?b then _ else _] |- _ =>
               lazymatch b with
               | context [if _ then _ else _] => fail
               | _ => let E := fresh "E" in destruct b eqn:E
               end
           end; lia.
Qed.

(** X3. Whatever the destination, a direction returned by [findNextMove] is
    one of up, down, left and right, and the cell it leads to from the start
    is inside the board and passes the cell test of the search. *)
Theorem findNextMoveTo_first_step_is_legal (board : Board) (start : Position)
    (target : Target) (ghostState : GhostState) (d : Direction) :
  App.findNextMoveTo board start target ghostState = Some d ->
  In d dirs
  /\ App.outOfBounds (getNextPosition start d) = false
  /\ App.cellBlocked board ghostState (getNextPosition start d) = false.
Proof.
  unfold App.findNextMoveTo. intros H.
  apply bfs_accepts in H. destruct H as [Hd Hb].
  apply orb_false_iff in Hb. tauto.
Qed.

(** X4. On a board at least two cells wide and high, [findNextMove] asked for
    the start cell itself returns nothing: the start is marked visited and
    never compared with the goal. *)
Theorem findNextMove_to_start_is_null (board : Board) (start : Position)
    (ghostState : GhostState) :
  2 <= BOARD_WIDTH -> 2 <= BOARD_HEIGHT ->
  App.findNextMove board start start ghostState = None.
Proof.
  intros HW HH. unfold App.findNextMove, App.findNextMoveTo.
  apply bfs_skips_visited_ends; try lia.
  - intros d Hd. cbn. destruct (Position_eqb (getNextPosition start d) start) eqn:E;
      [ | reflexivity ].
    apply Position_eqb_eq in E. exfalso. exact (step_leaves_cell start d HW HH Hd E).
  - intros p _ Hp. apply Position_eqb_eq in Hp. exact Hp.
Qed.

(** X5. A goal outside the board is never found: [findNextMove] returns
    nothing, whatever the board and the start. *)
Theorem findNextMove_off_board_is_null (board : Board) (start end_ : Position)
    (ghostState : GhostState) :
  0 < BOARD_WIDTH -> 0 < BOARD_HEIGHT ->
  pos_x end_ < 0 \/ BOARD_WIDTH <= pos_x end_
  \/ pos_y end_ < 0 \/ BOARD_HEIGHT <= pos_y end_ ->
  App.findNextMove board start end_ ghostState = None.
Proof.
  intros HW HH Hout. unfold App.findNextMove, App.findNextMoveTo.
  assert (Hcell : forall p, In p allCells -> isTarget (Cell end_) p = false).
  { intros p Hp. cbn. destruct (Position_eqb p end_) eqn:E; [ | reflexivity ].
    apply Position_eqb_eq in E. subst. apply allCells_In in Hp. lia. }
  apply bfs_skips_visited_ends; try assumption.
  - intros d _. apply Hcell. apply allCells_In.
    apply getNextPosition_in_range; assumption.
  - intros p Hp He. rewrite (Hcell p Hp) in He. discriminate.
Qed.

(** X6. An advisory entry whose [x] and [y] are the integers [n] and [m] is
    searched for exactly like the cell [(n, m)]. *)
Theorem advised_integers_are_a_cell (board : Board) (start : Position)
    (n m : Z) (ghostState : GhostState) :
  App.findNextMoveTo board start
    (Advised (JObj [("x", JNum (n # 1)); ("y", JNum (m # 1))]%string)) ghostState
  = App.findNextMove board start (mkPos n m) ghostState.
Proof.
  unfold App.findNextMove, App.findNextMoveTo. apply bfs_ext.
  intros p. cbn [isTarget]. apply keyMatches_integers.
Qed.

(** X7. With an advisory entry that lacks [x] or [y], a ghost in normal state
    that chases walks straight on: the search finds nothing and [moveGhosts]
    falls back on the direction the ghost has, without looking at the cell
    ahead. *)
Theorem entry_without_coordinates_sends_ghost_ahead
    (board : Board) (pacman : Pacman) (geminiTargets : option Json)
    (currentGhosts : list Ghost) (r : nat) (ghost : Ghost) (v : Json) :
  0 < BOARD_WIDTH -> 0 < BOARD_HEIGHT ->
  g_state ghost = normal ->
  advisoryFor geminiTargets (g_id ghost) = Some v ->
  propName v "x" = None \/ propName v "y" = None ->
  App.moveGhost board pacman chase geminiTargets currentGhosts r ghost
  = withGhostMove (getNextPosition (g_position ghost) (g_direction ghost))
                  (g_direction ghost) ghost.
Proof.
  intros HW HH Hst Hadv Hmiss. unfold App.moveGhost. rewrite Hst.
  unfold targetPos. rewrite Hadv. unfold App.findNextMoveTo.
  rewrite bfs_skips_visited_ends; try assumption; try reflexivity.
  - intros d _. apply keyMatches_without_coordinate. exact Hmiss.
  - intros p _ Hp. cbn [isTarget] in Hp.
    rewrite (keyMatches_without_coordinate v p Hmiss) in Hp. discriminate.
Qed.

End Goals.

(* ----------------------------------------------------------------- *)
(** ** Ghost motion *)

Section GhostMotion.
Context {K : Constants}.

(** X8. Whatever the draw, a frightened ghost with a valid direction takes
    one of them: it does not turn back, the cell it moves to is neither a
    wall nor a ghost-home cell, and it stays frightened. *)
Theorem frightened_ghost_takes_valid_direction
    (board : Board) (pacman : Pacman) (ghostMode : GhostMode)
    (geminiTargets : option Json) (currentGhosts : list Ghost) (r : nat)
    (ghost : Ghost) :
  let moved := App.moveGhost board pacman ghostMode geminiTargets currentGhosts
                             r ghost in
  g_state ghost = frightened ->
  App.validDirections board ghost <> [] ->
  In (g_direction moved) dirs
  /\ g_direction moved <> oppositeDirection (g_direction ghost)
  /\ g_position moved = getNextPosition (g_position ghost) (g_direction moved)
  /\ cellIs (cellAt board (g_position moved)) WALL = false
  /\ cellIs (cellAt board (g_position moved)) GHOST_HOME = false
  /\ g_state moved = frightened.
Proof.
  cbv zeta. intros Hst Hvalid. unfold App.moveGhost. rewrite Hst.
  set (valid := App.validDirections board ghost) in *.
  assert (Hlen : (0 < List.length valid)%nat)
    by (destruct valid; [ congruence | cbn; lia ]).
  replace (0 <? List.length valid)%nat with true
    by (symmetry; apply Nat.ltb_lt; exact Hlen).
  set (d := nth (r mod List.length valid) valid NONE).
  assert (Hd : In d valid).
  { apply nth_In. apply Nat.mod_upper_bound. lia. }
  unfold valid, App.validDirections in Hd. apply filter_In in Hd.
  destruct Hd as [Hdirs Hd]. apply andb_true_iff in Hd. destruct Hd as [Hrev Hcell].
  apply andb_true_iff in Hcell. destruct Hcell as [Hwall Hhome].
  cbn [g_direction g_position g_state withGhostMove].
  split; [ exact Hdirs | ]. split.
  { intros E. rewrite E in Hrev.
    assert (Direction_eqb (oppositeDirection (g_direction ghost))
                          (oppositeDirection (g_direction ghost)) = true)
      by (destruct (oppositeDirection (g_direction ghost)); reflexivity).
    rewrite H in Hrev. discriminate. }
  split; [ reflexivity | ].
  split; [ apply negb_true_iff; exact Hwall | ].
  split; [ apply negb_true_iff; exact Hhome | exact Hst ].
Qed.

(** X9. In [part_001] every move is validated: after [moveGhosts] a ghost is
    where it was or on a neighbouring cell that [isBlockedForGhost] lets it
    enter, facing the direction it took. *)
Theorem Part001_ghost_moves_are_validated
    (board : Board) (pacman : Pacman) (ghostMode : GhostMode)
    (geminiTargets : option Json) (currentGhosts : list Ghost) (r : nat)
    (ghost : Ghost) :
  let moved := Part001.moveGhost board pacman ghostMode geminiTargets
                                 currentGhosts r ghost in
  g_position moved = g_position ghost
  \/ (In (g_direction moved) dirs
      /\ g_position moved = getNextPosition (g_position ghost) (g_direction moved)
      /\ Part001.isBlockedForGhost (g_position ghost) (g_position moved) board
           (g_state ghost) = false).
Proof.
  cbv zeta.
  assert (Hstep : forall step,
            (forall p d, step = Some (p, d) ->
               Part001.safeGhostStep (g_position ghost) d board (g_state ghost)
               = Some (p, d)) ->
            g_position (Part001.applyStep step ghost) = g_position ghost
            \/ (In (g_direction (Part001.applyStep step ghost)) dirs
                /\ g_position (Part001.applyStep step ghost)
                   = getNextPosition (g_position ghost)
                       (g_direction (Part001.applyStep step ghost))
                /\ Part001.isBlockedForGhost (g_position ghost)
                     (g_position (Part001.applyStep step ghost)) board
                     (g_state ghost) = false)).
  { intros [[p d]|] Hs; [ | left; reflexivity ].
    right. specialize (Hs p d eq_refl). apply safeGhostStep_Some in Hs.
    destruct Hs as (_ & HdN & -> & Hfree). cbn.
    split; [ destruct d; cbn; tauto | split; [ reflexivity | exact Hfree ] ]. }
  assert (Hsafe : forall e p d,
            Part001.safeGhostStep (g_position ghost) e board (g_state ghost)
            = Some (p, d) ->
            Part001.safeGhostStep (g_position ghost) d board (g_state ghost)
            = Some (p, d)).
  { intros e p d H. pose proof (safeGhostStep_Some _ _ _ _ _ _ H) as (-> & _).
    exact H. }
  assert (Htry : forall l p d,
            Part001.tryGhostMoves (g_position ghost) l board (g_state ghost)
            = Some (p, d) ->
            Part001.safeGhostStep (g_position ghost) d board (g_state ghost)
            = Some (p, d)).
  { intros l p d H. apply tryGhostMoves_Some in H. tauto. }
  unfold Part001.moveGhost.
  destruct (g_state ghost) eqn:Hst.
  - (* normal *)
    match goal with
    | |- context [Part001.findNextMoveTo ?b ?s ?t ?st] =>
        destruct (Part001.findNextMoveTo b s t st) as [best|]
    end; [ | apply Hstep; apply Htry ].
    destruct (Part001.truthyDir (Some best) && _); [ | apply Hstep; apply Htry ].
    destruct (Part001.safeGhostStep (g_position ghost) best board normal)
      as [[p d]|] eqn:Es; [ | apply Hstep; apply Htry ].
    apply (Hstep (Some (p, d))). intros p' d' E. inversion E; subst.
    exact (Hsafe _ _ _ Es).
  - (* frightened *)
    apply Hstep. intros p d. apply Hsafe.
  - (* eaten *)
    destruct (Position_eqb (g_position ghost) (g_spawn ghost));
      [ left; reflexivity | ].
    destruct (Part001.findNextMove board (g_position ghost) (g_spawn ghost) eaten)
      as [best|]; [ | apply Hstep; apply Htry ].
    destruct (Part001.truthyDir (Some best)); apply Hstep;
      [ intros p d; apply Hsafe | apply Htry ].
Qed.

(** X10. [tryGhostMoves] takes the first candidate that is a legal step: the
    candidates before it all fail, and it returns nothing only when every
    candidate fails. *)
Theorem tryGhostMoves_takes_first_legal (pos : Position)
    (candidates : list Direction) (board : Board) (state : GhostState) :
  match Part001.tryGhostMoves pos candidates board state with
  | Some (p, d) =>
      exists before after,
        candidates = before ++ d :: after
        /\ (forall e, In e before ->
              Part001.safeGhostStep pos e board state = None)
        /\ Part001.safeGhostStep pos d board state = Some (p, d)
  | None =>
      forall e, In e candidates -> Part001.safeGhostStep pos e board state = None
  end.
Proof.
  induction candidates as [|c cs IH]; cbn [Part001.tryGhostMoves].
  - intros e [].
  - destruct (Part001.safeGhostStep pos c board state) as [[p d]|] eqn:Ec.
    + pose proof (safeGhostStep_Some _ _ _ _ _ _ Ec) as (-> & _).
      exists [], cs. split; [ reflexivity | ]. split; [ intros e [] | exact Ec ].
    + destruct (Part001.tryGhostMoves pos cs board state) as [[p d]|].
      * destruct IH as (before & after & -> & Hb & Hd).
        exists (c :: before), after. split; [ reflexivity | ].
        split; [ | exact Hd ].
        intros e [<- | He]; [ exact Ec | exact (Hb e He) ].
      * intros e [<- | He]; [ exact Ec | exact (IH e He) ].
Qed.

Lemma tryGhostMoves_all_fail (pos : Position)
    (candidates : list Direction) (board : Board) (state : GhostState) :
  (forall e, In e candidates -> Part001.safeGhostStep pos e board state = None) ->
  Part001.tryGhostMoves pos candidates board state = None.
Proof.
  induction candidates as [|c cs IH]; intros H; cbn [Part001.tryGhostMoves].
  - reflexivity.
  - rewrite (H c (or_introl eq_refl)). apply IH. intros e He. apply H. right. exact He.
Qed.

(** X11. In [part_001] a ghost in normal state at a dead end does not move:
    when every direction other than the reverse is blocked, [moveGhosts]
    returns the ghost as it was. *)
Theorem Part001_normal_ghost_waits_in_dead_end
    (board : Board) (pacman : Pacman) (ghostMode : GhostMode)
    (geminiTargets : option Json) (currentGhosts : list Ghost) (r : nat)
    (ghost : Ghost) :
  g_state ghost = normal ->
  (forall d, In d dirs -> d <> oppositeDirection (g_direction ghost) ->
     Part001.isBlockedForGhost (g_position ghost)
       (getNextPosition (g_position ghost) d) board normal = true) ->
  Part001.moveGhost board pacman ghostMode geminiTargets currentGhosts r ghost
  = ghost.
Proof.
  intros Hst Hdead.
  assert (Hfail : forall d, d <> oppositeDirection (g_direction ghost) ->
            Part001.safeGhostStep (g_position ghost) d board normal = None).
  { intros d Hd. unfold Part001.safeGhostStep.
    destruct d; try reflexivity; rewrite Hdead; auto; cbn; tauto. }
  set (cands := filter (fun e => negb (Direction_eqb e (oppositeDirection (g_direction ghost)))) dirs).
  assert (Hcand : forall e, In e cands -> e <> oppositeDirection (g_direction ghost)).
  { intros e He. apply filter_In in He. destruct He as [_ He].
    intros ->. rewrite Direction_eqb_refl in He. discriminate. }
  assert (Hfallback :
    Part001.applyStep
      (Part001.tryGhostMoves (g_position ghost)
         (g_direction ghost
          :: filter (fun e => negb (Direction_eqb e (g_direction ghost))) cands)
         board normal) ghost = ghost).
  { pose proof (tryGhostMoves_all_fail (g_position ghost)
                  (g_direction ghost
                   :: filter (fun e => negb (Direction_eqb e (g_direction ghost))) cands)
                  board normal) as Hall.
    rewrite Hall; [ reflexivity | ].
    intros e [<- | He].
    - destruct (g_direction ghost) eqn:Ed; try reflexivity;
        apply Hfail; rewrite ?Ed; discriminate.
    - apply filter_In in He. apply Hfail. apply Hcand. tauto. }
  unfold Part001.moveGhost. rewrite Hst. fold cands.
  destruct (Part001.findNextMoveTo board (g_position ghost)
              (targetPos pacman ghostMode geminiTargets currentGhosts ghost) normal)
    as [best|]; [ | exact Hfallback ].
  destruct (Part001.truthyDir (Some best) && existsb (Direction_eqb best) cands)
    eqn:Ebest; [ | exact Hfallback ].
  apply andb_true_iff in Ebest. destruct Ebest as [_ Hex].
  apply existsb_exists in Hex. destruct Hex as (e & He & Heq).
  apply Direction_eqb_eq in Heq. subst e.
  rewrite (Hfail best (Hcand _ He)). exact Hfallback.
Qed.

(** X12. The player moves the same way in both revisions. *)
Theorem Part001_movePacman_agrees (board : Board) (p : Pacman) :
  Part001.movePacman board p = App.movePacman board p.
Proof.
  unfold Part001.movePacman, App.movePacman.
  destruct (isWall (getNextPosition (p_position p) (p_nextDirection p)) board)
    eqn:Enext; cbn [negb].
  - destruct (isWall (getNextPosition (p_position p) (p_direction p)) board);
      reflexivity.
  - rewrite Enext. reflexivity.
Qed.

(** X13. Outside the chase the move of a ghost depends on nothing but the
    board, the draw and the ghost: in scatter mode, frightened or eaten, it
    ignores the player, the other ghosts and the advisory targets. *)
Theorem moveGhost_ignores_targets_outside_chase
    (board : Board) (ghostMode : GhostMode) (r : nat) (ghost : Ghost)
    (pacman pacman' : Pacman) (targets targets' : option Json)
    (others others' : list Ghost) :
  g_state ghost <> normal \/ ghostMode = scatter ->
  App.moveGhost board pacman ghostMode targets others r ghost
  = App.moveGhost board pacman' ghostMode targets' others' r ghost.
Proof.
  intros H. unfold App.moveGhost.
  destruct (g_state ghost); try reflexivity.
  destruct H as [H | ->]; [ congruence | ]. reflexivity.
Qed.

(** X14. For the flanker (id 3) the pivot, two cells ahead of the player, is
    the midpoint of Blinky's cell and the target. *)
Theorem flanker_target_mirrors_blinky (ghost blinky : Ghost) (pacman : Pacman)
    (ghosts : list Ghost) :
  g_id ghost = 3 ->
  find (fun g => g_id g =? 1) ghosts = Some blinky ->
  let target := getChaseTarget ghost pacman ghosts in
  let pp := p_position pacman in
  pos_x target + pos_x (g_position blinky)
  = 2 * (pos_x pp + 2 * fst (stepDelta (p_direction pacman)))
  /\ pos_y target + pos_y (g_position blinky)
     = 2 * (pos_y pp + 2 * snd (stepDelta (p_direction pacman))).
Proof.
  intros Hid Hb. cbv zeta. unfold getChaseTarget. rewrite Hid, Hb.
  cbn [Z.eqb Pos.eqb].
  destruct (p_direction pacman); cbn [pos_x pos_y stepDelta fst snd]; lia.
Qed.

End GhostMotion.

(* ----------------------------------------------------------------- *)
(** ** One tick, as a whole *)

Section WholeTick.
Context {K : Constants}.

Lemma advanceTimers_frame (env cur : State) :
  pacman (App.advanceTimers env cur) = pacman cur
  /\ score (App.advanceTimers env cur) = score cur
  /\ lives (App.advanceTimers env cur) = lives cur
  /\ gameState (App.advanceTimers env cur) = gameState cur
  /\ geminiTargets (App.advanceTimers env cur) = geminiTargets cur
  /\ hiveMindStatus (App.advanceTimers env cur) = hiveMindStatus cur
  /\ (ghosts (App.advanceTimers env cur) = ghosts cur
      \/ ghosts (App.advanceTimers env cur) = map App.unfrighten (ghosts cur)).
Proof.
  unfold App.advanceTimers.
  repeat match goal with
         | |- context [if ?b then _ else _] => destruct b
         | |- context [match ?o with Some _ => _ | None => _ end] => destruct o
         | |- context [let '(_, _) := ?p in _] => destruct p
         end; state_simpl; repeat split; auto.
Qed.

Lemma caughtBefore_nonneg (gs : list Ghost) (pac : Position) :
  0 <= caughtBefore gs pac.
Proof.
  induction gs as [|g gs IH]; cbn [caughtBefore]; [ lia | ].
  destruct (Position_eqb (g_position g) pac); [ | exact IH ].
  destruct (g_state g); lia.
Qed.

(** The state on which the timers of a tick act. *)
Lemma gameTick_unfold (rnd : nat -> nat) (s : State) :
  App.gameTick rnd s
  = App.advanceTimers s
      (App.handleCollisions s (App.moveGhosts rnd s (App.movePacmanCb s s))).
Proof. reflexivity. Qed.

Lemma gameTick_counters (rnd : nat -> nat) (s : State) :
  let pos := p_position (pacman s) in
  let fatal := fatalContact (ghosts s) pos in
  let s' := App.gameTick rnd s in
  score s <= score s'
  /\ score s' = score s + 200 * caughtBefore (ghosts s) pos
                + (if fatal then 0 else pelletPoints (cellAt (board s) pos))
  /\ lives s' = lives s - (if fatal then 1 else 0)
  /\ gameState s' = (if fatal then PAUSED else gameState s).
Proof.
  cbv zeta. rewrite gameTick_unfold.
  set (moved := App.moveGhosts rnd s (App.movePacmanCb s s)).
  destruct (advanceTimers_frame s (App.handleCollisions s moved))
    as (_ & Hsc & Hl & Hg & _).
  rewrite Hsc, Hl, Hg.
  pose proof (handleCollisions_cases s moved) as H. cbv zeta in H.
  pose proof (caughtBefore_nonneg (ghosts s) (p_position (pacman s))) as Hc.
  assert (Hms : score moved = score s) by reflexivity.
  assert (Hml : lives moved = lives s) by reflexivity.
  assert (Hmg : gameState moved = gameState s) by reflexivity.
  destruct (fatalContact (ghosts s) (p_position (pacman s))).
  - destruct H as (Hl' & Hg' & _ & _ & _ & Hs').
    rewrite Hs', Hl', Hg', Hms, Hml. repeat split; lia.
  - destruct H as (Hl' & Hg' & Hs' & _).
    rewrite Hs', Hl', Hg', Hms, Hml, Hmg.
    assert (0 <= pelletPoints (cellAt (board s) (p_position (pacman s))))
      by (destruct (cellAt (board s) (p_position (pacman s))) as [[]|]; cbn; lia).
    repeat split; lia.
Qed.

(** X15. In one tick the score never goes down and at most one life is
    lost: a life is lost, and the game paused, exactly when a ghost in
    normal state stands on the cell the player had before the tick;
    otherwise the score grows by the pellet on that cell and by 200 for
    every frightened ghost on it. *)
Theorem tick_score_and_lives (rnd : nat -> nat) (s : State) :
  let pos := p_position (pacman s) in
  let fatal := fatalContact (ghosts s) pos in
  let s' := App.gameTick rnd s in
  score s <= score s'
  /\ score s' = score s + 200 * caughtBefore (ghosts s) pos
                + (if fatal then 0 else pelletPoints (cellAt (board s) pos))
  /\ lives s' = lives s - (if fatal then 1 else 0)
  /\ gameState s' = (if fatal then PAUSED else gameState s).
Proof. exact (gameTick_counters rnd s). Qed.

Lemma ghostIdentity_moveGhost (board : Board) (pacman : Pacman)
    (ghostMode : GhostMode) (geminiTargets : option Json)
    (currentGhosts : list Ghost) (r : nat) (ghost : Ghost) :
  ghostIdentity (App.moveGhost board pacman ghostMode geminiTargets
                   currentGhosts r ghost)
  = ghostIdentity ghost.
Proof.
  unfold App.moveGhost.
  destruct (g_state ghost); [ reflexivity | reflexivity | ].
  destruct (Position_eqb (g_position ghost) (g_spawn ghost)); reflexivity.
Qed.

Lemma ghostIdentity_moveGhostsFrom (board : Board) (pacman : Pacman)
    (ghostMode : GhostMode) (geminiTargets : option Json)
    (currentGhosts : list Ghost) (rnd : nat -> nat) (gs : list Ghost) :
  forall i,
  map ghostIdentity (App.moveGhostsFrom i board pacman ghostMode geminiTargets
                       currentGhosts rnd gs)
  = map ghostIdentity gs.
Proof.
  induction gs as [|g gs IH]; intros i; cbn [App.moveGhostsFrom map].
  - reflexivity.
  - rewrite ghostIdentity_moveGhost, IH. reflexivity.
Qed.

Lemma ghostIdentity_map (f : Ghost -> Ghost) (gs : list Ghost) :
  (forall g, ghostIdentity (f g) = ghostIdentity g) ->
  map ghostIdentity (map f gs) = map ghostIdentity gs.
Proof.
  intros Hf. rewrite map_map. apply map_ext. exact Hf.
Qed.

Lemma ghostIdentity_markEaten (id : Z) (g : Ghost) :
  ghostIdentity (App.markEaten id g) = ghostIdentity g.
Proof. unfold App.markEaten. destruct (g_id g =? id); reflexivity. Qed.

Lemma ghostIdentity_frighten (g : Ghost) :
  ghostIdentity (App.frighten g) = ghostIdentity g.
Proof. unfold App.frighten. destruct (g_state g); reflexivity. Qed.

Lemma ghostIdentity_unfrighten (g : Ghost) :
  ghostIdentity (App.unfrighten g) = ghostIdentity g.
Proof. unfold App.unfrighten. destruct (g_state g); reflexivity. Qed.

Lemma ghostIdentity_contactLoop (gs : list Ghost) (pac : Position) :
  forall cur,
  map ghostIdentity (ghosts (snd (App.contactLoop gs pac cur)))
  = map ghostIdentity (ghosts cur).
Proof.
  induction gs as [|g gs IH]; intros cur; cbn [App.contactLoop]; [ reflexivity | ].
  destruct (Position_eqb (g_position g) pac); [ | apply IH ].
  destruct (g_state g); [ reflexivity | | apply IH ].
  rewrite IH. state_simpl. apply ghostIdentity_map. apply ghostIdentity_markEaten.
Qed.

Lemma ghostIdentity_handleCollisions (env cur : State) :
  map ghostIdentity (ghosts (App.handleCollisions env cur))
  = map ghostIdentity (ghosts cur).
Proof.
  unfold App.handleCollisions.
  pose proof (ghostIdentity_contactLoop (ghosts env) (p_position (pacman env)) cur)
    as Hc.
  destruct (App.contactLoop (ghosts env) (p_position (pacman env)) cur)
    as [died c1]. cbn [snd] in Hc.
  destruct died; [ state_simpl; exact Hc | ].
  unfold App.pelletCheck.
  destruct (cellIs _ PELLET || cellIs _ POWER_PELLET); [ | exact Hc ].
  destruct (cellIs _ PELLET); state_simpl; [ exact Hc | ].
  rewrite ghostIdentity_map; [ exact Hc | apply ghostIdentity_frighten ].
Qed.

Lemma ghostIdentity_gameTick (rnd : nat -> nat) (s : State) :
  map ghostIdentity (ghosts (App.gameTick rnd s)) = map ghostIdentity (ghosts s).
Proof.
  rewrite gameTick_unfold.
  set (moved := App.moveGhosts rnd s (App.movePacmanCb s s)).
  assert (Hmoved : map ghostIdentity (ghosts moved) = map ghostIdentity (ghosts s)).
  { unfold moved, App.moveGhosts, App.movePacmanCb. state_simpl.
    apply ghostIdentity_moveGhostsFrom. }
  pose proof (ghostIdentity_handleCollisions s moved) as Hh.
  destruct (advanceTimers_frame s (App.handleCollisions s moved))
    as (_ & _ & _ & _ & _ & _ & [Hg | Hg]); rewrite Hg.
  - congruence.
  - rewrite ghostIdentity_map; [ congruence | apply ghostIdentity_unfrighten ].
Qed.

(** X16. A tick never writes the advisory targets nor the status indicator:
    stored targets outlive power pellets and the end of the frightened
    countdown, until their own timer clears them. *)
Theorem tick_keeps_advisory (rnd : nat -> nat) (s : State) :
  geminiTargets (App.gameTick rnd s) = geminiTargets s
  /\ hiveMindStatus (App.gameTick rnd s) = hiveMindStatus s.
Proof.
  rewrite gameTick_unfold.
  set (moved := App.moveGhosts rnd s (App.movePacmanCb s s)).
  destruct (advanceTimers_frame s (App.handleCollisions s moved))
    as (_ & _ & _ & _ & Hg & Hh & _).
  rewrite Hg, Hh. unfold App.handleCollisions.
  destruct (contactLoop_spec (ghosts s) (p_position (pacman s)) moved)
    as (_ & Hs & _).
  destruct (App.contactLoop (ghosts s) (p_position (pacman s)) moved) as [died c1].
  cbn [snd] in Hs.
  destruct Hs as (_ & _ & _ & _ & _ & _ & _ & _ & _ & Hst & Hgt).
  assert (geminiTargets moved = geminiTargets s /\ hiveMindStatus moved = hiveMindStatus s)
    as [Hm1 Hm2] by (split; reflexivity).
  destruct died.
  - state_simpl. split; congruence.
  - unfold App.pelletCheck.
    destruct (cellIs _ PELLET || cellIs _ POWER_PELLET); [ | split; congruence ].
    destruct (cellIs _ PELLET); state_simpl; split; congruence.
Qed.

Lemma modeAt_cases (i : Z) :
  0 <= i < 8 ->
  exists mode duration,
    nth_error GHOST_MODE_SCHEDULE (Z.to_nat i) = Some (mode, duration)
    /\ modeAt i = Some mode
    /\ (i = 7 -> duration = Infinity).
Proof.
  intros Hi. unfold modeAt.
  replace (i <? 0) with false by (symmetry; apply Z.ltb_ge; lia).
  assert (Hcases : i = 0 \/ i = 1 \/ i = 2 \/ i = 3 \/ i = 4 \/ i = 5 \/ i = 6 \/ i = 7)
    by lia.
  destruct Hcases as [-> | [-> | [-> | [-> | [-> | [-> | [-> | ->]]]]]]];
    cbn; eexists; eexists; (split; [ reflexivity | split; [ reflexivity | ] ]);
    intros H; try discriminate; reflexivity.
Qed.

Lemma tick_schedule (rnd : nat -> nat) (s : State) :
  scheduleSound s -> scheduleSound (App.gameTick rnd s).
Proof.
  intros (Hidx & Hmode & Hlast). rewrite gameTick_unfold.
  set (resolved := App.handleCollisions s (App.moveGhosts rnd s (App.movePacmanCb s s))).
  assert (Hkeep : modeTicks resolved = modeTicks s
                  /\ scheduleIndex resolved = scheduleIndex s
                  /\ ghostMode resolved = ghostMode s).
  { destruct (handleCollisions_keeps_schedule s
                (App.moveGhosts rnd s (App.movePacmanCb s s))) as (H1 & H2 & H3 & _).
    fold resolved in H1, H2, H3.
    unfold App.moveGhosts, App.movePacmanCb in H1, H2, H3. state_simpl. auto. }
  destruct Hkeep as (H1 & H2 & H3).
  unfold scheduleSound, App.advanceTimers.
  destruct (frightenedTicks s >? 0).
  { destruct (frightenedTicks s - 1 =? 0); state_simpl;
      rewrite H1, H2, H3; auto. }
  destruct (jsLeZero (jsPred (modeTicks resolved))) eqn:Ez.
  - set (newIndex := Z.rem (scheduleIndex s + 1)
                           (Z.of_nat (List.length GHOST_MODE_SCHEDULE))).
    assert (Hnew : 0 <= newIndex < 8).
    { unfold newIndex. cbn [List.length GHOST_MODE_SCHEDULE Z.of_nat].
      change (Z.pos (Pos.of_succ_nat 7)) with 8.
      rewrite Z.rem_mod_nonneg by lia. apply Z.mod_pos_bound. lia. }
    replace (newIndex <? 0) with false by (symmetry; apply Z.ltb_ge; lia).
    destruct (modeAt_cases newIndex Hnew) as (mode & duration & Hnth & Hm & Hinf).
    rewrite Hnth. state_simpl. split; [ exact Hnew | ]. split; [ exact Hm | ].
    intros H7. rewrite (Hinf H7). reflexivity.
  - state_simpl. rewrite H1, H2, H3. split; [ exact Hidx | ].
    split; [ exact Hmode | ]. intros H7. rewrite (Hlast H7). reflexivity.
Qed.

(** X17. Once the last entry of the schedule is current, with its unbounded
    countdown, no run of ticks leaves it: the index, the countdown and the
    mode stay as they are. *)
Theorem last_schedule_entry_is_final (rnds : list (nat -> nat)) (s : State) :
  scheduleIndex s = 7 -> modeTicks s = Infinity ->
  scheduleIndex (runTicks rnds s) = 7
  /\ modeTicks (runTicks rnds s) = Infinity
  /\ ghostMode (runTicks rnds s) = ghostMode s.
Proof.
  revert s. induction rnds as [|rnd rnds IH]; intros s Hidx Hticks;
    [ cbn; auto | ].
  assert (Hstep : scheduleIndex (App.gameTick rnd s) = 7
                  /\ modeTicks (App.gameTick rnd s) = Infinity
                  /\ ghostMode (App.gameTick rnd s) = ghostMode s).
  { rewrite gameTick_unfold.
    set (resolved := App.handleCollisions s
                       (App.moveGhosts rnd s (App.movePacmanCb s s))).
    assert (Hkeep : modeTicks resolved = modeTicks s
                    /\ scheduleIndex resolved = scheduleIndex s
                    /\ ghostMode resolved = ghostMode s).
    { destruct (handleCollisions_keeps_schedule s
                  (App.moveGhosts rnd s (App.movePacmanCb s s)))
        as (H1 & H2 & H3 & _).
      fold resolved in H1, H2, H3.
      unfold App.moveGhosts, App.movePacmanCb in H1, H2, H3. state_simpl. auto. }
    destruct Hkeep as (H1 & H2 & H3).
    unfold App.advanceTimers.
    destruct (frightenedTicks s >? 0).
    { destruct (frightenedTicks s - 1 =? 0); state_simpl; repeat split; congruence. }
    rewrite H1, Hticks. cbn [jsPred jsLeZero]. state_simpl.
    repeat split; congruence. }
  destruct Hstep as (Hi & Ht & Hm). change (runTicks (rnd :: rnds) s)
    with (runTicks rnds (App.gameTick rnd s)).
  destruct (IH _ Hi Ht) as (H1 & H2 & H3). repeat split; congruence.
Qed.

End WholeTick.

(* ----------------------------------------------------------------- *)
(** ** One tick: motion, then contact, then pellets *)

Section TickCollisions.
Context {K : Constants}.

Lemma withGhostState_eaten_twice (g : Ghost) :
  withGhostState eaten (withGhostState eaten g) = withGhostState eaten g.
Proof. reflexivity. Qed.



















End TickCollisions.


(** The slips the amended claims leave out, on concrete ticks. *)

(** [handleCollisions] reads the player of the render before the motion of
    the tick: a pellet on the cell the player enters is still there when the
    tick is over, and is eaten one tick later. *)
Example tick_resolves_at_the_cell_before_motion :
  let s1 := App.gameTick (K := constants3) (fun _ => O) statePelletAhead in
  let s2 := App.gameTick (K := constants3) (fun _ => O) s1 in
  p_position (pacman s1) = mkPos 1 0
  /\ cellAt (board s1) (mkPos 1 0) = Some PELLET
  /\ score s1 = 0 /\ eatenPellets s1 = 0
  /\ cellAt (board s2) (mkPos 1 0) = Some EMPTY
  /\ score s2 = 10 /\ eatenPellets s2 = 1.
Proof. vm_compute. repeat split. Qed.

(** The timer code of the tick writes the old countdown minus one over the
    restart: with five ticks left a second power pellet leaves four, and
    with one tick left it leaves none and no ghost frightened. *)
Example running_countdown_is_not_restarted :
  let s5 := App.gameTick (K := constants3) (fun _ => O) (statePowerRunning 5) in
  let s1 := App.gameTick (K := constants3) (fun _ => O) (statePowerRunning 1) in
  frightenedTicks s5 = 4
  /\ map g_state (ghosts s5) = [frightened; eaten]
  /\ frightenedTicks s1 = 0
  /\ map g_state (ghosts s1) = [normal; eaten]
  /\ score s1 = 50.
Proof. vm_compute. repeat split. Qed.

(* ----------------------------------------------------------------- *)
(** ** Runs of the component from its initial state *)

Ltac state_eval :=
  cbv beta iota zeta delta
    [App.resetGame App.resetLevel App.resumeAfterLifeLost
     setBoard setPacman setGhosts setGameState setScore setLives
     setEatenPellets setFrightenedTicks setGhostMode setModeTicks
     setScheduleIndex setHiveMindStatus setGeminiTargets
     board pacman ghosts gameState score lives eatenPellets frightenedTicks
     ghostMode modeTicks scheduleIndex hiveMindStatus geminiTargets].

Section Runs.
Context {K : Constants}.

Lemma sameCore_refl (s : State) : sameCore s s.
Proof. unfold sameCore. repeat split. Qed.

Lemma startGame_kind (s : State) :
  sameCore s (App.startGame s s) \/ gameReset (App.startGame s s).
Proof.
  unfold App.startGame.
  destruct (gameState s);
    try (left; unfold sameCore; state_eval; repeat split; fail);
    right; unfold gameReset; state_eval; repeat split.
Qed.

Lemma keyDirection_Enter (key : string) :
  String.eqb key "Enter" = true -> App.keyDirection key = None.
Proof.
  intros H. apply String.eqb_eq in H. subst key. reflexivity.
Qed.

Lemma step_kind (e : Event) (s : State) : stepKind s (step e s).
Proof.
  unfold stepKind. destruct e as [rnd|key| |r| |st| | |]; cbn [step].
  - unfold App.clockTick.
    destruct (gameState s);
      try (right; left; apply sameCore_refl); left; exists rnd; reflexivity.
  - unfold App.handleKeyDown. cbv zeta.
    destruct (String.eqb key "Enter") eqn:Ekey.
    + rewrite (keyDirection_Enter key Ekey).
      destruct (startGame_kind s) as [H | H]; auto.
    + right; left. destruct (App.keyDirection key);
        unfold sameCore, App.withNextDirection; state_simpl; repeat split.
  - destruct (startGame_kind s) as [H | H]; auto.
  - right; left. unfold App.onHiveMindResponse.
    destruct r as [|targets]; [ | destruct (App.hasAllTargets targets) ];
      unfold sameCore; state_simpl; repeat split.
  - right; left. unfold App.advisoryTimeout, sameCore; state_simpl; repeat split.
  - right; left. unfold sameCore; state_simpl; repeat split.
  - right; left. unfold App.livesEffect.
    destruct (_ && _); unfold sameCore; state_simpl; repeat split.
  - right; left. unfold App.pelletsEffect.
    destruct (_ && _); unfold sameCore; state_simpl; repeat split.
  - unfold resumeIfPaused.
    destruct (gameState s); try (right; left; apply sameCore_refl).
    destruct (lives s >? 0); [ | right; left; apply sameCore_refl ].
    right; right; left.
    unfold levelReset; state_eval; repeat split.
Qed.

(** Induction over a run: what the initial state has and every event keeps
    holds at the end of the run. *)
Lemma run_invariant (P : State -> Prop) :
  (forall e s, P s -> P (step e s)) ->
  forall events s, P s -> P (run events s).
Proof.
  intros Hstep events. unfold run.
  induction events as [|e events IH]; intros s Hs; cbn [fold_left];
    [ exact Hs | apply IH, Hstep, Hs ].
Qed.

(* ......... pellets and board ......... *)

Lemma onlyPelletsEaten_refl (b : Board) : onlyPelletsEaten b b.
Proof. intros q. left. reflexivity. Qed.

Lemma onlyPelletsEaten_tick (rnd : nat -> nat) (s : State) :
  onlyPelletsEaten INITIAL_BOARD (board s) ->
  onlyPelletsEaten INITIAL_BOARD (board (App.gameTick rnd s)).
Proof.
  intros Hs q. destruct (tick_pellet_step rnd s) as (_ & _ & _ & Hcells).
  destruct (Hcells q) as [Hsame | (_ & Hheld & Hempty)].
  - rewrite Hsame. apply Hs.
  - destruct (Hs q) as [Hinit | [Hinit Hgone]].
    + right. split; [ rewrite <- Hinit; exact Hheld | exact Hempty ].
    + right. split; [ exact Hinit | exact Hempty ].
Qed.

Lemma boardSound_step (e : Event) (s : State) :
  TOTAL_PELLETS = countPellets INITIAL_BOARD ->
  boardSound s -> boardSound (step e s).
Proof.
  intros Htotal [Hcount Hcells]. unfold boardSound.
  destruct (step_kind e s) as [[rnd ->] | [H | [H | H]]].
  - destruct (tick_pellet_step rnd s) as (_ & _ & Hstep & _).
    split; [ exact (Hstep Hcount) | apply onlyPelletsEaten_tick, Hcells ].
  - destruct H as (Hb & He & _). rewrite Hb, He. auto.
  - destruct H as (Hb & He & _). rewrite Hb, He. auto.
  - destruct H as (Hb & He & _). rewrite Hb, He.
    split; [ lia | apply onlyPelletsEaten_refl ].
Qed.

(** X18. Along every run of events from the initial state - ticks, keys,
    clicks on the overlay, advisory responses and timers, restarts after a
    lost life or a finished game - the pellet counter equals the number of
    pellets and power pellets that have left the board, and the board
    differs from the initial board only in pellet cells that became empty.
    The constant [TOTAL_PELLETS] has to be the pellet count of
    [INITIAL_BOARD]. *)
Theorem run_keeps_pellet_accounting (events : list Event) :
  TOTAL_PELLETS = countPellets INITIAL_BOARD ->
  eatenPellets (run events App.initialState)
  = TOTAL_PELLETS - countPellets (board (run events App.initialState))
  /\ onlyPelletsEaten INITIAL_BOARD (board (run events App.initialState)).
Proof.
  intros Htotal.
  apply (run_invariant boardSound).
  - intros e s. apply boardSound_step, Htotal.
  - split; [ | apply onlyPelletsEaten_refl ].
    change (0 = TOTAL_PELLETS - countPellets INITIAL_BOARD). lia.
Qed.

(* ......... the player ......... *)







(* ......... the ghosts ......... *)

(** X20. Along every run of events from the initial state there are exactly
    the four ghosts of [INITIAL_GHOSTS], in their order, each with its id,
    colour, spawn cell and scatter target: only positions, directions and
    states ever change. *)
Theorem run_keeps_the_four_ghosts (events : list Event) :
  map ghostIdentity (ghosts (run events App.initialState))
  = map ghostIdentity App.INITIAL_GHOSTS.
Proof.
  apply (run_invariant
           (fun s => map ghostIdentity (ghosts s)
                     = map ghostIdentity App.INITIAL_GHOSTS)).
  - intros e s Hs.
    destruct (step_kind e s) as [[rnd ->] | [H | [H | H]]].
    + rewrite ghostIdentity_gameTick. exact Hs.
    + destruct H as (_ & _ & _ & Hg & _). rewrite Hg. exact Hs.
    + destruct H as (_ & _ & _ & Hg & _). rewrite Hg. reflexivity.
    + destruct H as (_ & _ & _ & Hg & _). rewrite Hg. reflexivity.
  - reflexivity.
Qed.

(* ......... the mode schedule ......... *)

Lemma scheduleSound_step (e : Event) (s : State) :
  scheduleSound s -> scheduleSound (step e s).
Proof.
  intros Hs.
  destruct (step_kind e s) as [[rnd ->] | [H | [H | H]]].
  - apply tick_schedule, Hs.
  - destruct H as (_ & _ & _ & _ & Hi & Hm & Ht & _).
    unfold scheduleSound. rewrite Hi, Hm, Ht. exact Hs.
  - destruct H as (_ & _ & _ & _ & Hi & Hm & Ht & _).
    unfold scheduleSound. rewrite Hi, Hm, Ht. exact Hs.
  - destruct H as (_ & _ & _ & _ & Hi & Hm & Ht & _).
    unfold scheduleSound. rewrite Hi, Hm.
    split; [ lia | ]. split; [ reflexivity | discriminate ].
Qed.

(** X21. Along every run of events from the initial state the schedule
    index stays within the eight entries of [GHOST_MODE_SCHEDULE], the
    current mode is the mode of the current entry, and the last entry is
    held with an unbounded countdown. *)
Theorem run_keeps_mode_schedule (events : list Event) :
  scheduleSound (run events App.initialState).
Proof.
  apply (run_invariant scheduleSound).
  - exact scheduleSound_step.
  - unfold scheduleSound. cbn. split; [ lia | ].
    split; [ reflexivity | discriminate ].
Qed.

Lemma frightenedTicks_gameTick (rnd : nat -> nat) (s : State) :
  (0 < frightenedTicks s
   /\ frightenedTicks (App.gameTick rnd s) = frightenedTicks s - 1)
  \/ (frightenedTicks s <= 0
      /\ (frightenedTicks (App.gameTick rnd s) = frightenedTicks s
          \/ frightenedTicks (App.gameTick rnd s) = FRIGHTENED_DURATION)).
Proof.
  rewrite gameTick_unfold.
  set (moved := App.moveGhosts rnd s (App.movePacmanCb s s)).
  assert (Hh : frightenedTicks (App.handleCollisions s moved) = frightenedTicks s
               \/ frightenedTicks (App.handleCollisions s moved)
                  = FRIGHTENED_DURATION).
  { unfold App.handleCollisions.
    destruct (contactLoop_spec (ghosts s) (p_position (pacman s)) moved)
      as (_ & Hs & _).
    destruct (App.contactLoop (ghosts s) (p_position (pacman s)) moved)
      as [died c1]. cbn [snd] in Hs.
    assert (Hf : frightenedTicks c1 = frightenedTicks s).
    { destruct Hs as (_ & _ & _ & _ & _ & Hf & _). exact Hf. }
    destruct died; [ state_simpl; left; exact Hf | ].
    unfold App.pelletCheck.
    destruct (cellIs _ PELLET || cellIs _ POWER_PELLET); [ | left; exact Hf ].
    destruct (cellIs _ PELLET); state_simpl; [ left; exact Hf | right; reflexivity ]. }
  unfold App.advanceTimers.
  destruct (frightenedTicks s >? 0) eqn:Epos.
  - left. apply Z.gtb_lt in Epos. split; [ lia | ].
    destruct (frightenedTicks s - 1 =? 0); state_simpl; reflexivity.
  - right. assert (frightenedTicks s <= 0) by (rewrite Z.gtb_ltb in Epos; apply Z.ltb_ge in Epos; exact Epos).
    split; [ assumption | ].
    destruct (jsLeZero _); [ destruct (_ <? 0); [ | destruct (nth_error _ _) as [[? ?]|] ] | ];
      state_simpl; exact Hh.
Qed.

End Runs.

(* ......... score, lives and the frightened countdown, along a run ......... *)

Section Counters.
Context {K : Constants}.
Hypothesis Hduration : 0 <= FRIGHTENED_DURATION.

Lemma countersSound_startGame (s : State) :
  countersSound s -> countersSound (App.startGame s s).
Proof.
  unfold countersSound, App.startGame.
  destruct s as [b p gs st sc l ep ft gm mt si hs gt]. state_eval.
  intros (Hf & Hs & Hl & Hg).
  destruct st; state_eval; repeat split; try lia; auto.
Qed.

Lemma countersSound_step (e : Event) (s : State) :
  countersSound s -> countersSound (step e s).
Proof.
  intros Hs. pose proof Hs as (Hf & Hsc & Hl & Hg).
  destruct e as [rnd|key| |r| |st| | |]; cbn [step].
  - unfold App.clockTick. destruct (gameState s) eqn:Eg; try exact Hs.
    destruct (gameTick_counters rnd s) as (Hle & _ & Hlives & Hstate).
    cbv zeta in Hle, Hlives, Hstate.
    unfold countersSound. rewrite Hlives, Hstate.
    split; [ destruct (frightenedTicks_gameTick rnd s)
               as [[? ->] | [? [-> | ->]]]; lia | ].
    split; [ lia | ].
    destruct (fatalContact (ghosts s) (p_position (pacman s)));
      [ | rewrite Eg ]; repeat split; lia.
  - unfold App.handleKeyDown. cbv zeta.
    destruct (String.eqb key "Enter") eqn:Ekey.
    + rewrite (keyDirection_Enter key Ekey). apply countersSound_startGame, Hs.
    + destruct (App.keyDirection key); unfold countersSound; state_simpl; exact Hs.
  - apply countersSound_startGame, Hs.
  - unfold App.onHiveMindResponse.
    destruct r as [|targets]; [ | destruct (App.hasAllTargets targets) ];
      unfold countersSound; state_simpl; exact Hs.
  - unfold App.advisoryTimeout, countersSound; state_simpl; exact Hs.
  - unfold countersSound; state_simpl; exact Hs.
  - unfold App.livesEffect.
    destruct (_ && _); [ | exact Hs ].
    unfold countersSound; state_simpl. repeat split; lia.
  - unfold App.pelletsEffect.
    destruct (_ && _); [ | exact Hs ].
    unfold countersSound; state_simpl. repeat split; lia.
  - unfold resumeIfPaused. destruct (gameState s) eqn:Eg; try exact Hs.
    destruct (lives s >? 0) eqn:El; [ | exact Hs ].
    apply Z.gtb_lt in El. clear Hs.
    unfold countersSound.
    destruct s as [b p gs st' sc l ep ft gm mt si hs gt].
    state_eval. cbn [lives frightenedTicks score] in *. repeat split; lia.
Qed.

(** X22. Along every run of events from the initial state the score is
    never negative, the lives stay between 0 and 3, the frightened countdown
    stays between 0 and [FRIGHTENED_DURATION], and the game is never ready or
    playing without a life left. *)
Theorem run_keeps_counters (events : list Event) :
  countersSound (run events App.initialState).
Proof.
  apply (run_invariant countersSound).
  - exact countersSound_step.
  - unfold countersSound, App.initialState. state_eval. repeat split; lia.
Qed.

End Counters.

Section Restart.
Context {K : Constants}.

(** X23. Starting again after the game was lost or the level won puts every
    state cell back to its initial value before play resumes: board, score,
    lives, pellet counter, frightened countdown, player, ghosts, schedule,
    advisory status and targets. *)
Theorem restart_restores_initial_state (s : State) :
  gameState s = GAME_OVER \/ gameState s = LEVEL_WON ->
  App.startGame s s = setGameState PLAYING App.initialState.
Proof.
  intros H. unfold App.startGame.
  destruct H as [-> | ->]; reflexivity.
Qed.

(** X24. A direction key only buffers the turn: the next tick takes it when
    the cell in that direction is free, otherwise the player carries on in
    the old direction, or stays in place when that cell is closed too; the
    buffered turn is kept in every case. *)
Theorem buffered_turn_is_taken_when_free (key : string) (d : Direction)
    (rnd : nat -> nat) (s : State) :
  App.keyDirection key = Some d ->
  gameState s = PLAYING ->
  let pos := p_position (pacman s) in
  let after := pacman (run [KeyDown key; Tick rnd] s) in
  p_nextDirection after = d
  /\ (isWall (getNextPosition pos d) (board s) = false ->
      p_position after = getNextPosition pos d /\ p_direction after = d)
  /\ (isWall (getNextPosition pos d) (board s) = true ->
      p_direction after = p_direction (pacman s)
      /\ p_position after
         = if isWall (getNextPosition pos (p_direction (pacman s))) (board s)
           then pos
           else getNextPosition pos (p_direction (pacman s))).
Proof.
  intros Hkey Hplay. cbv zeta. unfold run. cbn [fold_left step].
  assert (Hpressed : App.handleKeyDown key s s
                     = setPacman (App.withNextDirection d) s).
  { unfold App.handleKeyDown. cbv zeta. rewrite Hkey.
    destruct (String.eqb key "Enter") eqn:Ekey; [ | reflexivity ].
    rewrite (keyDirection_Enter key Ekey) in Hkey. discriminate. }
  rewrite Hpressed. unfold App.clockTick.
  replace (gameState (setPacman (App.withNextDirection d) s)) with PLAYING
    by (symmetry; exact Hplay).
  destruct (gameTick_keeps_nextDirection rnd
              (setPacman (App.withNextDirection d) s)) as [-> _].
  state_simpl. unfold App.movePacman, App.withNextDirection.
  cbn [p_position p_direction p_nextDirection p_isMouthOpen].
  destruct (isWall (getNextPosition (p_position (pacman s)) d) (board s));
    cbn [negb].
  - destruct (isWall (getNextPosition (p_position (pacman s))
                        (p_direction (pacman s))) (board s));
      cbn [p_position p_direction p_nextDirection];
      (split; [ reflexivity | split; [ discriminate | auto ] ]).
  - cbn [p_position p_direction p_nextDirection].
    split; [ reflexivity | split; [ auto | discriminate ] ].
Qed.

End Restart.

(* ----------------------------------------------------------------- *)
(** ** The properties on the three by three boards *)

Lemma getNextPosition_lands_on_board_witness :
  In (getNextPosition (K := constants3) (mkPos 0 0) LEFT)
     (allCells (K := constants3)).
Proof.
  apply (getNextPosition_lands_on_board (K := constants3) (mkPos 0 0) LEFT);
    unfold constants3; cbn; lia.
Defined.

Lemma getNextPosition_is_modular_witness :
  getNextPosition (K := constants3) (mkPos 0 2) LEFT
  = mkPos ((0 + fst (stepDelta LEFT)) mod 3) ((2 + snd (stepDelta LEFT)) mod 3).
Proof.
  apply (getNextPosition_is_modular (K := constants3) (mkPos 0 2) LEFT);
    unfold constants3; cbn; lia.
Defined.

Lemma findNextMoveTo_first_step_is_legal_witness :
  In LEFT dirs
  /\ App.outOfBounds (K := constants3)
       (getNextPosition (K := constants3) (mkPos 0 0) LEFT) = false
  /\ App.cellBlocked boardDoor normal
       (getNextPosition (K := constants3) (mkPos 0 0) LEFT) = false.
Proof.
  apply (findNextMoveTo_first_step_is_legal (K := constants3) boardDoor
           (mkPos 0 0) (Cell (mkPos 2 0)) normal LEFT).
  vm_compute. reflexivity.
Defined.

Lemma findNextMove_to_start_is_null_witness :
  App.findNextMove (K := constants3) board3 (mkPos 1 1) (mkPos 1 1) normal = None.
Proof.
  apply (findNextMove_to_start_is_null (K := constants3) board3 (mkPos 1 1) normal);
    unfold constants3; cbn; lia.
Defined.

Lemma findNextMove_off_board_is_null_witness :
  App.findNextMove (K := constants3) board3 (mkPos 1 1) (mkPos 3 1) normal = None.
Proof.
  apply (findNextMove_off_board_is_null (K := constants3) board3 (mkPos 1 1)
           (mkPos 3 1) normal); unfold constants3; cbn; lia.
Defined.

Lemma entry_without_coordinates_sends_ghost_ahead_witness :
  App.moveGhost (K := constants3) boardDeadEnd pacman3 chase (Some payloadNoY) [] 0
    (ghostAt (mkPos 1 1) RIGHT normal (mkPos 0 0))
  = withGhostMove (mkPos 2 1) RIGHT (ghostAt (mkPos 1 1) RIGHT normal (mkPos 0 0)).
Proof.
  apply (entry_without_coordinates_sends_ghost_ahead (K := constants3)
           boardDeadEnd pacman3 (Some payloadNoY) [] 0
           (ghostAt (mkPos 1 1) RIGHT normal (mkPos 0 0))
           (JObj [("x", JNum 1)]%string)).
  - unfold constants3; cbn; lia.
  - unfold constants3; cbn; lia.
  - reflexivity.
  - vm_compute. reflexivity.
  - right. reflexivity.
Defined.

Lemma frightened_ghost_takes_valid_direction_witness :
  let ghost := ghostAt (mkPos 0 0) RIGHT frightened (mkPos 0 0) in
  let moved := App.moveGhost (K := constants3) boardDoor pacman3 scatter None [] 5
                             ghost in
  In (g_direction moved) dirs
  /\ g_direction moved <> oppositeDirection (g_direction ghost)
  /\ g_position moved
     = getNextPosition (K := constants3) (g_position ghost) (g_direction moved)
  /\ cellIs (cellAt boardDoor (g_position moved)) WALL = false
  /\ cellIs (cellAt boardDoor (g_position moved)) GHOST_HOME = false
  /\ g_state moved = frightened.
Proof.
  apply (frightened_ghost_takes_valid_direction (K := constants3) boardDoor
           pacman3 scatter None [] 5
           (ghostAt (mkPos 0 0) RIGHT frightened (mkPos 0 0))).
  - reflexivity.
  - vm_compute. discriminate.
Defined.

Lemma tryGhostMoves_takes_first_legal_witness :
  exists before after,
    [UP; LEFT; DOWN] = before ++ LEFT :: after
    /\ (forall e, In e before ->
          Part001.safeGhostStep (K := constants3) (mkPos 1 1) e boardDeadEnd normal
          = None)
    /\ Part001.safeGhostStep (K := constants3) (mkPos 1 1) LEFT boardDeadEnd normal
       = Some (mkPos 0 1, LEFT).
Proof.
  exact (tryGhostMoves_takes_first_legal (K := constants3) (mkPos 1 1)
           [UP; LEFT; DOWN] boardDeadEnd normal).
Defined.

Lemma Part001_normal_ghost_waits_in_dead_end_witness :
  Part001.moveGhost (K := constants3) boardDeadEnd pacman3 scatter None [] 0
    (ghostAt (mkPos 1 1) RIGHT normal (mkPos 0 0))
  = ghostAt (mkPos 1 1) RIGHT normal (mkPos 0 0).
Proof.
  apply (Part001_normal_ghost_waits_in_dead_end (K := constants3) boardDeadEnd
           pacman3 scatter None [] 0
           (ghostAt (mkPos 1 1) RIGHT normal (mkPos 0 0))).
  - reflexivity.
  - intros d [<- | [<- | [<- | [<- | []]]]] Hne;
      try reflexivity; exfalso; apply Hne; reflexivity.
Defined.

Lemma moveGhost_ignores_targets_outside_chase_witness :
  App.moveGhost (K := constants3) board3 pacman3 scatter (Some payloadPartial) [] 0
    (ghostAt (mkPos 0 0) LEFT normal (mkPos 2 2))
  = App.moveGhost (K := constants3) board3 (mkPacman (mkPos 2 0) UP UP true)
      scatter None [ghostAt (mkPos 1 2) UP eaten (mkPos 0 0)] 0
      (ghostAt (mkPos 0 0) LEFT normal (mkPos 2 2)).
Proof.
  apply (moveGhost_ignores_targets_outside_chase (K := constants3) board3
           scatter 0 (ghostAt (mkPos 0 0) LEFT normal (mkPos 2 2))).
  right. reflexivity.
Defined.

Lemma flanker_target_mirrors_blinky_witness :
  let ghost := mkGhost 3 (mkPos 0 2) UP normal "bg-cyan-500" (mkPos 0 2)
                       (mkPos 2 2) in
  let blinky := ghostAt (mkPos 2 0) LEFT normal (mkPos 0 0) in
  let target := getChaseTarget ghost pacman3 [blinky; ghost] in
  pos_x target + pos_x (g_position blinky)
  = 2 * (pos_x (p_position pacman3) + 2 * fst (stepDelta (p_direction pacman3)))
  /\ pos_y target + pos_y (g_position blinky)
     = 2 * (pos_y (p_position pacman3) + 2 * snd (stepDelta (p_direction pacman3))).
Proof.
  cbv zeta.
  apply (flanker_target_mirrors_blinky
           (mkGhost 3 (mkPos 0 2) UP normal "bg-cyan-500" (mkPos 0 2) (mkPos 2 2))
           (ghostAt (mkPos 2 0) LEFT normal (mkPos 0 0)) pacman3);
    reflexivity.
Defined.

Lemma last_schedule_entry_is_final_witness :
  scheduleIndex (runTicks (K := constants3) [fun _ => O; fun _ => 1%nat]
                          stateLastEntry) = 7
  /\ modeTicks (runTicks (K := constants3) [fun _ => O; fun _ => 1%nat]
                         stateLastEntry) = Infinity
  /\ ghostMode (runTicks (K := constants3) [fun _ => O; fun _ => 1%nat]
                         stateLastEntry) = ghostMode stateLastEntry.
Proof.
  apply (last_schedule_entry_is_final (K := constants3)
           [fun _ => O; fun _ => 1%nat] stateLastEntry); reflexivity.
Defined.

Lemma run_keeps_pellet_accounting_witness :
  let final := run (K := constants3)
                   [OverlayClick; KeyDown "ArrowUp"; Tick (fun _ => O)]
                   (App.initialState (K := constants3)) in
  eatenPellets final = 1 - countPellets (board final)
  /\ onlyPelletsEaten board3 (board final).
Proof.
  apply (run_keeps_pellet_accounting (K := constants3)
           [OverlayClick; KeyDown "ArrowUp"; Tick (fun _ => O)]).
  vm_compute. reflexivity.
Defined.


Lemma run_keeps_counters_witness :
  countersSound (K := constants3)
    (run (K := constants3) [OverlayClick; Tick (fun _ => O); LivesEffect]
         (App.initialState (K := constants3))).
Proof.
  apply (run_keeps_counters (K := constants3)).
  unfold constants3; cbn; lia.
Defined.

Lemma restart_restores_initial_state_witness :
  App.startGame (K := constants3) stateGameOver stateGameOver
  = setGameState PLAYING (App.initialState (K := constants3)).
Proof.
  apply (restart_restores_initial_state (K := constants3) stateGameOver).
  left. reflexivity.
Defined.

Lemma buffered_turn_is_taken_when_free_witness :
  let pos := p_position (pacman stateLastEntry) in
  let after := pacman (run (K := constants3)
                           [KeyDown "s"; Tick (fun _ => O)] stateLastEntry) in
  p_nextDirection after = DOWN
  /\ (isWall (getNextPosition (K := constants3) pos DOWN) (board stateLastEntry)
      = false ->
      p_position after = getNextPosition (K := constants3) pos DOWN
      /\ p_direction after = DOWN)
  /\ (isWall (getNextPosition (K := constants3) pos DOWN) (board stateLastEntry)
      = true ->
      p_direction after = p_direction (pacman stateLastEntry)
      /\ p_position after
         = if isWall (getNextPosition (K := constants3) pos
                        (p_direction (pacman stateLastEntry)))
                     (board stateLastEntry)
           then pos
           else getNextPosition (K := constants3) pos
                  (p_direction (pacman stateLastEntry))).
Proof.
  apply (buffered_turn_is_taken_when_free (K := constants3) "s" DOWN
           (fun _ => O) stateLastEntry); reflexivity.
Defined.

Lemma Part001_findNextMove_shortest_path_witness :
  match Part001.findNextMove (K := constants3) boardDoor (mkPos 0 0) (mkPos 2 0)
                             normal with
  | Some d =>
      In d dirs
      /\ Part001.isBlockedForGhost (mkPos 0 0)
           (getNextPosition (K := constants3) (mkPos 0 0) d) boardDoor normal
         = false
      /\ exists n,
           walk (K := constants3) (legalPart001 boardDoor normal) n
                (getNextPosition (K := constants3) (mkPos 0 0) d) (mkPos 2 0)
           /\ (forall k, walk (K := constants3) (legalPart001 boardDoor normal) k
                              (getNextPosition (K := constants3) (mkPos 0 0) d)
                              (mkPos 2 0) -> (n <= k)%nat)
           /\ (forall k, walk (K := constants3) (legalPart001 boardDoor normal) k
                              (mkPos 0 0) (mkPos 2 0) -> (S n <= k)%nat)
  | None => forall k, ~ walk (K := constants3) (legalPart001 boardDoor normal) k
                             (mkPos 0 0) (mkPos 2 0)
  end.
Proof.
  apply (Part001_findNextMove_shortest_path (K := constants3) boardDoor
           (mkPos 0 0) (mkPos 2 0) normal);
    unfold constants3; cbn; try lia; discriminate.
Defined.

Lemma Part001_normal_ghost_never_reverses_witness :
  g_direction (Part001.moveGhost (K := constants3) boardDoor pacman3 scatter None
                 [] 0 (ghostAt (mkPos 1 0) RIGHT normal (mkPos 0 0)))
  <> oppositeDirection RIGHT.
Proof.
  apply (Part001_normal_ghost_never_reverses (K := constants3) boardDoor pacman3
           scatter None [] 0 (ghostAt (mkPos 1 0) RIGHT normal (mkPos 0 0)) RIGHT).
  - reflexivity.
  - cbn. auto.
  - discriminate.
  - reflexivity.
Defined.

Lemma isBlockedForGhost_guards_home_witness :
  Part001.isBlockedForGhost (mkPos 1 0) (mkPos 1 1) boardDoor normal = true.
Proof.
  apply (isBlockedForGhost_guards_home (mkPos 1 0) (mkPos 1 1) boardDoor normal).
  - discriminate.
  - reflexivity.
  - reflexivity.
Defined.
